(** * osbuild-composer: job queue and compose state store

    A shallow embedding of the Go sources
      - internal/common/states.go
      - internal/compose/compose.go
      - internal/store/store.go
      - internal/jobqueue/fsjobqueue (the queue implementation)
      - internal/worker/server.go, json.go
    and the properties of the specification checked against them.

    Conventions of the embedding.
      - A Go [int] is a [Z]; [revision++] is written with its 64-bit
        wrap-around; a counter bounded by the length of a slice is a [nat].
      - A Go [map] is a [gmap]; a nil map and an empty map are both [∅]
        (the sources only ever read, range over, or [make] a nil map).
        The order in which [range] visits a map is not specified in Go: it
        is supplied by the caller of the model as a permutation.
      - A Go slice owned by one struct is a [list]; an index out of range is
        a run-time panic.
      - A Go pointer that may be nil is an [option].
      - A Go [error] result is an [option error] ([None] is [nil]).
      - Code that may panic, exit or block returns in the [go] monad. *)

From stdpp Require Import base option list gmap strings numbers sorting pretty.
From Stdlib.Strings Require Import Byte.
From Stdlib.Structures Require OrderedTypeEx.

Open Scope string_scope.
Open Scope list_scope.
Open Scope Z_scope.

(** ** Outcomes of running Go code *)

Inductive go (A : Type) : Type :=
| Ret (a : A)            (* normal return *)
| Panic (msg : string)   (* panic(...) or a run-time panic *)
| Fatal (msg : string)   (* log.Fatalf: the process exits *)
| Blocked.               (* waits forever on a channel operation *)

Arguments Ret {A} a.
Arguments Panic {A} msg.
Arguments Fatal {A} msg.
Arguments Blocked {A}.

Definition go_bind {A B} (m : go A) (k : A -> go B) : go B :=
  match m with
  | Ret a => k a
  | Panic msg => Panic msg
  | Fatal msg => Fatal msg
  | Blocked => Blocked
  end.

Notation "'let*' x ':=' m 'in' k" := (go_bind m (fun x => k))
  (at level 10, x name, m at level 100, k at level 200, only parsing).

(** Message of the run-time panic raised by [s[i]] when [i] is out of range. *)
Definition index_out_of_range : string := "runtime error: index out of range".
Definition nil_dereference : string :=
  "runtime error: invalid memory address or nil pointer dereference".

(** [s[i]] on a slice, with a Go [int] index. *)
Definition index {A} (s : list A) (i : Z) : go A :=
  if decide (0 <= i) then
    match s !! Z.to_nat i with
    | Some x => Ret x
    | None => Panic index_out_of_range
    end
  else Panic index_out_of_range.

Definition in_range {A} (s : list A) (i : Z) : Prop :=
  0 <= i < Z.of_nat (length s).

(** ** Errors

    The error values the sources construct, one constructor per Go error
    type; [errorString] stands for [errors.New] and [fmt.Errorf]. *)
Inductive error : Type :=
| StateTransitionError (message : string)
| NotFoundError (message : string)
| NotPendingError (message : string)
| InvalidRequestError (message : string)
| NoLocalTargetError (message : string)
| ErrNotExist
| ErrNotRunning
| errorString (message : string).

Definition error_Error (e : error) : string :=
  match e with
  | StateTransitionError m | NotFoundError m | NotPendingError m
  | InvalidRequestError m | NoLocalTargetError m | errorString m => m
  | ErrNotExist => "job does not exist"
  | ErrNotRunning => "job is not running"
  end.

(** [time.Time]; the zero time is [0]. *)
Definition Time := Z.

(** [uuid.UUID] is [[16]byte]. *)
Definition UUID := list byte.
Definition uuid_Nil : UUID := replicate 16 x00.

#[global] Instance byte_eq_decision : EqDecision byte := byte_eq_dec.
#[global] Instance byte_countable : Countable byte :=
  inj_countable Byte.to_N Byte.of_N Byte.of_to_N.

(** ** internal/common/states.go *)
Module common.

Definition ImageBuildState := Z.
Definition IBWaiting : ImageBuildState := 0.
Definition IBRunning : ImageBuildState := 1.
Definition IBFinished : ImageBuildState := 2.
Definition IBFailed : ImageBuildState := 3.

Definition ComposeState := Z.
Definition CWaiting : ComposeState := 0.
Definition CRunning : ComposeState := 1.
Definition CFinished : ComposeState := 2.
Definition CFailed : ComposeState := 3.

Definition getStateMapping : list string :=
  ["WAITING"; "RUNNING"; "FINISHED"; "FAILED"].

Definition ToString (s : Z) : go string := index getStateMapping s.

(** Modelled from the spec: [common.ComposeResult] is declared outside the
    files at hand; the worker only reads its [Success] flag, the rest of
    the build output is kept as an opaque document. *)
Record ComposeResult := { Success : bool; Output : string }.

End common.

(** ** Values of packages declared outside the files at hand *)
Module blueprint.

(** Modelled from the spec: [blueprint.Blueprint] has a unique name, a
    semantic version string and an opaque body. *)
Record Blueprint := { Name : string; Version : string; Body : string }.

(** Modelled from the spec:
    [Change{commit, message, timestamp, blueprint-snapshot, revision?}];
    [Revision] is a [*int] in the sources that use it. *)
Record Change := {
  Commit : string;
  Message : string;
  Timestamp : string;
  Change_Blueprint : Blueprint;
  Revision : option Z
}.

(** The zero value of [Change], what a map lookup of a missing key yields. *)
Definition Change_zero : Change :=
  {| Commit := ""; Message := ""; Timestamp := "";
     Change_Blueprint := {| Name := ""; Version := ""; Body := "" |};
     Revision := None |}.

(** Modelled from the spec: [Blueprint.Initialize] fills in default
    values and checks that the version is valid, [Blueprint.BumpVersion]
    raises the version above the one given.  Both have a pointer
    receiver: [Initialize] yields the blueprint after the call or the
    error, [BumpVersion] the blueprint after the call. *)
Class Methods := {
  Initialize : Blueprint -> Blueprint + error;
  BumpVersion : Blueprint -> string -> Blueprint
}.

End blueprint.

Module target.

(** Modelled from the spec: a [target.Target] is a delivery endpoint; the
    state machine only writes its [Status], the options are a tagged union
    of which only the local variant is inspected. *)
Inductive TargetOptions :=
| LocalTargetOptions (Filename : string)
| OtherTargetOptions (kind : string).

Record Target := {
  TargetName : string;
  Status : common.ImageBuildState;
  Options : TargetOptions
}.

Definition set_Status (s : common.ImageBuildState) (t : Target) : Target :=
  {| TargetName := TargetName t; Status := s; Options := Options t |}.

End target.

(** ** internal/compose/compose.go *)
Module compose.
Import common.

(** [Targets] is a [[]*target.Target]: an entry may be a nil pointer. *)
Record ImageBuild := {
  Id : Z;
  ImageType : Z;
  Manifest : option string;
  Targets : list (option target.Target);
  JobCreated : Time;
  JobStarted : Time;
  JobFinished : Time;
  Size : Z;
  JobId : UUID;
  QueueStatus : ImageBuildState
}.

Record Compose := {
  Compose_Blueprint : option blueprint.Blueprint;
  ImageBuilds : list ImageBuild
}.

Definition set_QueueStatus (s : ImageBuildState) (ib : ImageBuild) : ImageBuild :=
  {| Id := Id ib; ImageType := ImageType ib; Manifest := Manifest ib;
     Targets := Targets ib; JobCreated := JobCreated ib;
     JobStarted := JobStarted ib; JobFinished := JobFinished ib;
     Size := Size ib; JobId := JobId ib; QueueStatus := s |}.

Definition set_Targets (ts : list (option target.Target)) (ib : ImageBuild)
  : ImageBuild :=
  {| Id := Id ib; ImageType := ImageType ib; Manifest := Manifest ib;
     Targets := ts; JobCreated := JobCreated ib;
     JobStarted := JobStarted ib; JobFinished := JobFinished ib;
     Size := Size ib; JobId := JobId ib; QueueStatus := QueueStatus ib |}.

Definition set_JobFinished (t : Time) (ib : ImageBuild) : ImageBuild :=
  {| Id := Id ib; ImageType := ImageType ib; Manifest := Manifest ib;
     Targets := Targets ib; JobCreated := JobCreated ib;
     JobStarted := JobStarted ib; JobFinished := t;
     Size := Size ib; JobId := JobId ib; QueueStatus := QueueStatus ib |}.

(** [c.ImageBuilds[i] = ib], for an index already known to be in range. *)
Definition set_ImageBuild (c : Compose) (i : Z) (ib : ImageBuild) : Compose :=
  {| Compose_Blueprint := Compose_Blueprint c;
     ImageBuilds := <[Z.to_nat i := ib]> (ImageBuilds c) |}.

(** [for _, t := range targets { t.Status = newState }]: the write goes
    through the pointer, a nil entry panics. *)
Fixpoint set_targets_status (newState : ImageBuildState)
    (ts : list (option target.Target)) : go (list (option target.Target)) :=
  match ts with
  | [] => Ret []
  | None :: _ => Panic nil_dereference
  | Some t :: rest =>
      let* rest' := set_targets_status newState rest in
      Ret (Some (target.set_Status newState t) :: rest')
  end.

(** The targets of a build once the loop of [UpdateState] has run. *)
Definition with_status (newState : ImageBuildState)
    (ts : list (option target.Target)) : list (option target.Target) :=
  fmap (M := list) (fmap (M := option) (target.set_Status newState)) ts.

(** [func (c *Compose) UpdateState(imageBuildId int, newState
    common.ImageBuildState) error].  The receiver is updated in place:
    the model returns the compose after the call beside the error. *)
Definition UpdateState (c : Compose) (imageBuildId : Z)
    (newState : ImageBuildState) : go (Compose * option error) :=
  if decide (newState = IBWaiting) then
    Ret (c, Some (StateTransitionError
                    "image build cannot be moved into waiting state"))
  else if decide (newState = IBRunning) then
    let* ib := index (ImageBuilds c) imageBuildId in
    if decide (QueueStatus ib = IBWaiting \/ QueueStatus ib = IBRunning) then
      Ret (set_ImageBuild c imageBuildId (set_QueueStatus newState ib), None)
    else
      Ret (c, Some (StateTransitionError
        "only waiting image build can be transitioned into running state"))
  else if decide (newState = IBFinished \/ newState = IBFailed) then
    let* ib := index (ImageBuilds c) imageBuildId in
    if decide (QueueStatus ib = IBRunning) then
      let* ts := set_targets_status newState (Targets ib) in
      Ret (set_ImageBuild c imageBuildId
             (set_Targets ts (set_QueueStatus newState ib)), None)
    else
      Ret (c, Some (StateTransitionError
        "only running image build can be transitioned into finished or failed state"))
  else
    Ret (c, Some (StateTransitionError "invalid state")).

(** The edges of the image-build state machine. *)
Definition transition (old new : ImageBuildState) : Prop :=
  (old = IBWaiting /\ new = IBRunning) \/
  (old = IBRunning /\ new = IBRunning) \/
  (old = IBRunning /\ new = IBFinished) \/
  (old = IBRunning /\ new = IBFailed).

#[global] Instance transition_dec old new : Decision (transition old new).
Proof. unfold transition. apply _. Defined.

Definition terminal (s : ImageBuildState) : Prop :=
  s = IBFinished \/ s = IBFailed.

(** [func (ib *ImageBuild) GetLocalTargetOptions()
    *target.LocalTargetOptions]: the loop over [ib.Targets]; the type
    switch reads [t.Options] through the pointer, a nil entry panics.
    The options are returned as their [Filename]. *)
Fixpoint first_local_options (ts : list (option target.Target))
  : go (option string) :=
  match ts with
  | [] => Ret None
  | None :: _ => Panic nil_dereference
  | Some t :: rest =>
      match target.Options t with
      | target.LocalTargetOptions filename => Ret (Some filename)
      | target.OtherTargetOptions _ => first_local_options rest
      end
  end.

Definition GetLocalTargetOptions (ib : ImageBuild) : go (option string) :=
  first_local_options (Targets ib).

(** *** What the properties below speak of *)

(** A target that is allocated and whose options are not the local ones. *)
Definition not_local (t : option target.Target) : Prop :=
  exists t' kind, t = Some t' /\ target.Options t' = target.OtherTargetOptions kind.

(** Two targets that differ at most in their status. *)
Definition same_target (t t' : option target.Target) : Prop :=
  option_Forall2 (fun a b =>
    target.TargetName a = target.TargetName b /\
    target.Options a = target.Options b) t t'.

(** Two image builds that differ at most in their queue status and in the
    status of their targets. *)
Definition same_build (ib ib' : ImageBuild) : Prop :=
  Id ib' = Id ib /\ ImageType ib' = ImageType ib /\
  Manifest ib' = Manifest ib /\ JobCreated ib' = JobCreated ib /\
  JobStarted ib' = JobStarted ib /\ JobFinished ib' = JobFinished ib /\
  Size ib' = Size ib /\ JobId ib' = JobId ib /\
  Forall2 same_target (Targets ib) (Targets ib').

End compose.

(** ** Library code the sources call

    [sort.Slice], [uuid.UUID.String], the semantic-version library and
    [encoding/json] are not part of the repository. *)

(** [sort.Slice(data, less)].  On the short slices met here the Go library
    runs its insertion sort
    [for i := 1; i < n; i++ { for j := i; j > 0 && less(j, j-1); j-- { swap(j, j-1) } }];
    a longer slice is sorted by another algorithm, and if [less] is a strict
    weak order the result is a sorted permutation either way.
    [insert_left less x done] moves [x] leftwards into [done], which holds
    the already processed prefix from right to left. *)
Fixpoint insert_left {A} (less : A -> A -> bool) (x : A) (done : list A)
  : list A :=
  match done with
  | [] => [x]
  | y :: done' =>
      if less x y then y :: insert_left less x done' else x :: y :: done'
  end.

Fixpoint insertionSort {A} (less : A -> A -> bool) (done todo : list A)
  : list A :=
  match todo with
  | [] => reverse done
  | x :: todo' => insertionSort less (insert_left less x done) todo'
  end.

Definition sort_Slice {A} (less : A -> A -> bool) (data : list A) : list A :=
  insertionSort less [] data.

(** [x] is not placed after [y] by the comparison. *)
Definition not_after {A} (less : A -> A -> bool) (x y : A) : Prop :=
  less y x = false.

(** The order in which [range] visits the keys of a map: some rearrangement
    of them, chosen by the run time. *)
Definition RangeOrder := forall A : Type, list A -> list A.

Definition range_order_ok (shuffle : RangeOrder) : Prop :=
  forall A (l : list A), shuffle A l ≡ₚ l.

Definition range_in_order : RangeOrder := fun _ l => l.
Definition range_reversed : RangeOrder := fun _ l => reverse l.

(** [uuid.UUID.String]: xxxxxxxx-xxxx-xxxx-xxxx-xxxxxxxxxxxx in lower-case
    hexadecimal. *)
Definition hex_digit (n : N) : Ascii.ascii :=
  default Ascii.zero (String.get (N.to_nat n) "0123456789abcdef").

Definition hex_byte (b : byte) (rest : string) : string :=
  String (hex_digit (Byte.to_N b / 16))
    (String (hex_digit (Byte.to_N b mod 16)) rest).

Definition hex_encode (bs : list byte) : string := foldr hex_byte "" bs.

Definition uuid_String (u : UUID) : string :=
  hex_encode (take 4 u) +:+ "-" +:+
  hex_encode (take 2 (drop 4 u)) +:+ "-" +:+
  hex_encode (take 2 (drop 6 u)) +:+ "-" +:+
  hex_encode (take 2 (drop 8 u)) +:+ "-" +:+
  hex_encode (drop 10 u).

(** The semantic-version library: [semver.NewVersion] parses a version
    string, [Version.LessThan] compares two versions. *)
Module semver.

Class Semver := {
  Version : Type;
  NewVersion : string -> option Version;
  Version_0_0_0 : Version;  (* [semver.New("0.0.0")] *)
  LessThan : Version -> Version -> bool
}.

(** [LessThan] is the strict part of a total preorder. *)
Class SemverOrder (SV : Semver) : Prop := {
  LessThan_asym a b : LessThan a b = true -> LessThan b a = false;
  LessThan_negtrans a b c :
    LessThan a b = false -> LessThan b c = false -> LessThan a c = false
}.

End semver.

(** [encoding/json], as far as the sources use it: [json.Marshal(v)] of a
    value of type [A], and [json.Unmarshal(data, &out)] into a variable of
    type [B] that holds [out] before the call.  A [json.RawMessage] is the
    text of a document. *)
Definition RawMessage := string.
Class Marshal (A : Type) := json_Marshal : A -> option RawMessage.
Class Unmarshal (B : Type) := json_Unmarshal : RawMessage -> B -> option B.

(** [uuid.Parse], of the uuid library. *)
Class UUIDParse := uuid_Parse : string -> option UUID.

(** [sort.Strings]: the slice in ascending order, strings compared byte by
    byte.  Two strings that compare equal are the same string, so every
    sorting algorithm returns the same slice; it is written here with the
    insertion sort above. *)
Definition sort_Strings (names : list string) : list string :=
  sort_Slice String.ltb names.

(** The order of [sort.Strings], strict. *)
Definition string_lt (a b : string) : Prop := String.ltb a b = true.

(** ** internal/common/states.go: the JSON form of the states *)
Module states.
Import common.

(** [encoding/json] on a Go string: [json.Marshal] of a string, and
    [json.Unmarshal] into a string variable, [None] if it fails. *)
Class JSONString := {
  json_quote : string -> RawMessage;
  json_unquote : RawMessage -> option string
}.

(** [for n, str := range getStateMapping() { if str == stringInput
    { return n, nil } }], from index [n] on. *)
Fixpoint find_state (stringInput : string) (mapping : list string) (n : Z)
  : option Z :=
  match mapping with
  | [] => None
  | str :: rest =>
      if decide (str = stringInput) then Some n
      else find_state stringInput rest (n + 1)
  end.

(** [func unmarshalStateHelper(data []byte, mapping []string) (int,
    error)]; the loop runs over [getStateMapping()], not over [mapping].
    [CustomJsonConversionError], declared outside the files at hand, is
    carried as an [errorString] with its message. *)
Definition unmarshalStateHelper `{JSONString} (data : RawMessage)
    (mapping : list string) : Z * option error :=
  match json_unquote data with
  | None => (0, Some (errorString "json: cannot unmarshal into a string"))
  | Some stringInput =>
      match find_state stringInput getStateMapping 0 with
      | Some n => (n, None)
      | None =>
          (0, Some (errorString
                      ("invalid image build status:" +:+ stringInput)))
      end
  end.

(** [func (ibs *ImageBuildState) UnmarshalJSON(data []byte) error] and
    the method of the same body on [ComposeState]; [ibs] is the state
    the receiver points to, returned as the call leaves it. *)
Definition UnmarshalJSON `{JSONString} (ibs : Z) (data : RawMessage)
  : Z * option error :=
  let '(val, err) := unmarshalStateHelper data getStateMapping in
  match err with
  | Some err => (ibs, Some err)
  | None => (val, None)
  end.

(** [func (ibs ImageBuildState) MarshalJSON() ([]byte, error)] and the
    method of the same body on [ComposeState]. *)
Definition MarshalJSON `{JSONString} (ibs : Z) : go RawMessage :=
  let* name := index getStateMapping ibs in
  Ret (json_quote name).

(** One of the four states. *)
Definition known (s : Z) : Prop := 0 <= s < 4.

End states.

(** ** internal/store/store.go *)
Module store.
Import common blueprint compose.

Record SourceConfig := {
  SourceName : string;
  SourceType : string;
  URL : string;
  CheckGPG : bool;
  CheckSSL : bool;
  System : bool
}.

(** The [Store] struct.  A name absent from [BlueprintsChanges] reads as
    a nil inner map, and storing into a nil map panics.  [files] is not a
    field of the Go struct: it is the part of the output tree under
    [stateDir] that the store writes, each [result.json] with the result
    encoded into it. *)
Record Store := {
  Blueprints : gmap string Blueprint;
  Workspace : gmap string Blueprint;
  Composes : gmap UUID Compose;
  Sources : gmap string SourceConfig;
  BlueprintsChanges : gmap string (gmap string Change);
  BlueprintsCommits : gmap string (list string);
  stateDir : option string;
  files : gmap string ComposeResult
}.

(** [var s Store] *)
Definition Store_zero : Store :=
  {| Blueprints := ∅; Workspace := ∅; Composes := ∅; Sources := ∅;
     BlueprintsChanges := ∅; BlueprintsCommits := ∅; stateDir := None;
     files := ∅ |}.

(** What the operating system, the clock, the run time and the state
    database (package jsondb) answer during one call.
    Modelled from the spec: the state database keeps the whole store as
    one document, [Read] yields the stored document if there is one and
    fails on unparseable content, [Write] replaces it atomically or
    fails.  [db_Read] is the store after [s.db.Read(StoreDBName, &s)] on
    the zero store, [None] if the read fails. *)
Record Env := {
  os_Mkdir_ok : bool;
  os_Create_ok : bool;
  db_Read : option Store;
  db_Write_ok : bool;
  time_Now : Time;
  shuffle : RangeOrder
}.

Definition set_Composes (m : gmap UUID Compose) (s : Store) : Store :=
  {| Blueprints := Blueprints s; Workspace := Workspace s; Composes := m;
     Sources := Sources s; BlueprintsChanges := BlueprintsChanges s;
     BlueprintsCommits := BlueprintsCommits s; stateDir := stateDir s;
     files := files s |}.

Definition set_BlueprintsChanges (m : gmap string (gmap string Change))
    (s : Store) : Store :=
  {| Blueprints := Blueprints s; Workspace := Workspace s;
     Composes := Composes s; Sources := Sources s; BlueprintsChanges := m;
     BlueprintsCommits := BlueprintsCommits s; stateDir := stateDir s;
     files := files s |}.

Definition set_files (m : gmap string ComposeResult) (s : Store) : Store :=
  {| Blueprints := Blueprints s; Workspace := Workspace s;
     Composes := Composes s; Sources := Sources s;
     BlueprintsChanges := BlueprintsChanges s;
     BlueprintsCommits := BlueprintsCommits s; stateDir := stateDir s;
     files := m |}.

(** [s.BlueprintsChanges[name]] and [s.BlueprintsCommits[name]]: a missing
    key reads as the nil map, the nil slice. *)
Definition changes_of (s : Store) (name : string) : gmap string Change :=
  default ∅ (BlueprintsChanges s !! name).

Definition commits_of (s : Store) (name : string) : list string :=
  default [] (BlueprintsCommits s !! name).

(** [s.BlueprintsChanges[name][commit]]: a missing key reads as the zero
    [Change]. *)
Definition change_of (s : Store) (name commit : string) : Change :=
  default Change_zero (changes_of s name !! commit).

(** *** New *)

(** The case [common.IBRunning, common.IBWaiting] of the loop over the
    image builds of a loaded compose. *)
Definition fail_unfinished (imgBuild : ImageBuild) : ImageBuild :=
  if decide (QueueStatus imgBuild = IBRunning \/
             QueueStatus imgBuild = IBWaiting)
  then set_QueueStatus IBFailed imgBuild
  else imgBuild.

(** [for composeID, compose := range s.Composes { ... }], over the
    entries in the order the run time visits them. *)
Fixpoint fail_loaded_composes (visit : list (UUID * Compose))
    (composes : gmap UUID Compose) : go (gmap UUID Compose) :=
  match visit with
  | [] => Ret composes
  | (composeID, compose) :: visit' =>
      if decide (length (ImageBuilds compose) = 0%nat) then
        Panic "the was a compose with zero image builds, that is forbidden"
      else
        fail_loaded_composes visit'
          (<[composeID :=
               {| Compose_Blueprint := Compose_Blueprint compose;
                  ImageBuilds := fail_unfinished <$> ImageBuilds compose |}]>
             composes)
  end.

Section with_semver.
Context {SV : semver.Semver}.

Definition version_or_zero (v : string) : semver.Version :=
  default semver.Version_0_0_0 (semver.NewVersion v).

(** The [less] function handed to [sort.Slice] in [New]. *)
Definition change_less (ci cj : Change) : bool :=
  if decide (Timestamp ci = Timestamp cj) then
    semver.LessThan (version_or_zero (Version (Change_Blueprint ci)))
                    (version_or_zero (Version (Change_Blueprint cj)))
  else String.ltb (Timestamp ci) (Timestamp cj).

(** The body of [if len(s.BlueprintsChanges[name]) !=
    len(s.BlueprintsCommits[name])]: the commit list rebuilt from the
    changes of one blueprint. *)
Definition rebuild_commits (shuffle : RangeOrder)
    (changes_by_commit : gmap string Change) : list string :=
  let changes :=
    (fun commit => default Change_zero (changes_by_commit !! commit))
      <$> shuffle _ (map_to_list changes_by_commit).*1 in
  Commit <$> sort_Slice change_less changes.

(** [for name := range s.BlueprintsChanges { ... }] *)
Fixpoint populate_commits (shuffle : RangeOrder) (visit : list string)
    (changes : gmap string (gmap string Change))
    (commits : gmap string (list string)) : gmap string (list string) :=
  match visit with
  | [] => commits
  | name :: visit' =>
      populate_commits shuffle visit' changes
        (if decide (size (default ∅ (changes !! name)) ≠
                    length (default [] (commits !! name)))
         then <[name := rebuild_commits shuffle
                           (default ∅ (changes !! name))]> commits
         else commits)
  end.

(** [func New(stateDir *string) *Store] *)
Definition New (e : Env) (stateDir : option string) : go Store :=
  let* s :=
    match stateDir with
    | Some _ =>
        if os_Mkdir_ok e then
          match db_Read e with
          | Some s => Ret s
          | None => Fatal "cannot read state"
          end
        else Fatal "cannot create output directory"
    | None => Ret Store_zero
    end in
  let* composes :=
    fail_loaded_composes (shuffle e _ (map_to_list (Composes s)))
                         (Composes s) in
  Ret {| Blueprints := Blueprints s;
         Workspace := Workspace s;
         Composes := composes;
         Sources := Sources s;
         BlueprintsChanges := BlueprintsChanges s;
         BlueprintsCommits :=
           populate_commits (shuffle e)
             (shuffle e _ (map_to_list (BlueprintsChanges s)).*1)
             (BlueprintsChanges s) (BlueprintsCommits s);
         stateDir := stateDir;
         files := files s |}.

End with_semver.

(** *** Mutations *)

(** [func (s *Store) change(f func() error) error]: run [f] under the
    lock, then write the state document when a state directory is
    configured; a failed write panics. *)
Definition change (e : Env) (f : Store -> go (Store * option error))
    (s : Store) : go (Store * option error) :=
  let* r := f s in
  let '(s', result) := r in
  match stateDir s' with
  | Some _ =>
      if db_Write_ok e then Ret (s', result)
      else Panic "cannot write state"
  | None => Ret (s', result)
  end.

(** The state document is written, or there is none to write. *)
Definition persists (e : Env) (s : Store) : Prop :=
  stateDir s = None \/ db_Write_ok e = true.

(** *** Blueprint history *)

(** [func (s *Store) GetBlueprintChange(name, commit string)],
    which returns a [blueprint.Change] pointer and an error *)
Definition GetBlueprintChange (s : Store) (name commit : string)
  : option Change * option error :=
  match BlueprintsChanges s !! name with
  | None => (None, Some (errorString "Unknown blueprint"))
  | Some changes =>
      match changes !! commit with
      | None => (None, Some (errorString "Unknown commit"))
      | Some change => (Some change, None)
      end
  end.

(** [func (s *Store) GetBlueprintChanges(name string) []blueprint.Change] *)
Definition GetBlueprintChanges (s : Store) (name : string) : list Change :=
  change_of s name <$> commits_of s name.

(** [func (s *Store) DeleteBlueprint(name string) error] *)
Definition DeleteBlueprint (e : Env) (name : string) (s : Store)
  : go (Store * option error) :=
  change e (fun s =>
    let s1 :=
      {| Blueprints := Blueprints s; Workspace := delete name (Workspace s);
         Composes := Composes s; Sources := Sources s;
         BlueprintsChanges := BlueprintsChanges s;
         BlueprintsCommits := BlueprintsCommits s; stateDir := stateDir s;
         files := files s |} in
    match Blueprints s1 !! name with
    | None => Ret (s1, Some (errorString ("Unknown blueprint: " +:+ name)))
    | Some _ =>
        Ret ({| Blueprints := delete name (Blueprints s1);
                Workspace := Workspace s1;
                Composes := Composes s1; Sources := Sources s1;
                BlueprintsChanges := BlueprintsChanges s1;
                BlueprintsCommits := BlueprintsCommits s1;
                stateDir := stateDir s1; files := files s1 |}, None)
    end) s.

(** A Go [int] after [++]. *)
Definition int_incr (n : Z) : Z := (n + 1 + 2 ^ 63) `mod` 2 ^ 64 - 2 ^ 63.

(** The loop of [TagBlueprint] that looks for the latest revision:
    [for i := len(commits) - 1; i >= 0; i-- { ... }], over the commits
    from the last to the first.  [change] is the variable of that name:
    it holds the change read in the last iteration that ran.  [revision]
    is still 0 when the comparison is made. *)
Fixpoint latest_revision (changes : gmap string Change)
    (commits_backwards : list string) (change : Change) : Z * Change :=
  match commits_backwards with
  | [] => (0, change)
  | commit :: earlier =>
      let change := default Change_zero (changes !! commit) in
      match Revision change with
      | Some r =>
          if decide (r > 0) then (r, change)
          else latest_revision changes earlier change
      | None => latest_revision changes earlier change
      end
  end.

Definition set_Revision (r : option Z) (c : Change) : Change :=
  {| Commit := Commit c; Message := Message c; Timestamp := Timestamp c;
     Change_Blueprint := Change_Blueprint c; Revision := r |}.

(** [func (s *Store) TagBlueprint(name string) error] *)
Definition TagBlueprint (e : Env) (name : string) (s : Store)
  : go (Store * option error) :=
  change e (fun s =>
    match Blueprints s !! name with
    | None => Ret (s, Some (errorString "Unknown blueprint"))
    | Some _ =>
        match last (commits_of s name) with
        | None => Ret (s, Some (errorString "No commits for blueprint"))
        | Some latest =>
            match Revision (change_of s name latest) with
            | Some _ => Ret (s, None)
            | None =>
                let '(revision, change) :=
                  latest_revision (changes_of s name)
                    (reverse (commits_of s name)) Change_zero in
                let revision := int_incr revision in
                let change := set_Revision (Some revision) change in
                match BlueprintsChanges s !! name with
                | None => Panic "assignment to entry in nil map"
                | Some changes =>
                    Ret (set_BlueprintsChanges
                           (<[name := <[latest := change]> changes]>
                              (BlueprintsChanges s)) s, None)
                end
            end
        end
    end) s.

(** *** Composes *)

(** [func (s *Store) getImageBuildDirectory(composeID uuid.UUID,
    imageBuildID int) string], with [*s.stateDir] passed in. *)
Definition getComposeDirectory (dir : string) (composeID : UUID) : string :=
  dir +:+ "/outputs/" +:+ uuid_String composeID.

Definition getImageBuildDirectory (dir : string) (composeID : UUID)
    (imageBuildID : Z) : string :=
  getComposeDirectory dir composeID +:+ "/" +:+ pretty imageBuildID.

(** [func (s *Store) UpdateImageBuildInCompose(composeID uuid.UUID,
    imageBuildID int, status common.ImageBuildState,
    result *common.ComposeResult) error] *)
Definition UpdateImageBuildInCompose (e : Env) (composeID : UUID)
    (imageBuildID : Z) (status : ImageBuildState)
    (result : option ComposeResult) (s : Store)
  : go (Store * option error) :=
  change e (fun s =>
    (* Check that the compose exists *)
    match Composes s !! composeID with
    | None => Ret (s, Some (NotFoundError "compose does not exist"))
    | Some currentCompose =>
        (* Check that the image build was waiting *)
        let* imageBuild := index (ImageBuilds currentCompose) imageBuildID in
        if decide (QueueStatus imageBuild = IBWaiting) then
          Ret (s, Some (NotPendingError "compose has not been popped"))
        else
          (* write result into file *)
          let written :=
            match stateDir s, result with
            | Some dir, Some r =>
                if os_Create_ok e then
                  inl (set_files
                         (<[getImageBuildDirectory dir composeID imageBuildID
                              +:+ "/result.json" := r]> (files s)) s)
                else
                  inr (errorString
                         ("cannot open result.json for job " +:+
                          uuid_String composeID))
            | _, _ => inl s
            end in
          match written with
          | inr err => Ret (s, Some err)
          | inl s =>
              (* Update the image build state including all target states *)
              let* updated :=
                UpdateState currentCompose imageBuildID status in
              let '(currentCompose, err) := updated in
              match err with
              | Some err =>
                  Ret (s, Some (InvalidRequestError
                         ("invalid state transition: " +:+ error_Error err)))
              | None =>
                  (* In case the image build is done, store the time *)
                  let* currentCompose :=
                    if decide (status = IBFinished \/ status = IBFailed) then
                      let* imageBuild :=
                        index (ImageBuilds currentCompose) imageBuildID in
                      Ret (set_ImageBuild currentCompose imageBuildID
                             (set_JobFinished (time_Now e) imageBuild))
                    else Ret currentCompose in
                  Ret (set_Composes
                         (<[composeID := currentCompose]> (Composes s)) s,
                       None)
              end
          end
    end) s.

Definition set_Workspace (m : gmap string Blueprint) (s : Store) : Store :=
  {| Blueprints := Blueprints s; Workspace := m; Composes := Composes s;
     Sources := Sources s; BlueprintsChanges := BlueprintsChanges s;
     BlueprintsCommits := BlueprintsCommits s; stateDir := stateDir s;
     files := files s |}.

Definition set_Blueprints (m : gmap string Blueprint) (s : Store) : Store :=
  {| Blueprints := m; Workspace := Workspace s; Composes := Composes s;
     Sources := Sources s; BlueprintsChanges := BlueprintsChanges s;
     BlueprintsCommits := BlueprintsCommits s; stateDir := stateDir s;
     files := files s |}.

Definition set_BlueprintsCommits (m : gmap string (list string)) (s : Store)
  : Store :=
  {| Blueprints := Blueprints s; Workspace := Workspace s;
     Composes := Composes s; Sources := Sources s;
     BlueprintsChanges := BlueprintsChanges s; BlueprintsCommits := m;
     stateDir := stateDir s; files := files s |}.

Definition set_Sources (m : gmap string SourceConfig) (s : Store) : Store :=
  {| Blueprints := Blueprints s; Workspace := Workspace s;
     Composes := Composes s; Sources := m;
     BlueprintsChanges := BlueprintsChanges s;
     BlueprintsCommits := BlueprintsCommits s; stateDir := stateDir s;
     files := files s |}.

(** *** Blueprints *)

(** [func (s *Store) ListBlueprints() []string]; [shuffle] is the order
    in which [range] visits the map. *)
Definition ListBlueprints (shuffle : RangeOrder) (s : Store) : list string :=
  sort_Strings (shuffle _ (map_to_list (Blueprints s)).*1).

(** [func (s *Store) GetBlueprint(name string)], which returns a
    [blueprint.Blueprint] pointer and whether it is the workspace copy. *)
Definition GetBlueprint (s : Store) (name : string)
  : option Blueprint * bool :=
  match Workspace s !! name with
  | Some bp => (Some bp, true)
  | None =>
      match Blueprints s !! name with
      | Some bp => (Some bp, false)
      | None => (None, false)
      end
  end.

(** [func (s *Store) GetBlueprintCommitted(name string)], which returns a
    [blueprint.Blueprint] pointer. *)
Definition GetBlueprintCommitted (s : Store) (name : string)
  : option Blueprint :=
  Blueprints s !! name.

(** [func (s *Store) PushBlueprint(bp blueprint.Blueprint, commitMsg
    string) error].  [randomSHA1String] is what the function of that name
    returns, [timestamp] is [time.Now().Format("2006-01-02T15:04:05Z")]. *)
Definition PushBlueprint `{Methods} (e : Env)
    (randomSHA1String : string + error) (timestamp : string)
    (bp : Blueprint) (commitMsg : string) (s : Store)
  : go (Store * option error) :=
  change e (fun s =>
    match randomSHA1String with
    | inr err => Ret (s, Some err)
    | inl commit =>
        (* Make sure the blueprint has default values and that the
           version is valid *)
        match Initialize bp with
        | inr err => Ret (s, Some err)
        | inl bp =>
            let change :=
              {| Commit := commit; Message := commitMsg;
                 Timestamp := timestamp; Change_Blueprint := bp;
                 Revision := None |} in
            let s := set_Workspace (delete (Name bp) (Workspace s)) s in
            let s :=
              set_BlueprintsChanges
                (<[Name bp := <[commit := change]> (changes_of s (Name bp))]>
                   (BlueprintsChanges s)) s in
            (* Keep track of the order of the commits *)
            let s :=
              set_BlueprintsCommits
                (<[Name bp := commits_of s (Name bp) ++ [commit]]>
                   (BlueprintsCommits s)) s in
            let bp :=
              match Blueprints s !! Name bp with
              | Some old =>
                  if decide (Version bp = "" \/ Version bp = Version old)
                  then BumpVersion bp (Version old)
                  else bp
              | None => bp
              end in
            Ret (set_Blueprints (<[Name bp := bp]> (Blueprints s)) s, None)
        end
    end) s.

(** [func (s *Store) PushBlueprintToWorkspace(bp blueprint.Blueprint)
    error] *)
Definition PushBlueprintToWorkspace `{Methods} (e : Env) (bp : Blueprint)
    (s : Store) : go (Store * option error) :=
  change e (fun s =>
    match Initialize bp with
    | inr err => Ret (s, Some err)
    | inl bp => Ret (set_Workspace (<[Name bp := bp]> (Workspace s)) s, None)
    end) s.

(** [func (s *Store) DeleteBlueprintFromWorkspace(name string) error] *)
Definition DeleteBlueprintFromWorkspace (e : Env) (name : string) (s : Store)
  : go (Store * option error) :=
  change e (fun s =>
    match Workspace s !! name with
    | None => Ret (s, Some (errorString ("Unknown blueprint: " +:+ name)))
    | Some _ => Ret (set_Workspace (delete name (Workspace s)) s, None)
    end) s.

(** *** Composes, continued *)

(** [func (s *Store) GetCompose(id uuid.UUID) (compose.Compose, bool)];
    [None] stands for the zero compose and [false]. *)
Definition GetCompose (s : Store) (id : UUID) : option Compose :=
  Composes s !! id.

(** What [GetImageBuildResult] hands out to read from: the buffer holding
    ["{}"], or the open [result.json], which holds the result that was
    encoded into it. *)
Inductive ResultReader :=
| EmptyObject
| ResultFile (result : ComposeResult).

(** [func (s *Store) GetImageBuildResult(composeId uuid.UUID,
    imageBuildId int) (io.ReadCloser, error)]; [os.Open] fails on a file
    that is not there, and where [os_Open_ok] says so. *)
Definition GetImageBuildResult (os_Open_ok : bool) (s : Store)
    (composeId : UUID) (imageBuildId : Z)
  : option ResultReader * option error :=
  match stateDir s with
  | None => (Some EmptyObject, None)
  | Some dir =>
      let path := getImageBuildDirectory dir composeId imageBuildId
                  +:+ "/result.json" in
      match files s !! path with
      | Some result =>
          if os_Open_ok then (Some (ResultFile result), None)
          else (None, Some (errorString ("open " +:+ path)))
      | None => (None, Some (errorString ("open " +:+ path)))
      end
  end.

(** The image build that [PushCompose] stores: every field that the
    composite literal leaves out has its zero value, [QueueStatus] among
    them, and the zero [ImageBuildState] is [IBWaiting]. *)
Definition pushed_build (manifest : option string) (imageTypeCommon : Z)
    (targets : list (option target.Target)) (now : Time) (size : Z)
    (jobId : UUID) : ImageBuild :=
  {| Id := 0; ImageType := imageTypeCommon; Manifest := manifest;
     Targets := targets; JobCreated := now; JobStarted := 0;
     JobFinished := 0; Size := size; JobId := jobId;
     QueueStatus := IBWaiting |}.

(** [func (s *Store) PushCompose(composeID uuid.UUID, manifest
    *osbuild.Manifest, imageType distro.ImageType, bp *blueprint.Blueprint,
    size uint64, targets []*target.Target, jobId uuid.UUID) error].
    [imageTypeCommon] is what
    [common.ImageTypeFromCompatString(imageType.Name())] returns, [None]
    if the type does not exist; [os_Mkdir_ok] answers for [os.MkdirAll].
    The error of [s.change] is dropped. *)
Definition PushCompose (e : Env) (composeID : UUID)
    (manifest : option string) (imageTypeCommon : option Z)
    (bp : option Blueprint) (size : Z)
    (targets : list (option target.Target)) (jobId : UUID) (s : Store)
  : go (Store * option error) :=
  match GetCompose s composeID with
  | Some _ => Panic "a compose with this id already exists"
  | None =>
      match imageTypeCommon with
      | None => Panic "fatal error, compose type does not exist"
      | Some imageTypeCommon =>
          if decide (is_Some (stateDir s) /\ os_Mkdir_ok e = false) then
            Ret (s, Some (errorString
                            ("cannot create output directory for job "
                             +:+ uuid_String composeID)))
          else
            let* r :=
              change e (fun s =>
                Ret (set_Composes
                       (<[composeID :=
                            {| Compose_Blueprint := bp;
                               ImageBuilds :=
                                 [pushed_build manifest imageTypeCommon
                                    targets (time_Now e) size jobId] |}]>
                          (Composes s)) s, None)) s in
            Ret (r.1, None)
      end
  end.

(** [func (s *Store) PushTestCompose(composeID uuid.UUID, manifest
    *osbuild.Manifest, imageType distro.ImageType, bp *blueprint.Blueprint,
    size uint64, targets []*target.Target, testSuccess bool) error].
    [e] answers while the compose is stored, [started] is the second
    [time.Now()] of the composite literal, [e'] answers during the call
    of [UpdateImageBuildInCompose]. *)
Definition PushTestCompose (e : Env) (started : Time) (e' : Env)
    (composeID : UUID) (manifest : option string)
    (imageTypeCommon : option Z) (bp : option Blueprint) (size : Z)
    (targets : list (option target.Target)) (testSuccess : bool) (s : Store)
  : go (Store * option error) :=
  match imageTypeCommon with
  | None => Panic "fatal error, compose type does not exist"
  | Some imageTypeCommon =>
      if decide (is_Some (stateDir s) /\ os_Mkdir_ok e = false) then
        Ret (s, Some (errorString
                        ("cannot create output directory for job "
                         +:+ uuid_String composeID)))
      else
        let* r :=
          change e (fun s =>
            Ret (set_Composes
                   (<[composeID :=
                        {| Compose_Blueprint := bp;
                           ImageBuilds :=
                             [ {| Id := 0; ImageType := imageTypeCommon;
                                  Manifest := manifest; Targets := targets;
                                  JobCreated := time_Now e;
                                  JobStarted := started; JobFinished := 0;
                                  Size := size; JobId := uuid_Nil;
                                  QueueStatus := IBRunning |} ] |}]>
                      (Composes s)) s, None)) s in
        let s := r.1 in
        let status := if testSuccess then IBFinished else IBFailed in
        let result := {| Success := testSuccess; Output := "" |} in
        (* Instead of starting the job, immediately set a final status *)
        UpdateImageBuildInCompose e' composeID 0 status (Some result) s
  end.

(** [func (s *Store) DeleteCompose(id uuid.UUID) error].  [os_RemoveAll]
    is what [os.RemoveAll] does to the files below a directory and the
    error it returns. *)
Definition DeleteCompose (e : Env)
    (os_RemoveAll : string -> gmap string ComposeResult ->
                    gmap string ComposeResult * option error)
    (id : UUID) (s : Store) : go (Store * option error) :=
  change e (fun s =>
    match Composes s !! id with
    | None => Ret (s, Some (NotFoundError ""))
    | Some _ =>
        let s := set_Composes (delete id (Composes s)) s in
        match stateDir s with
        | Some dir =>
            let r := os_RemoveAll (getComposeDirectory dir id) (files s) in
            Ret (set_files r.1 s, r.2)
        | None => Ret (s, None)
        end
    end) s.

(** *** Sources *)

(** [func (s *Store) PushSource(source SourceConfig)] *)
Definition PushSource (e : Env) (source : SourceConfig) (s : Store)
  : go Store :=
  let* r :=
    change e (fun s =>
      Ret (set_Sources (<[SourceName source := source]> (Sources s)) s,
           None)) s in
  Ret r.1.

(** [func (s *Store) DeleteSource(name string)] *)
Definition DeleteSource (e : Env) (name : string) (s : Store) : go Store :=
  let* r :=
    change e (fun s =>
      Ret (set_Sources (delete name (Sources s)) s, None)) s in
  Ret r.1.

(** [func (s *Store) ListSources() []string] *)
Definition ListSources (shuffle : RangeOrder) (s : Store) : list string :=
  sort_Strings (shuffle _ (map_to_list (Sources s)).*1).

(** [func (s *Store) GetSource(name string) *SourceConfig] *)
Definition GetSource (s : Store) (name : string) : option SourceConfig :=
  Sources s !! name.

(** Modelled from the spec: [rpmmd.RepoConfig] is declared outside the
    files at hand; these are the fields that the store reads and
    writes. *)
Record RepoConfig := {
  RepoId : string;
  BaseURL : string;
  Metalink : string;
  MirrorList : string;
  IgnoreSSL : bool
}.

(** [func NewSourceConfig(repo rpmmd.RepoConfig, system bool)
    SourceConfig] *)
Definition NewSourceConfig (repo : RepoConfig) (system : bool)
  : SourceConfig :=
  let sc url type :=
    {| SourceName := RepoId repo; SourceType := type; URL := url;
       CheckGPG := true; CheckSSL := negb (IgnoreSSL repo);
       System := system |} in
  if decide (BaseURL repo ≠ "") then sc (BaseURL repo) "yum-baseurl"
  else if decide (Metalink repo ≠ "") then sc (Metalink repo) "yum-metalink"
  else if decide (MirrorList repo ≠ "") then
    sc (MirrorList repo) "yum-mirrorlist"
  else sc "" "".

(** [func (s *SourceConfig) RepoConfig() rpmmd.RepoConfig] *)
Definition SourceConfig_RepoConfig (s : SourceConfig) : RepoConfig :=
  let repo base meta mirror :=
    {| RepoId := SourceName s; BaseURL := base; Metalink := meta;
       MirrorList := mirror; IgnoreSSL := negb (CheckSSL s) |} in
  if decide (SourceType s = "yum-baseurl") then repo (URL s) "" ""
  else if decide (SourceType s = "yum-metalink") then repo "" (URL s) ""
  else if decide (SourceType s = "yum-mirrorlist") then repo "" "" (URL s)
  else repo "" "" "".

(** *** What the properties below speak of *)

(** The store once [result.json] is written, if it is to be written. *)
Definition with_result_file (e : Env) (composeID : UUID) (imageBuildID : Z)
    (result : option ComposeResult) (s : Store) : Store :=
  match stateDir s, result with
  | Some dir, Some r =>
      set_files (<[getImageBuildDirectory dir composeID imageBuildID
                     +:+ "/result.json" := r]> (files s)) s
  | _, _ => s
  end.

(** [result.json] need not be created, or it can be. *)
Definition result_file_ok (e : Env) (result : option ComposeResult)
    (s : Store) : Prop :=
  stateDir s = None \/ result = None \/ os_Create_ok e = true.

(** [currentCompose.ImageBuilds[imageBuildID].JobFinished = time.Now()]
    when the new status is final. *)
Definition stamp_finished (e : Env) (imageBuildID : Z)
    (status : ImageBuildState) (c : Compose) : Compose :=
  if decide (status = IBFinished \/ status = IBFailed) then
    match ImageBuilds c !! Z.to_nat imageBuildID with
    | Some ib => set_ImageBuild c imageBuildID
                   (set_JobFinished (time_Now e) ib)
    | None => c
    end
  else c.

(** [s.BlueprintsChanges[name][commit].Revision] *)
Definition revision_of (changes : gmap string Change) (commit : string)
  : option Z :=
  Revision (default Change_zero (changes !! commit)).

(** The revisions that the commits of a list carry, in the order of the
    list. *)
Definition revisions (changes : gmap string Change) (commits : list string)
  : list Z :=
  omap (revision_of changes) commits.

(** The words of the specification: the maximum of the existing revisions
    (0 if there is none, so that the first tag is 1). *)
Definition spec_max_revision (changes : gmap string Change)
    (commits : list string) : Z :=
  foldr Z.max 0 (revisions changes commits).

Definition tagged (changes : gmap string Change) (commit : string) : Prop :=
  exists r, revision_of changes commit = Some r /\ r > 0.

(** [r] is the revision of the last commit of the list that carries a
    positive one, 0 if no commit does. *)
Definition last_revision (changes : gmap string Change)
    (commits : list string) (r : Z) : Prop :=
  (r = 0 /\ forall c, c ∈ commits -> ~ tagged changes c) \/
  (r > 0 /\ exists earlier c later,
      commits = earlier ++ c :: later /\
      revision_of changes c = Some r /\
      forall c', c' ∈ later -> ~ tagged changes c').

(** A compose as [New] leaves it: the image builds that waited or ran
    have failed. *)
Definition failed_on_load (c : Compose) : Compose :=
  {| Compose_Blueprint := Compose_Blueprint c;
     ImageBuilds := fail_unfinished <$> ImageBuilds c |}.

Section with_semver_spec.
Context {SV : semver.Semver}.

(** The words of the specification: a version that fails to parse compares
    as 0.0.0. *)
Definition spec_version (c : Change) : semver.Version :=
  match semver.NewVersion (Version (Change_Blueprint c)) with
  | Some v => v
  | None => semver.Version_0_0_0
  end.

(** The words of the specification: [c1] is sorted before [c2], or level
    with it, when its timestamp is smaller, or the timestamps are equal and
    its version is not greater. *)
Definition spec_not_later (c1 c2 : Change) : Prop :=
  String.ltb (Timestamp c1) (Timestamp c2) = true \/
  (Timestamp c1 = Timestamp c2 /\
   semver.LessThan (spec_version c2) (spec_version c1) = false).

End with_semver_spec.

End store.

(** ** internal/jobqueue *)
Module jobqueue.

(** Modelled from the spec: package jobqueue declares the queue interface
    and its status type outside the files at hand;
    [status ∈ {Pending, Running, Finished}], the zero value being
    [JobPending]. *)
Inductive JobStatus := JobPending | JobRunning | JobFinished.

#[global] Instance JobStatus_eq_dec : EqDecision JobStatus.
Proof. solve_decision. Defined.

(** What [JobStatus] returns beside the error. *)
Record StatusReport := {
  status : JobStatus;
  queued : Time;
  started : Time;
  finished : Time
}.

Definition StatusReport_zero : StatusReport :=
  {| status := JobPending; queued := 0; started := 0; finished := 0 |}.

(** Modelled from the spec: the methods of [jobqueue.JobQueue] that the
    worker server calls on its queue.  [R] is the type of the variable
    that [result] points to. *)
Class JobQueue (Q : Type) := {
  queue_JobStatus {R} `{Unmarshal R} :
    Q -> UUID -> R -> R * StatusReport * option error
}.

(** Modelled from the spec: the methods of [jobqueue.JobQueue] that
    change the queue.  [E] is what the environment answers during the
    call, the queue after the call is returned beside the results. *)
Class JobQueueOps (Q E : Type) := {
  queue_Enqueue {A} `{Marshal A} :
    E -> Q -> string -> A -> list UUID -> go (Q * (UUID * option error));
  queue_Dequeue {B} `{Unmarshal B} :
    E -> Q -> list string -> B -> go (Q * B * (UUID * option error));
  queue_FinishJob {R} `{Marshal R} :
    E -> Q -> UUID -> R -> go (Q * option error)
}.

End jobqueue.

(** ** internal/jobqueue/fsjobqueue *)
Module fsjobqueue.
Import jobqueue.

(** The on-disk job struct.  A [json.RawMessage] stands for the document
    it holds. *)
Record job := {
  Id : UUID;
  JobType : string;
  Args : RawMessage;
  Dependencies : list UUID;
  Result : RawMessage;
  Status : JobStatus;
  QueuedAt : Time;
  StartedAt : Time;
  FinishedAt : Time
}.

(** Modelled from the spec: package jsondb maps a key to the file
    [<dir>/<key>.json]; [Read] of a missing key reports that it does not
    exist, unparseable content is an error, [Write] replaces the document
    atomically or fails and leaves it as it was. *)
Inductive document := Doc (j : job) | Unparseable.

(** The queue.  A channel of job ids is the list of ids waiting in it,
    the oldest first; every channel has capacity 100. *)
Record fsJobQueue := {
  db : gmap string document;
  pending : gmap string (list UUID);
  dependants : gmap UUID (list UUID)
}.

Definition set_db (m : gmap string document) (q : fsJobQueue) : fsJobQueue :=
  {| db := m; pending := pending q; dependants := dependants q |}.
Definition set_pending (m : gmap string (list UUID)) (q : fsJobQueue)
  : fsJobQueue :=
  {| db := db q; pending := m; dependants := dependants q |}.
Definition set_dependants (m : gmap UUID (list UUID)) (q : fsJobQueue)
  : fsJobQueue :=
  {| db := db q; pending := pending q; dependants := m |}.

(** The outcome of [reflect.Select] in [Dequeue], decided by the run time
    among the cases that can proceed. *)
Record Env := {
  uuid_New : UUID;
  time_Now : Time;
  db_Write_ok : bool;
  shuffle : RangeOrder;
  ctx_Err : option error;   (* [ctx.Err()] on entry *)
  ctx_Done : option error;  (* [ctx.Err()] once [ctx.Done()] is closed
                               while [Dequeue] waits, if it ever is *)
  choose : nat              (* which of the ready cases is selected *)
}.

Definition channel_capacity : nat := 100.

(** [func (q *fsJobQueue) readJob(id uuid.UUID)], which returns the job
    or an error *)
Definition readJob (q : fsJobQueue) (id : UUID) : job + error :=
  match db q !! uuid_String id with
  | Some (Doc j) => inl j
  | Some Unparseable =>
      inr (errorString ("error reading job '" +:+ uuid_String id +:+ "'"))
  | None => inr ErrNotExist
  end.

(** [func (q *fsJobQueue) countFinishedJobs(ids []uuid.UUID) (int, error)];
    [n] counts elements of [ids], it cannot overflow. *)
Fixpoint countFinishedJobs_from (q : fsJobQueue) (ids : list UUID) (n : nat)
  : nat + error :=
  match ids with
  | [] => inl n
  | id :: ids' =>
      match readJob q id with
      | inr err => inr err
      | inl j =>
          countFinishedJobs_from q ids'
            (if decide (Status j = JobFinished) then S n else n)
      end
  end.

Definition countFinishedJobs (q : fsJobQueue) (ids : list UUID) : nat + error :=
  countFinishedJobs_from q ids 0%nat.

(** [func (q *fsJobQueue) pendingChannel(jobType string) chan uuid.UUID]:
    the queue with the channel created if it was not there. *)
Definition pendingChannel (q : fsJobQueue) (jobType : string) : fsJobQueue :=
  match pending q !! jobType with
  | Some _ => q
  | None => set_pending (<[jobType := []]> (pending q)) q
  end.

(** [q.pendingChannel(jobType) <- id] *)
Definition send (q : fsJobQueue) (jobType : string) (id : UUID)
  : go fsJobQueue :=
  let q := pendingChannel q jobType in
  let c := default [] (pending q !! jobType) in
  if decide (length c < channel_capacity)%nat then
    Ret (set_pending (<[jobType := c ++ [id]]> (pending q)) q)
  else Blocked.

(** The [less] function handed to [sort.Slice] in [uniqueUUIDList]:
    [for b := 0; b < 16; b++ { if l[i][b] < l[j][b] { return true } };
     return false]. *)
Definition byte_at (id : UUID) (b : nat) : N := Byte.to_N (nth b id x00).

Definition uuid_less (x y : UUID) : bool :=
  existsb (fun b => (byte_at x b <? byte_at y b)%N) (seq 0 16).

(** [func uniqueUUIDList(ids []uuid.UUID) []uuid.UUID] *)
Definition uniqueUUIDList (shuffle : RangeOrder) (ids : list UUID)
  : list UUID :=
  let s : gset UUID := list_to_set ids in
  let l := shuffle _ (elements s) in
  sort_Slice uuid_less l.

Definition set_Args (raw : RawMessage) (j : job) : job :=
  {| Id := Id j; JobType := JobType j; Args := raw;
     Dependencies := Dependencies j; Result := Result j;
     Status := Status j; QueuedAt := QueuedAt j;
     StartedAt := StartedAt j; FinishedAt := FinishedAt j |}.

Definition start (now : Time) (j : job) : job :=
  {| Id := Id j; JobType := JobType j; Args := Args j;
     Dependencies := Dependencies j; Result := Result j;
     Status := JobRunning; QueuedAt := QueuedAt j;
     StartedAt := now; FinishedAt := FinishedAt j |}.

Definition finish (now : Time) (raw : RawMessage) (j : job) : job :=
  {| Id := Id j; JobType := JobType j; Args := Args j;
     Dependencies := Dependencies j; Result := raw;
     Status := JobFinished; QueuedAt := QueuedAt j;
     StartedAt := StartedAt j; FinishedAt := now |}.

(** [q.dependants[id] = append(q.dependants[id], j.Id)] for every [id]
    of the dependencies. *)
Definition add_dependant (dependant : UUID) (deps : gmap UUID (list UUID))
    (id : UUID) : gmap UUID (list UUID) :=
  <[id := default [] (deps !! id) ++ [dependant]]> deps.

(** [func (q *fsJobQueue) Enqueue(jobType string, args interface{},
    dependencies []uuid.UUID) (uuid.UUID, error)] *)
Definition Enqueue {A} `{Marshal A} (e : Env) (q : fsJobQueue)
    (jobType : string) (args : A) (dependencies : list UUID)
  : go (fsJobQueue * (UUID * option error)) :=
  let j := {| Id := uuid_New e; JobType := jobType; Args := "";
              Dependencies := uniqueUUIDList (shuffle e) dependencies;
              Result := ""; Status := JobPending;
              QueuedAt := time_Now e; StartedAt := 0; FinishedAt := 0 |} in
  match json_Marshal args with
  | None =>
      Ret (q, (uuid_Nil, Some (errorString "error marshaling job arguments")))
  | Some raw =>
      let j := set_Args raw j in
      (* Verify dependencies and check how many of them are already
         finished. *)
      match countFinishedJobs q (Dependencies j) with
      | inr err => Ret (q, (uuid_Nil, Some err))
      | inl finished =>
          (* Write the job before updating in-memory state *)
          if db_Write_ok e then
            let q := set_db (<[uuid_String (Id j) := Doc j]> (db q)) q in
            if decide (finished = length (Dependencies j)) then
              let* q := send q (JobType j) (Id j) in
              Ret (q, (Id j, None))
            else
              Ret (set_dependants
                     (foldl (add_dependant (Id j)) (dependants q)
                            (Dependencies j)) q,
                   (Id j, None))
          else Ret (q, (uuid_Nil, Some (errorString "cannot write job")))
      end
  end.

(** The cases of [reflect.Select] that can proceed: case 0 receives from
    [ctx.Done()], case [i + 1] from the channel of [jobTypes[i]]. *)
Definition ready_cases (e : Env) (q : fsJobQueue) (jobTypes : list string)
  : list (nat * option (string * UUID)) :=
  match ctx_Done e with Some _ => [(0%nat, None)] | None => [] end ++
  omap (fun '(i, jt) =>
          match default [] (pending q !! jt) with
          | id :: _ => Some (S i, Some (jt, id))
          | [] => None
          end)
       (imap (fun i jt => (i, jt)) jobTypes).

(** [func (q *fsJobQueue) Dequeue(ctx context.Context, jobTypes []string,
    args interface{}) (uuid.UUID, error)]; [args] is the variable the
    argument points to, returned as the call leaves it. *)
Definition Dequeue {B} `{Unmarshal B} (e : Env) (q : fsJobQueue)
    (jobTypes : list string) (args : B)
  : go (fsJobQueue * B * (UUID * option error)) :=
  (* Return early if the context is already canceled. *)
  match ctx_Err e with
  | Some err => Ret (q, args, (uuid_Nil, Some err))
  | None =>
      let q := foldl pendingChannel q jobTypes in
      let ready := ready_cases e q jobTypes in
      match ready !! (choose e `mod` length ready)%nat with
      | None => Blocked
      | Some (_, None) =>
          Ret (q, args,
               (uuid_Nil, Some (default (errorString "context canceled")
                                        (ctx_Done e))))
      | Some (_, Some (jt, id)) =>
          let q := set_pending
                     (<[jt := tail (default [] (pending q !! jt))]>
                        (pending q)) q in
          match readJob q id with
          | inr err => Ret (q, args, (uuid_Nil, Some err))
          | inl j =>
              match json_Unmarshal (Args j) args with
              | None =>
                  Ret (q, args,
                       (uuid_Nil,
                        Some (errorString
                                ("error unmarshaling arguments for job '"
                                 +:+ uuid_String (Id j) +:+ "'"))))
              | Some args =>
                  let j := start (time_Now e) j in
                  if db_Write_ok e then
                    Ret (set_db (<[uuid_String id := Doc j]> (db q)) q,
                         args, (Id j, None))
                  else
                    Ret (q, args,
                         (uuid_Nil,
                          Some (errorString
                                  ("error writing job " +:+ uuid_String id))))
              end
          end
      end
  end.

(** The loop of [FinishJob] over [q.dependants[id]]: a dependant whose
    dependencies have all finished is sent to its channel. *)
Fixpoint notify_dependants (q : fsJobQueue) (depids : list UUID)
  : go (fsJobQueue * option error) :=
  match depids with
  | [] => Ret (q, None)
  | depid :: depids' =>
      match readJob q depid with
      | inr err => Ret (q, Some err)
      | inl dep =>
          match countFinishedJobs q (Dependencies dep) with
          | inr err => Ret (q, Some err)
          | inl n =>
              if decide (n = length (Dependencies dep)) then
                let* q := send q (JobType dep) (Id dep) in
                notify_dependants q depids'
              else notify_dependants q depids'
          end
      end
  end.

(** [func (q *fsJobQueue) FinishJob(id uuid.UUID, result interface{})
    error] *)
Definition FinishJob {R} `{Marshal R} (e : Env) (q : fsJobQueue) (id : UUID)
    (result : R) : go (fsJobQueue * option error) :=
  match readJob q id with
  | inr err => Ret (q, Some err)
  | inl j =>
      if decide (Status j ≠ JobRunning) then Ret (q, Some ErrNotRunning)
      else
        match json_Marshal result with
        | None => Ret (q, Some (errorString "error marshaling result"))
        | Some raw =>
            let j := finish (time_Now e) raw j in
            (* Write before notifying dependants *)
            if db_Write_ok e then
              let q := set_db (<[uuid_String id := Doc j]> (db q)) q in
              let* r := notify_dependants q
                          (default [] (dependants q !! id)) in
              match r with
              | (q, Some err) => Ret (q, Some err)
              | (q, None) =>
                  Ret (set_dependants (delete id (dependants q)) q, None)
              end
            else
              Ret (q, Some (errorString
                              ("error writing job " +:+ uuid_String id)))
        end
  end.

(** [func (q *fsJobQueue) JobStatus(id uuid.UUID, result interface{})
    (status jobqueue.JobStatus, queued, started, finished time.Time,
    err error)]; [result] is the variable the argument points to,
    returned as the call leaves it. *)
Definition JobStatus {R} `{Unmarshal R} (q : fsJobQueue) (id : UUID)
    (result : R) : R * StatusReport * option error :=
  match readJob q id with
  | inr err => (result, StatusReport_zero, Some err)
  | inl j =>
      let report := {| status := Status j; queued := QueuedAt j;
                       started := StartedAt j; finished := FinishedAt j |} in
      if decide (Status j = JobFinished) then
        match json_Unmarshal (Result j) result with
        | None =>
            (result, StatusReport_zero,
             Some (errorString ("error unmarshaling result for job '"
                                +:+ uuid_String id +:+ "'")))
        | Some result => (result, report, None)
        end
      else (result, report, None)
  end.

#[global] Instance fsJobQueue_JobQueue : JobQueue fsJobQueue :=
  {| queue_JobStatus := @JobStatus |}.

(** The loop of [New] over the listed keys.  [dependantsMutex_locked] tells
    whether [q.dependantsMutex] is held: it is locked for every pending
    job, and the deferred unlocks only run when [New] returns. *)
Fixpoint New_loop `{UUIDParse} (q : fsJobQueue) (dependantsMutex_locked : bool)
    (ids : list string) : go (fsJobQueue + error) :=
  match ids with
  | [] => Ret (inl q)
  | id :: ids' =>
      match uuid_Parse id with
      | None => Ret (inr (errorString ("invalid job '" +:+ id +:+ "' in db")))
      | Some uuid =>
          match readJob q uuid with
          | inr err => Ret (inr err)
          | inl j =>
              (* We only enqueue jobs that were previously pending. *)
              if decide (Status j ≠ JobPending) then
                New_loop q dependantsMutex_locked ids'
              else if dependantsMutex_locked then Blocked
              else
                (* Initialize dependants for this job. *)
                let q := set_dependants
                           (foldl (add_dependant (Id j)) (dependants q)
                                  (Dependencies j)) q in
                match countFinishedJobs q (Dependencies j) with
                | inr err => Ret (inr err)
                | inl n =>
                    if decide (n = length (Dependencies j)) then
                      let* q := send q (JobType j) (Id j) in
                      New_loop q true ids'
                    else New_loop q true ids'
                end
          end
      end
  end.

(** [func New(dir string)], which returns the queue or an error, on a
    directory that holds the documents [dir]; [db_List] is what
    [q.db.List()] returns, [None] if it fails.  A second
    [q.dependantsMutex.Lock()] while the first lock is held does not
    return. *)
Definition New `{UUIDParse} (db_List : option (list string))
    (dir : gmap string document) : go (fsJobQueue + error) :=
  match db_List with
  | None => Ret (inr (errorString "error listing jobs"))
  | Some ids =>
      New_loop {| db := dir; pending := ∅; dependants := ∅ |} false ids
  end.

(** *** What the properties below speak of *)

(** The words of the specification: the bytewise order of two ids, the
    first byte counting most. *)
Fixpoint spec_uuid_lt (x y : list byte) : bool :=
  match x, y with
  | a :: x', b :: y' =>
      if (Byte.to_N a <? Byte.to_N b)%N then true
      else if (Byte.to_N b <? Byte.to_N a)%N then false
      else spec_uuid_lt x' y'
  | _, _ => false
  end.

(** The words of the specification: duplicate-free and ascending. *)
Definition spec_sorted_set (l : list UUID) : Prop :=
  Sorted (fun x y => spec_uuid_lt x y = true) l.

(** Deep JSON equality of two values: they marshal to the same document. *)
Definition json_equal {A B} `{Marshal A} `{Marshal B} (a : A) (b : B) : Prop :=
  exists raw, json_Marshal a = Some raw /\ json_Marshal b = Some raw.

#[global] Instance fsJobQueue_JobQueueOps
  : JobQueueOps fsjobqueue.fsJobQueue fsjobqueue.Env :=
  {| queue_Enqueue := @fsjobqueue.Enqueue;
     queue_Dequeue := @fsjobqueue.Dequeue;
     queue_FinishJob := @fsjobqueue.FinishJob |}.

(** A stored job that has finished. *)
Definition has_finished (q : fsJobQueue) (id : UUID) : Prop :=
  exists j, readJob q id = inl j /\ Status j = JobFinished.

Definition stored (q : fsJobQueue) (id : UUID) : Prop :=
  exists j, readJob q id = inl j.

(** The job document that [Enqueue] writes. *)
Definition new_job (e : Env) (jobType : string) (raw : RawMessage)
    (dependencies : list UUID) : job :=
  {| Id := uuid_New e; JobType := jobType; Args := raw;
     Dependencies := uniqueUUIDList (shuffle e) dependencies;
     Result := ""; Status := JobPending;
     QueuedAt := time_Now e; StartedAt := 0; FinishedAt := 0 |}.

(** The channel of a job type: the ids that wait in it, none if the
    channel does not exist yet. *)
Definition waiting (q : fsJobQueue) (jobType : string) : list UUID :=
  default [] (pending q !! jobType).

(** The pending jobs among the listed names, in the order of the list. *)
Definition listed_pending `{UUIDParse} (dir : gmap string document)
    (ids : list string) : list job :=
  omap (fun name =>
          match uuid_Parse name with
          | Some uuid =>
              match dir !! uuid_String uuid with
              | Some (Doc j) =>
                  if decide (Status j = JobPending) then Some j else None
              | _ => None
              end
          | None => None
          end) ids.

(** A listed name that [New] reads without an error: it parses, its
    document is a job, and if that job is pending, so are the documents
    of its dependencies. *)
Definition readable `{UUIDParse} (q : fsJobQueue) (name : string) : Prop :=
  exists uuid j,
    uuid_Parse name = Some uuid /\ readJob q uuid = inl j /\
    (Status j = JobPending -> Forall (stored q) (Dependencies j)).

End fsjobqueue.

(** ** internal/worker/json.go, server.go *)
Module worker.
Import common jobqueue.

Record OSBuildJob := {
  Manifest : option string;
  Targets : list (option target.Target)
}.

(** [OSBuildOutput] is a [*common.ComposeResult] with the tag
    [json:"osbuild_output,omitempty"]. *)
Record OSBuildJobResult := { OSBuildOutput : option ComposeResult }.

(** [var result OSBuildJobResult] *)
Definition OSBuildJobResult_zero : OSBuildJobResult :=
  {| OSBuildOutput := None |}.

Record updateJobRequest := {
  Status : ImageBuildState;
  Result : option ComposeResult
}.

(** The [Server], as far as [JobStatus] and the job handlers use it. *)
Record Server (Q : Type) := { jobs : Q }.
Arguments jobs {Q} s.

(** [func composeStateFromJobStatus(status jobqueue.JobStatus,
    output *common.ComposeResult) common.ComposeState]; [output.Success]
    reads through the pointer. *)
Definition composeStateFromJobStatus (status : JobStatus)
    (output : option ComposeResult) : go ComposeState :=
  match status with
  | JobPending => Ret CWaiting
  | JobRunning => Ret CRunning
  | JobFinished =>
      match output with
      | Some output =>
          if Success output then Ret CFinished else Ret CFailed
      | None => Panic nil_dereference
      end
  end.

(** [func (s *Server) JobStatus(id uuid.UUID) (state common.ComposeState,
    queued, started, finished time.Time, err error)] *)
Definition JobStatus {Q} `{JobQueue Q} `{Unmarshal OSBuildJobResult}
    (s : Server Q) (id : UUID)
  : go (ComposeState * Time * Time * Time * option error) :=
  let '(result, report, err) :=
    queue_JobStatus (jobs s) id OSBuildJobResult_zero in
  match err with
  | Some err =>
      Ret (CWaiting, queued report, started report, finished report,
           Some err)
  | None =>
      let* state :=
        composeStateFromJobStatus (status report) (OSBuildOutput result) in
      Ret (state, queued report, started report, finished report, None)
  end.

(** [func (s *Server) Enqueue(manifest *osbuild.Manifest, targets
    []*target.Target) (uuid.UUID, error)] *)
Definition Enqueue {Q E} `{JobQueueOps Q E} `{Marshal OSBuildJob}
    (env : E) (s : Server Q) (manifest : option string)
    (targets : list (option target.Target))
  : go (Server Q * (UUID * option error)) :=
  let job := {| Manifest := manifest; Targets := targets |} in
  let* r := queue_Enqueue env (jobs s) "osbuild" job [] in
  Ret ({| jobs := r.1 |}, r.2).

(** [func (s *Server) JobResult(id uuid.UUID) (common.ComposeState,
    *common.ComposeResult, error)] *)
Definition JobResult {Q} `{JobQueue Q} `{Unmarshal OSBuildJobResult}
    (s : Server Q) (id : UUID)
  : go (ComposeState * option ComposeResult * option error) :=
  let '(result, report, err) :=
    queue_JobStatus (jobs s) id OSBuildJobResult_zero in
  match err with
  | Some err => Ret (CWaiting, None, Some err)
  | None =>
      let* state :=
        composeStateFromJobStatus (status report) (OSBuildOutput result) in
      Ret (state, OSBuildOutput result, None)
  end.

(** What a handler writes: the status code, 200 if [WriteHeader] is not
    called, and the value encoded into the body. *)
Inductive responseBody :=
| errorResponse (message : string)
| addJobResponse (id : UUID) (manifest : option string)
    (targets : list (option target.Target))
| updateJobResponse.

Record response := { code : Z; body : responseBody }.

(** [func jsonErrorf(writer http.ResponseWriter, code int, message
    string, args ...interface{})], with the message formatted. *)
Definition jsonErrorf (code : Z) (message : string) : response :=
  {| code := code; body := errorResponse message |}.

(** [len(contentType) != 1 || contentType[0] != "application/json"] *)
Definition not_json (contentType : list string) : Prop :=
  contentType ≠ ["application/json"].

(** [func (s *Server) addJobHandler(writer http.ResponseWriter, request
    *http.Request, _ httprouter.Params)].  [contentType] is
    [request.Header["Content-Type"]], [decoded] tells whether the body
    decodes as an [addJobRequest]; the context of the request is part of
    [env]. *)
Definition addJobHandler {Q E} `{JobQueueOps Q E} `{Unmarshal OSBuildJob}
    (env : E) (s : Server Q) (contentType : list string) (decoded : bool)
  : go (Server Q * response) :=
  if decide (not_json contentType) then
    Ret (s, jsonErrorf 415 "request must contain application/json data")
  else if negb decoded then
    Ret (s, jsonErrorf 400 "cannot decode the request body")
  else
    let job := {| Manifest := None; Targets := [] |} in
    let* r := queue_Dequeue env (jobs s) ["osbuild"] job in
    let '(q, job, (id, err)) := r in
    match err with
    | Some err => Ret ({| jobs := q |}, jsonErrorf 500 (error_Error err))
    | None =>
        Ret ({| jobs := q |},
             {| code := 201;
                body := addJobResponse id (Manifest job) (Targets job) |})
    end.

(** [func (s *Server) updateJobHandler(writer http.ResponseWriter,
    request *http.Request, params httprouter.Params)].  [job_id] is
    [params.ByName("job_id")], [decoded] is the [updateJobRequest] that
    the body decodes to, [None] if it does not decode. *)
Definition updateJobHandler {Q E} `{JobQueueOps Q E} `{UUIDParse}
    `{Marshal OSBuildJobResult}
    (env : E) (s : Server Q) (contentType : list string) (job_id : string)
    (decoded : option updateJobRequest) : go (Server Q * response) :=
  if decide (not_json contentType) then
    Ret (s, jsonErrorf 415 "request must contain application/json data")
  else
    match uuid_Parse job_id with
    | None => Ret (s, jsonErrorf 400 "cannot parse compose id")
    | Some id =>
        match decoded with
        | None => Ret (s, jsonErrorf 400 "cannot parse request body")
        | Some body =>
            (* The jobqueue doesn't support setting the status before a
               job is finished. *)
            if decide (Status body ≠ IBFinished /\ Status body ≠ IBFailed)
            then
              Ret (s, jsonErrorf 400
                     "setting status of a job to waiting or running is not supported")
            else
              let* r :=
                queue_FinishJob env (jobs s) id
                  {| OSBuildOutput := Result body |} in
              let s := {| jobs := r.1 |} in
              match r.2 with
              | Some err =>
                  match err with
                  | ErrNotExist =>
                      Ret (s, jsonErrorf 404
                             ("job does not exist: " +:+ uuid_String id))
                  | ErrNotRunning =>
                      Ret (s, jsonErrorf 400
                             ("job is not running: " +:+ uuid_String id))
                  | _ => Ret (s, jsonErrorf 500 (error_Error err))
                  end
              | None => Ret (s, {| code := 200; body := updateJobResponse |})
              end
        end
    end.

End worker.

(** * Sample data

    Concrete stores, composes and queues on which the properties below are
    exercised. *)
Module scenario.
Import common compose.

Definition local_target : target.Target :=
  {| target.TargetName := "org.osbuild.local";
     target.Status := IBWaiting;
     target.Options := target.LocalTargetOptions "disk.qcow2" |}.

Definition build (s : ImageBuildState) : ImageBuild :=
  {| Id := 0; ImageType := 0; Manifest := Some "{}";
     Targets := [Some local_target];
     JobCreated := 1; JobStarted := 0; JobFinished := 0;
     Size := 0; JobId := uuid_Nil; QueueStatus := s |}.

Definition compose_of (s : ImageBuildState) : Compose :=
  {| Compose_Blueprint := None; ImageBuilds := [build s] |}.

Definition compose_id : UUID :=
  [x3b; x1c; x00; x00; x00; x00; x40; x00; x80; x00; x00; x00; x00; x00; x00; x01].

Definition env : store.Env :=
  {| store.os_Mkdir_ok := true; store.os_Create_ok := true;
     store.db_Read := None; store.db_Write_ok := true;
     store.time_Now := 1600000000; store.shuffle := range_in_order |}.

(** A store without state directory that holds one compose, whose image
    build is in state [s]. *)
Definition store_with (s : ImageBuildState) : store.Store :=
  {| store.Blueprints := ∅; store.Workspace := ∅;
     store.Composes := {[ compose_id := compose_of s ]};
     store.Sources := ∅; store.BlueprintsChanges := ∅;
     store.BlueprintsCommits := ∅; store.stateDir := None;
     store.files := ∅ |}.

Definition bp (version : string) : blueprint.Blueprint :=
  {| blueprint.Name := "bp"; blueprint.Version := version;
     blueprint.Body := "packages = []" |}.

Definition commit (hash timestamp version : string) (revision : option Z)
  : blueprint.Change :=
  {| blueprint.Commit := hash; blueprint.Message := "message " +:+ hash;
     blueprint.Timestamp := timestamp;
     blueprint.Change_Blueprint := bp version;
     blueprint.Revision := revision |}.

(** A store as [New] returns it without state directory: nothing in it. *)
Definition store_new : store.Store :=
  {| store.Blueprints := ∅; store.Workspace := ∅; store.Composes := ∅;
     store.Sources := ∅; store.BlueprintsChanges := ∅;
     store.BlueprintsCommits := ∅; store.stateDir := None;
     store.files := ∅ |}.

(** A store with blueprint [bp] and the given history. *)
Definition store_of (changes : gmap string blueprint.Change)
    (commits : list string) : store.Store :=
  {| store.Blueprints := {[ "bp" := bp "0.0.3" ]}; store.Workspace := ∅;
     store.Composes := ∅; store.Sources := ∅;
     store.BlueprintsChanges := {[ "bp" := changes ]};
     store.BlueprintsCommits := {[ "bp" := commits ]};
     store.stateDir := None; store.files := ∅ |}.

(** Three commits, the first two tagged with revisions 5 and 2. *)
Definition changes_5_2 : gmap string blueprint.Change :=
  {[ "aa" := commit "aa" "2020-05-01T10:00:00Z" "0.0.1" (Some 5);
     "bb" := commit "bb" "2020-05-01T10:00:01Z" "0.0.2" (Some 2);
     "cc" := commit "cc" "2020-05-01T10:00:02Z" "0.0.3" None ]}.

(** Two commits, none tagged. *)
Definition changes_untagged : gmap string blueprint.Change :=
  {[ "aa" := commit "aa" "2020-05-01T10:00:00Z" "0.0.1" None;
     "bb" := commit "bb" "2020-05-01T10:00:01Z" "0.0.2" None ]}.

(** A stand-in for the semantic-version library on the versions used here:
    versions with one-digit components, for which the order of the library
    is the order of the strings; the empty string does not parse. *)
Definition versions : semver.Semver :=
  {| semver.Version := string;
     semver.NewVersion := fun v => if decide (v = "") then None else Some v;
     semver.Version_0_0_0 := "0.0.0";
     semver.LessThan := String.ltb |}.

(** A state document of an earlier release: three commits made within one
    second, and no commit list. *)
Definition changes_same_second : gmap string blueprint.Change :=
  {[ "aa" := commit "aa" "2020-05-01T10:00:00Z" "0.0.2" None;
     "bb" := commit "bb" "2020-05-01T10:00:00Z" "0.0.1" None;
     "cc" := commit "cc" "2020-05-01T09:59:59Z" "0.0.3" None ]}.

Definition env_reading (s : store.Store) : store.Env :=
  {| store.os_Mkdir_ok := true; store.os_Create_ok := true;
     store.db_Read := Some s; store.db_Write_ok := true;
     store.time_Now := 1600000000; store.shuffle := range_in_order |}.

(** A state document with a compose that has no image build. *)
Definition store_empty_compose : store.Store :=
  {| store.Blueprints := ∅; store.Workspace := ∅;
     store.Composes :=
       {[ compose_id := {| Compose_Blueprint := None; ImageBuilds := [] |} ]};
     store.Sources := ∅; store.BlueprintsChanges := ∅;
     store.BlueprintsCommits := ∅; store.stateDir := None;
     store.files := ∅ |}.

(** Arguments and results handed over as [json.RawMessage]: marshalling
    returns the text, unmarshalling stores it. *)
Definition raw_marshal : Marshal RawMessage := fun raw => Some raw.
Definition raw_unmarshal : Unmarshal RawMessage := fun raw _ => Some raw.

(** A value that does not marshal, like the [make(chan string)] of the
    tests. *)
Inductive channel := make_chan.
Definition chan_marshal : Marshal channel := fun _ => None.

Definition job_a : UUID :=
  [x01; x00; x00; x00; x00; x00; x40; x00; x80; x00; x00; x00; x00; x00; x00; x00].
Definition job_b : UUID :=
  [x00; x01; x00; x00; x00; x00; x40; x00; x80; x00; x00; x00; x00; x00; x00; x00].
Definition job_c : UUID :=
  [x7f; x10; x00; x00; x00; x00; x40; x00; x80; x00; x00; x00; x00; x00; x00; x02].

(** What the environment answers to a queue call that draws the id
    [new_id]; maps are visited by [range] in the order [shuffle]. *)
Definition queue_env (new_id : UUID) (shuffle : RangeOrder) : fsjobqueue.Env :=
  {| fsjobqueue.uuid_New := new_id; fsjobqueue.time_Now := 1600000000;
     fsjobqueue.db_Write_ok := true; fsjobqueue.shuffle := shuffle;
     fsjobqueue.ctx_Err := None; fsjobqueue.ctx_Done := None;
     fsjobqueue.choose := 0 |}.

(** The queue of a new, empty directory. *)
Definition queue_new : fsjobqueue.fsJobQueue :=
  {| fsjobqueue.db := ∅; fsjobqueue.pending := ∅;
     fsjobqueue.dependants := ∅ |}.

Definition stored_job (id : UUID) : fsjobqueue.job :=
  {| fsjobqueue.Id := id; fsjobqueue.JobType := "test";
     fsjobqueue.Args := "null"; fsjobqueue.Dependencies := [];
     fsjobqueue.Result := ""; fsjobqueue.Status := jobqueue.JobPending;
     fsjobqueue.QueuedAt := 1500000000; fsjobqueue.StartedAt := 0;
     fsjobqueue.FinishedAt := 0 |}.

(** A queue in which the jobs [job_a] and [job_b] wait. *)
Definition queue_a_b : fsjobqueue.fsJobQueue :=
  {| fsjobqueue.db :=
       {[ uuid_String job_a := fsjobqueue.Doc (stored_job job_a);
          uuid_String job_b := fsjobqueue.Doc (stored_job job_b) ]};
     fsjobqueue.pending := {[ "test" := [job_a; job_b] ]};
     fsjobqueue.dependants := ∅ |}.

(** The documents of an [OSBuildJobResult] met here.  With [omitempty] a
    nil [OSBuildOutput] is left out of the document, and unmarshalling a
    document without the field leaves the variable as it was. *)
Definition quoted (s : string) : string :=
  String (Ascii.ascii_of_nat 34) (s +:+ String (Ascii.ascii_of_nat 34) "").

Definition result_document (success : bool) : RawMessage :=
  "{" +:+ quoted "osbuild_output" +:+ ":{" +:+ quoted "success" +:+ ":"
  +:+ (if success then "true" else "false") +:+ "}}".

Definition result_marshal : Marshal worker.OSBuildJobResult := fun r =>
  match worker.OSBuildOutput r with
  | None => Some "{}"
  | Some output => Some (result_document (Success output))
  end.

Definition result_unmarshal : Unmarshal worker.OSBuildJobResult :=
  fun raw r =>
    if decide (raw = "{}") then Some r
    else if decide (raw = result_document true) then
      Some {| worker.OSBuildOutput := Some {| Success := true; Output := "" |} |}
    else if decide (raw = result_document false) then
      Some {| worker.OSBuildOutput := Some {| Success := false; Output := "" |} |}
    else None.

(** A call whose context has been canceled. *)
Definition env_canceled : fsjobqueue.Env :=
  {| fsjobqueue.uuid_New := job_c; fsjobqueue.time_Now := 1600000000;
     fsjobqueue.db_Write_ok := true; fsjobqueue.shuffle := range_in_order;
     fsjobqueue.ctx_Err := Some (errorString "context canceled");
     fsjobqueue.ctx_Done := None; fsjobqueue.choose := 0 |}.

(** A job that a worker runs, and one that waits for other jobs. *)
Definition running_job (id : UUID) : fsjobqueue.job :=
  fsjobqueue.start 1550000000 (stored_job id).

Definition dependent_job (id : UUID) (dependencies : list UUID)
  : fsjobqueue.job :=
  {| fsjobqueue.Id := id; fsjobqueue.JobType := "test";
     fsjobqueue.Args := "null"; fsjobqueue.Dependencies := dependencies;
     fsjobqueue.Result := ""; fsjobqueue.Status := jobqueue.JobPending;
     fsjobqueue.QueuedAt := 1500000000; fsjobqueue.StartedAt := 0;
     fsjobqueue.FinishedAt := 0 |}.

(** A queue in which [job_a] runs and [job_b] waits for it. *)
Definition queue_b_after_a : fsjobqueue.fsJobQueue :=
  {| fsjobqueue.db :=
       {[ uuid_String job_a := fsjobqueue.Doc (running_job job_a);
          uuid_String job_b :=
            fsjobqueue.Doc (dependent_job job_b [job_a]) ]};
     fsjobqueue.pending := ∅;
     fsjobqueue.dependants := {[ job_a := [job_b] ]} |}.

(** [uuid.Parse] on the names of the sample jobs. *)
Definition parse : UUIDParse := fun name =>
  if decide (name = uuid_String job_a) then Some job_a
  else if decide (name = uuid_String job_b) then Some job_b
  else if decide (name = uuid_String job_c) then Some job_c
  else None.

(** [queue_a_b] after a worker took [job_a]. *)
Definition queue_a_taken : fsjobqueue.fsJobQueue :=
  {| fsjobqueue.db :=
       {[ uuid_String job_a :=
            fsjobqueue.Doc (fsjobqueue.start 1600000000
                              (stored_job job_a));
          uuid_String job_b :=
            fsjobqueue.Doc (stored_job job_b) ]};
     fsjobqueue.pending := {[ "test" := [job_b] ]};
     fsjobqueue.dependants := ∅ |}.

(** [queue_b_after_a] after [job_a] finished with the result [result]. *)
Definition queue_b_released (result : RawMessage) : fsjobqueue.fsJobQueue :=
  {| fsjobqueue.db :=
       {[ uuid_String job_a :=
            fsjobqueue.Doc (fsjobqueue.finish 1600000000 result
                              (running_job job_a));
          uuid_String job_b :=
            fsjobqueue.Doc (dependent_job job_b [job_a]) ]};
     fsjobqueue.pending := {[ "test" := [job_b] ]};
     fsjobqueue.dependants := ∅ |}.

(** Arguments that do not fit the variable they are read into. *)
Definition no_unmarshal : Unmarshal RawMessage := fun _ _ => None.

(** A store with the state directory [/var/lib/osbuild-composer] that
    holds one compose, whose image build is in state [s]. *)
Definition state_dir : string := "/var/lib/osbuild-composer".

Definition store_in_dir (s : ImageBuildState)
    (files : gmap string ComposeResult) : store.Store :=
  {| store.Blueprints := ∅; store.Workspace := ∅;
     store.Composes := {[ compose_id := compose_of s ]};
     store.Sources := ∅; store.BlueprintsChanges := ∅;
     store.BlueprintsCommits := ∅; store.stateDir := Some state_dir;
     store.files := files |}.

Definition success : ComposeResult := {| Success := true; Output := "" |}.

(** The sample image build once it has finished at [1600000000]. *)
Definition finished_build : ImageBuild :=
  {| Id := 0; ImageType := 0; Manifest := Some "{}";
     Targets := [Some (target.set_Status IBFinished local_target)];
     JobCreated := 1; JobStarted := 0; JobFinished := 1600000000;
     Size := 0; JobId := uuid_Nil; QueueStatus := IBFinished |}.

Definition result_path : string :=
  store.getImageBuildDirectory state_dir compose_id 0
  +:+ "/result.json".

(** [store_in_dir IBRunning ∅] after the build has finished with
    [success]. *)
Definition store_finished : store.Store :=
  {| store.Blueprints := ∅; store.Workspace := ∅;
     store.Composes :=
       {[ compose_id :=
            {| Compose_Blueprint := None; ImageBuilds := [finished_build] |} ]};
     store.Sources := ∅; store.BlueprintsChanges := ∅;
     store.BlueprintsCommits := ∅; store.stateDir := Some state_dir;
     store.files := {[ result_path := success ]} |}.

(** An [os.RemoveAll] that removes every file. *)
Definition remove_all (dir : string) (files : gmap string ComposeResult)
  : gmap string ComposeResult * option error := (∅, None).

(** Blueprint methods for the sample blueprints: every blueprint is
    valid as it is, and a bump appends a component to the old version. *)
Definition methods : blueprint.Methods :=
  {| blueprint.Initialize := fun bp => inl bp;
     blueprint.BumpVersion := fun bp old =>
       {| blueprint.Name := blueprint.Name bp;
          blueprint.Version := old +:+ ".1";
          blueprint.Body := blueprint.Body bp |} |}.

Definition source : store.SourceConfig :=
  {| store.SourceName := "fedora"; store.SourceType := "yum-baseurl";
     store.URL := "https://example.org/fedora"; store.CheckGPG := true;
     store.CheckSSL := true; store.System := false |}.

(** The document of the [OSBuildJob] without manifest and targets, and a
    stand-in for [encoding/json] on it. *)
Definition job_document : RawMessage :=
  "{" +:+ quoted "manifest" +:+ ":null}".

Definition job_marshal : Marshal worker.OSBuildJob := fun job =>
  match worker.Manifest job, worker.Targets job with
  | None, [] => Some job_document
  | _, _ => None
  end.

Definition job_unmarshal : Unmarshal worker.OSBuildJob := fun raw job =>
  if decide (raw = job_document)
  then Some {| worker.Manifest := None; worker.Targets := worker.Targets job |}
  else None.

(** The update of a worker that reports Failed with a successful
    result, and the update without result. *)
Definition update_with_result : worker.updateJobRequest :=
  {| worker.Status := common.IBFailed;
     worker.Result := Some {| common.Success := true; common.Output := "" |} |}.

Definition update_without_result : worker.updateJobRequest :=
  {| worker.Status := common.IBFinished; worker.Result := None |}.

(** A server on the queue of an empty directory, and the answer to an
    update for a job that it does not have. *)
Definition server_new : worker.Server fsjobqueue.fsJobQueue :=
  {| worker.jobs := queue_new |}.

Definition not_found : worker.response :=
  worker.jsonErrorf 404
    ("job does not exist: " +:+ uuid_String job_a).

(** A stand-in for [encoding/json] on strings that need no escaping: the
    string between double quotes. *)
Fixpoint strip_quote (s : string) : option string :=
  match s with
  | EmptyString => None
  | String c EmptyString =>
      if decide (c = Ascii.ascii_of_nat 34) then Some EmptyString else None
  | String c rest => String c <$> strip_quote rest
  end.

Definition unquote (raw : RawMessage) : option string :=
  match raw with
  | String c rest =>
      if decide (c = Ascii.ascii_of_nat 34) then strip_quote rest else None
  | EmptyString => None
  end.

Definition json_string : states.JSONString :=
  {| states.json_quote := quoted; states.json_unquote := unquote |}.

End scenario.

(** * Properties *)

(** ** Slices and the [go] monad *)

Lemma index_lookup {A} (s : list A) (i : Z) (x : A) :
  0 <= i -> s !! Z.to_nat i = Some x -> index s i = Ret x.
Proof.
  intros Hi Hx. unfold index. rewrite decide_True by done. by rewrite Hx.
Qed.

Lemma index_Ret {A} (s : list A) (i : Z) (x : A) :
  index s i = Ret x -> 0 <= i /\ s !! Z.to_nat i = Some x.
Proof.
  unfold index. case_decide; [|done].
  destruct (s !! Z.to_nat i) eqn:E; [|done]. by intros [= ->].
Qed.

Lemma index_out_of_range_panics {A} (s : list A) (i : Z) :
  ~ in_range s i -> index s i = Panic index_out_of_range.
Proof.
  unfold in_range, index. intros Hi. case_decide; [|done].
  rewrite lookup_ge_None_2; [done|lia].
Qed.

Lemma range_in_order_ok : range_order_ok range_in_order.
Proof. by intros A l. Qed.

Lemma range_reversed_ok : range_order_ok range_reversed.
Proof. intros A l. apply reverse_Permutation. Qed.

(** ** Sorting with [sort.Slice] *)
Section sort_Slice_facts.
Context {A : Type} (less : A -> A -> bool).

Lemma insert_left_perm x done : insert_left less x done ≡ₚ x :: done.
Proof.
  induction done as [|y done IH]; simpl; [done|].
  destruct (less x y); [|done]. rewrite IH. apply perm_swap.
Qed.

Lemma insertionSort_perm done todo :
  insertionSort less done todo ≡ₚ done ++ todo.
Proof.
  revert done. induction todo as [|x todo IH]; intros done; simpl.
  - by rewrite reverse_Permutation, app_nil_r.
  - rewrite IH, insert_left_perm. simpl. apply Permutation_middle.
Qed.

(** Whatever [less] is, [sort.Slice] rearranges the slice. *)
Lemma sort_Slice_perm data : sort_Slice less data ≡ₚ data.
Proof. apply insertionSort_perm. Qed.

(** [less] is the strict part of a total preorder. *)
Hypothesis less_asym : forall x y, less x y = true -> less y x = false.
Hypothesis less_negtrans :
  forall x y z, less x y = false -> less y z = false -> less x z = false.

Lemma not_after_trans x y z :
  not_after less x y -> not_after less y z -> not_after less x z.
Proof. unfold not_after. eauto. Qed.

Lemma insert_left_sorted x done :
  StronglySorted (flip (not_after less)) done ->
  StronglySorted (flip (not_after less)) (insert_left less x done).
Proof.
  induction 1 as [|y done Hs IH Hy]; simpl.
  - by repeat constructor.
  - destruct (less x y) eqn:Hxy.
    + constructor; [done|].
      rewrite insert_left_perm. constructor; [|done].
      by apply less_asym.
    + constructor; [by constructor|].
      constructor; [done|].
      eapply Forall_impl; [exact Hy|]. intros z Hz. simpl in *.
      by eapply not_after_trans.
Qed.

Lemma StronglySorted_flip_reverse (R : relation A) l :
  StronglySorted (flip R) l -> StronglySorted R (reverse l).
Proof.
  induction 1 as [|x l Hs IH Hx]; [constructor|].
  rewrite reverse_cons. apply StronglySorted_app_2.
  - intros x1 x2 Hx1 ->%list_elem_of_singleton.
    rewrite elem_of_reverse in Hx1.
    rewrite Forall_forall in Hx. exact (Hx _ Hx1).
  - exact IH.
  - repeat constructor.
Qed.

Lemma insertionSort_sorted done todo :
  StronglySorted (flip (not_after less)) done ->
  StronglySorted (not_after less) (insertionSort less done todo).
Proof.
  revert done. induction todo as [|x todo IH]; intros done Hs; simpl.
  - by apply StronglySorted_flip_reverse.
  - by apply IH, insert_left_sorted.
Qed.

(** With such a [less], every element of the result is not after the
    elements that follow it. *)
Lemma sort_Slice_sorted data :
  StronglySorted (not_after less) (sort_Slice less data).
Proof. apply insertionSort_sorted. constructor. Qed.

End sort_Slice_facts.

(** Go compares strings byte by byte. *)
Lemma string_ltb_asym (a b : string) :
  String.ltb a b = true -> String.ltb b a = false.
Proof.
  unfold String.ltb. rewrite (String.compare_antisym b a).
  by destruct (String.compare a b).
Qed.

Lemma string_compare_lt_trans (a b c : string) :
  String.compare a b = Lt -> String.compare b c = Lt ->
  String.compare a c = Lt.
Proof.
  intros Hab Hbc. apply OrderedTypeEx.String_as_OT.cmp_lt.
  eapply OrderedTypeEx.String_as_OT.lt_trans;
    by apply OrderedTypeEx.String_as_OT.cmp_lt.
Qed.

Lemma string_ltb_negtrans (a b c : string) :
  String.ltb a b = false -> String.ltb b c = false -> String.ltb a c = false.
Proof.
  unfold String.ltb. intros Hab Hbc.
  destruct (String.compare a b) eqn:Eab; [|done|].
  { apply String.compare_eq_iff in Eab as ->. done. }
  destruct (String.compare b c) eqn:Ebc; [|done|].
  { apply String.compare_eq_iff in Ebc as ->. by rewrite Eab. }
  rewrite String.compare_antisym in Eab, Ebc.
  assert (String.compare c a = Lt) as Hca.
  { apply (string_compare_lt_trans c b a).
    - by destruct (String.compare c b).
    - by destruct (String.compare b a). }
  rewrite String.compare_antisym, Hca. done.
Qed.

(** ** The image-build state machine *)
Module compose_facts.
Import common compose.

Lemma set_targets_status_allocated newState
    (ts : list (option target.Target)) :
  Forall is_Some ts ->
  set_targets_status newState ts = Ret (with_status newState ts).
Proof.
  induction 1 as [|t ts [t' ->] _ IH]; [done|].
  simpl. by rewrite IH.
Qed.

(** A nil pointer among the targets stops the loop with a panic. *)
Lemma set_targets_status_nil newState (ts : list (option target.Target)) :
  None ∈ ts -> set_targets_status newState ts = Panic nil_dereference.
Proof.
  induction ts as [|[t|] ts IH]; intros Hin; [by inversion Hin| |done].
  simpl. rewrite IH; [done|]. by inversion Hin.
Qed.

Lemma with_status_elem newState (ts : list (option target.Target)) t :
  Forall is_Some ts -> t ∈ with_status newState ts ->
  exists t', t = Some t' /\ target.Status t' = newState.
Proof.
  intros Hts [t0 [-> Hin]]%list_elem_of_fmap.
  rewrite Forall_forall in Hts. destruct (Hts _ Hin) as [t' ->].
  by eexists.
Qed.

Lemma transition_cases old new :
  transition old new <->
    (new = IBRunning /\ (old = IBWaiting \/ old = IBRunning)) \/
    (terminal new /\ old = IBRunning).
Proof. unfold transition, terminal. tauto. Qed.

(** C4.  For a compose [c], an index [i] of one of its image builds [ib]
    (whose target pointers are not nil) and any requested state:
    [UpdateState] succeeds exactly on the edges Waiting→Running,
    Running→Running, Running→Finished and Running→Failed; it then sets
    the queue status of that build to the new state and, when the new
    state is Finished or Failed, the status of every target of the build
    as well.  Every other request, a move into Waiting among them, gets a
    [StateTransitionError] and leaves the compose as it was. *)
Theorem UpdateState_transitions (c : Compose) (i : Z) (ib : ImageBuild)
    (newState : ImageBuildState) :
  0 <= i ->
  ImageBuilds c !! Z.to_nat i = Some ib ->
  Forall is_Some (Targets ib) ->
  (transition (QueueStatus ib) newState ->
     exists ib',
       UpdateState c i newState = Ret (set_ImageBuild c i ib', None) /\
       ImageBuilds (set_ImageBuild c i ib') !! Z.to_nat i = Some ib' /\
       QueueStatus ib' = newState /\
       length (Targets ib') = length (Targets ib) /\
       (terminal newState ->
          forall t, t ∈ Targets ib' ->
            exists t', t = Some t' /\ target.Status t' = newState)) /\
  (~ transition (QueueStatus ib) newState ->
     exists message,
       UpdateState c i newState =
         Ret (c, Some (StateTransitionError message))).
Proof.
  intros Hi Hib Hts. unfold UpdateState.
  assert (Hlen : (Z.to_nat i < length (ImageBuilds c))%nat)
    by (by eapply lookup_lt_Some).
  split.
  - intros Htr. apply transition_cases in Htr as [[-> Hold]|[Hnew Hold]].
    + rewrite decide_False by done. rewrite decide_True by done.
      rewrite (index_lookup _ _ ib) by done. simpl.
      rewrite decide_True by done.
      exists (set_QueueStatus IBRunning ib). split_and!; try done.
      * simpl. by rewrite list_lookup_insert_eq.
      * intros [[=]|[=]].
    + assert (newState <> IBWaiting /\ newState <> IBRunning) as [? ?]
        by (destruct Hnew as [-> | ->]; done).
      rewrite !decide_False by done. rewrite decide_True by done.
      rewrite (index_lookup _ _ ib) by done. simpl.
      rewrite decide_True by done.
      rewrite set_targets_status_allocated by done. simpl.
      exists (set_Targets (with_status newState (Targets ib))
                (set_QueueStatus newState ib)).
      split_and!; try done.
      * simpl. by rewrite list_lookup_insert_eq.
      * simpl. unfold with_status. by rewrite length_fmap.
      * intros _ t Ht. by eapply with_status_elem.
  - intros Hno. rewrite transition_cases in Hno.
    case_decide; [by eexists|].
    case_decide.
    + rewrite (index_lookup _ _ ib) by done. simpl.
      case_decide; [exfalso; apply Hno; by left|by eexists].
    + case_decide; [|by eexists].
      rewrite (index_lookup _ _ ib) by done. simpl.
      case_decide; [|by eexists].
      exfalso. apply Hno. by right.
Qed.

Lemma UpdateState_transitions_witness :
  (exists ib',
     UpdateState (scenario.compose_of IBRunning) 0 IBFinished =
       Ret (set_ImageBuild (scenario.compose_of IBRunning) 0 ib', None) /\
     QueueStatus ib' = IBFinished) /\
  (exists message,
     UpdateState (scenario.compose_of IBFinished) 0 IBRunning =
       Ret (scenario.compose_of IBFinished,
            Some (StateTransitionError message))).
Proof.
  split.
  - destruct (UpdateState_transitions (scenario.compose_of IBRunning) 0
                (scenario.build IBRunning) IBFinished)
      as [Hok _]; [lia|reflexivity|by repeat constructor|].
    destruct Hok as (ib' & ? & _ & ? & _);
      [unfold transition; vm_compute; tauto|].
    by exists ib'.
  - destruct (UpdateState_transitions (scenario.compose_of IBFinished) 0
                (scenario.build IBFinished) IBRunning)
      as [_ Hno]; [lia|reflexivity|by repeat constructor|].
    apply Hno. unfold transition. vm_compute. intuition discriminate.
Defined.

End compose_facts.

(** ** The compose store *)
Module store_facts.
Import common blueprint compose store.

Lemma change_Ret e f s s' result :
  f s = Ret (s', result) -> persists e s' ->
  change e f s = Ret (s', result).
Proof.
  intros Hf Hp. unfold change. rewrite Hf. simpl.
  destruct Hp as [-> | ->]; [done|]. by destruct (stateDir s').
Qed.

(** *** UpdateImageBuildInCompose *)

(** What [UpdateState] can return. *)
Lemma UpdateState_Ret c i newState c' err :
  UpdateState c i newState = Ret (c', err) ->
  match err with
  | Some err => c' = c /\ exists message, err = StateTransitionError message
  | None =>
      exists ib', in_range (ImageBuilds c) i /\ c' = set_ImageBuild c i ib'
  end.
Proof.
  unfold UpdateState.
  assert (Hidx : forall ib, index (ImageBuilds c) i = Ret ib ->
                            in_range (ImageBuilds c) i).
  { intros ib [? ?%lookup_lt_Some]%index_Ret. unfold in_range. lia. }
  repeat case_decide;
    try (intros [= <- <-]; by eauto);
    destruct (index (ImageBuilds c) i) as [ ib | m | m | ] eqn:E; simpl;
    try done;
    repeat case_decide; try (intros [= <- <-]; by eauto).
  destruct (set_targets_status newState (Targets ib)); simpl; try done.
  intros [= <- <-]; by eauto.
Qed.

Lemma UpdateImageBuildInCompose_waiting e composeID i status result s c ib :
  Composes s !! composeID = Some c ->
  0 <= i -> ImageBuilds c !! Z.to_nat i = Some ib ->
  persists e s ->
  QueueStatus ib = IBWaiting ->
  UpdateImageBuildInCompose e composeID i status result s =
    Ret (s, Some (NotPendingError "compose has not been popped")).
Proof.
  intros Hc Hi Hib Hp Hw. unfold UpdateImageBuildInCompose.
  apply change_Ret; [|done].
  rewrite Hc, (index_lookup _ _ ib) by done. simpl.
  by rewrite decide_True.
Qed.

Lemma UpdateImageBuildInCompose_popped e composeID i status result s c ib :
  Composes s !! composeID = Some c ->
  0 <= i -> ImageBuilds c !! Z.to_nat i = Some ib ->
  persists e s ->
  QueueStatus ib <> IBWaiting ->
  result_file_ok e result s ->
  UpdateImageBuildInCompose e composeID i status result s =
    match UpdateState c i status with
    | Ret (c', None) =>
        Ret (set_Composes
               (<[composeID := stamp_finished e i status c']> (Composes s))
               (with_result_file e composeID i result s), None)
    | Ret (_, Some err) =>
        Ret (with_result_file e composeID i result s,
             Some (InvalidRequestError
                     ("invalid state transition: " +:+ error_Error err)))
    | Panic m => Panic m
    | Fatal m => Fatal m
    | Blocked => Blocked
    end.
Proof.
  intros Hc Hi Hib Hp Hw Hfile. unfold UpdateImageBuildInCompose.
  set (s1 := with_result_file e composeID i result s).
  assert (Hp1 : persists e s1).
  { unfold s1, with_result_file. by destruct (stateDir s) eqn:?, result. }
  assert (Hwritten :
    match stateDir s, result with
    | Some dir, Some r =>
        if os_Create_ok e then
          inl (set_files (<[getImageBuildDirectory dir composeID i
                              +:+ "/result.json" := r]> (files s)) s)
        else inr (errorString ("cannot open result.json for job " +:+
                               uuid_String composeID))
    | _, _ => inl s
    end = inl s1).
  { unfold s1, with_result_file. unfold result_file_ok in Hfile.
    destruct (stateDir s) eqn:?, result; try done.
    destruct Hfile as [ ? | [ ? | -> ] ]; congruence. }
  destruct (UpdateState c i status) as [ [c' [err | ] ] | m | m | ] eqn:Hupd.
  - apply change_Ret; [|done].
    rewrite Hc, (index_lookup _ _ ib) by done. simpl.
    rewrite decide_False by done. rewrite Hwritten, Hupd. done.
  - apply UpdateState_Ret in Hupd as Hc'. destruct Hc' as (ib' & Hr & ->).
    apply change_Ret.
    + rewrite Hc, (index_lookup _ _ ib) by done. simpl.
      rewrite decide_False by done. rewrite Hwritten, Hupd. simpl.
      assert (Hcs : Composes s1 = Composes s).
      { unfold s1, with_result_file. by destruct (stateDir s), result. }
      rewrite Hcs. unfold stamp_finished.
      destruct (decide (status = IBFinished \/ status = IBFailed)); [|done].
      assert (Hl : <[Z.to_nat i := ib']> (ImageBuilds c) !! Z.to_nat i
                   = Some ib').
      { apply list_lookup_insert_eq. by eapply lookup_lt_Some. }
      simpl. rewrite Hl, (index_lookup _ _ ib') by done. done.
    + destruct Hp1 as [?|?]; [by left|by right].
  - unfold change. rewrite Hc, (index_lookup _ _ ib) by done. simpl.
    rewrite decide_False by done. rewrite Hwritten, Hupd. done.
  - unfold change. rewrite Hc, (index_lookup _ _ ib) by done. simpl.
    rewrite decide_False by done. rewrite Hwritten, Hupd. done.
  - unfold change. rewrite Hc, (index_lookup _ _ ib) by done. simpl.
    rewrite decide_False by done. rewrite Hwritten, Hupd. done.
Qed.

Lemma UpdateImageBuildInCompose_not_NotPending
    e composeID i status result s c ib :
  Composes s !! composeID = Some c ->
  0 <= i -> ImageBuilds c !! Z.to_nat i = Some ib ->
  QueueStatus ib <> IBWaiting ->
  forall s' message,
    UpdateImageBuildInCompose e composeID i status result s <>
      Ret (s', Some (NotPendingError message)).
Proof.
  intros Hc Hi Hib Hw s' message.
  unfold UpdateImageBuildInCompose, change.
  rewrite Hc, (index_lookup _ _ ib) by done. simpl.
  rewrite decide_False by done.
  destruct (stateDir s) as [dir|] eqn:Hdir, result as [r|];
    try destruct (os_Create_ok e); simpl;
    try rewrite Hdir; try (by destruct (db_Write_ok e));
    (destruct (UpdateState c i status) as [ [c' [err | ] ] | m | m | ];
     simpl; try done;
     [ try rewrite Hdir; by destruct (db_Write_ok e) | ];
     destruct (decide (status = IBFinished \/ status = IBFailed)); simpl;
     [ destruct (index (ImageBuilds c') i); simpl; try done | ];
     try rewrite Hdir; by destruct (db_Write_ok e)).
Qed.

(** C1, amended.  For a compose that is in the store and an index of one of
    its image builds: if the build is Waiting, [UpdateImageBuildInCompose]
    fails with [NotPendingError] and changes nothing; if the build is not
    Waiting, the call never fails with [NotPendingError] and, unless the
    result file cannot be created, its outcome is that of the state machine
    [Compose.UpdateState]: the compose it returns is stored (with
    [JobFinished] stamped for a final state), its error is wrapped in an
    [InvalidRequestError]. *)
Theorem UpdateImageBuildInCompose_guard
    e composeID i status result s c ib :
  Composes s !! composeID = Some c ->
  0 <= i -> ImageBuilds c !! Z.to_nat i = Some ib ->
  persists e s ->
  (QueueStatus ib = IBWaiting ->
     UpdateImageBuildInCompose e composeID i status result s =
       Ret (s, Some (NotPendingError "compose has not been popped"))) /\
  (QueueStatus ib <> IBWaiting ->
     (forall s' message,
        UpdateImageBuildInCompose e composeID i status result s <>
          Ret (s', Some (NotPendingError message))) /\
     (result_file_ok e result s ->
        UpdateImageBuildInCompose e composeID i status result s =
          match UpdateState c i status with
          | Ret (c', None) =>
              Ret (set_Composes
                     (<[composeID := stamp_finished e i status c']>
                        (Composes s))
                     (with_result_file e composeID i result s), None)
          | Ret (_, Some err) =>
              Ret (with_result_file e composeID i result s,
                   Some (InvalidRequestError
                           ("invalid state transition: "
                            +:+ error_Error err)))
          | Panic m => Panic m
          | Fatal m => Fatal m
          | Blocked => Blocked
          end)).
Proof.
  intros Hc Hi Hib Hp. split; [|split].
  - by eapply UpdateImageBuildInCompose_waiting.
  - by eapply UpdateImageBuildInCompose_not_NotPending.
  - by eapply UpdateImageBuildInCompose_popped.
Qed.

Lemma UpdateImageBuildInCompose_guard_witness :
  UpdateImageBuildInCompose scenario.env scenario.compose_id 0 IBFinished
      None (scenario.store_with IBWaiting) =
    Ret (scenario.store_with IBWaiting,
         Some (NotPendingError "compose has not been popped")) /\
  UpdateImageBuildInCompose scenario.env scenario.compose_id 0 IBFinished
      None (scenario.store_with IBRunning) =
    match UpdateState (scenario.compose_of IBRunning) 0 IBFinished with
    | Ret (c', None) =>
        Ret (set_Composes
               (<[scenario.compose_id :=
                    stamp_finished scenario.env 0 IBFinished c']>
                  (Composes (scenario.store_with IBRunning)))
               (scenario.store_with IBRunning), None)
    | Ret (_, Some err) =>
        Ret (scenario.store_with IBRunning,
             Some (InvalidRequestError
                     ("invalid state transition: " +:+ error_Error err)))
    | Panic m => Panic m
    | Fatal m => Fatal m
    | Blocked => Blocked
    end.
Proof.
  split.
  - apply (UpdateImageBuildInCompose_guard scenario.env scenario.compose_id
             0 IBFinished None (scenario.store_with IBWaiting)
             (scenario.compose_of IBWaiting) (scenario.build IBWaiting));
      [reflexivity|lia|reflexivity|by left|reflexivity].
  - apply (UpdateImageBuildInCompose_guard scenario.env scenario.compose_id
             0 IBFinished None (scenario.store_with IBRunning)
             (scenario.compose_of IBRunning) (scenario.build IBRunning));
      [reflexivity|lia|reflexivity|by left|discriminate|by left].
Defined.

(** C1 as stated fails: the compose exists, its image build is Waiting, and
    the request to move it to Running is answered with [NotPendingError]. *)
Lemma UpdateImageBuildInCompose_waiting_is_rejected :
  Composes (scenario.store_with IBWaiting) !! scenario.compose_id =
    Some (scenario.compose_of IBWaiting) /\
  ImageBuilds (scenario.compose_of IBWaiting) !! 0%nat =
    Some (scenario.build IBWaiting) /\
  QueueStatus (scenario.build IBWaiting) = IBWaiting /\
  UpdateImageBuildInCompose scenario.env scenario.compose_id 0 IBRunning
      None (scenario.store_with IBWaiting) =
    Ret (scenario.store_with IBWaiting,
         Some (NotPendingError "compose has not been popped")).
Proof. split_and!; vm_compute; reflexivity. Qed.

(** *** DeleteBlueprint *)

(** C10.  A successful [DeleteBlueprint] removes the committed blueprint
    and the workspace entry of that name and nothing else: the changes and
    the commit lists are as before, so [GetBlueprintChange] and
    [GetBlueprintChanges] answer as they did before the delete. *)
Theorem DeleteBlueprint_keeps_history e name s b :
  Blueprints s !! name = Some b ->
  persists e s ->
  exists s',
    DeleteBlueprint e name s = Ret (s', None) /\
    Blueprints s' = delete name (Blueprints s) /\
    Workspace s' = delete name (Workspace s) /\
    BlueprintsChanges s' = BlueprintsChanges s /\
    BlueprintsCommits s' = BlueprintsCommits s /\
    Composes s' = Composes s /\ Sources s' = Sources s /\
    (forall n, GetBlueprintChanges s' n = GetBlueprintChanges s n) /\
    (forall n commit,
       GetBlueprintChange s' n commit = GetBlueprintChange s n commit).
Proof.
  intros Hb Hp. eexists. split.
  - unfold DeleteBlueprint. apply change_Ret.
    + simpl. by rewrite Hb.
    + exact Hp.
  - by split_and!.
Qed.

Lemma DeleteBlueprint_keeps_history_witness :
  exists s',
    DeleteBlueprint scenario.env "bp"
      (scenario.store_of scenario.changes_5_2 ["aa"; "bb"; "cc"])
      = Ret (s', None) /\
    Blueprints s' !! "bp" = None /\
    Commit <$> GetBlueprintChanges s' "bp" = ["aa"; "bb"; "cc"].
Proof.
  destruct (DeleteBlueprint_keeps_history scenario.env "bp"
              (scenario.store_of scenario.changes_5_2 ["aa"; "bb"; "cc"])
              (scenario.bp "0.0.3"))
    as (s' & Hdel & Hbp & _ & _ & _ & _ & _ & Hchanges & _);
    [reflexivity|by left|].
  exists s'. split_and!; [done| |].
  - rewrite Hbp. apply lookup_delete_eq.
  - rewrite Hchanges. reflexivity.
Defined.

(** *** TagBlueprint *)

Lemma last_revision_snoc changes commits c r :
  last_revision changes commits r -> ~ tagged changes c ->
  last_revision changes (commits ++ [c]) r.
Proof.
  intros [[-> Hnone]|[Hr (earlier & c0 & later & -> & Hc0 & Hlater)]] Hc.
  - left. split; [done|]. intros c' [?| ->%list_elem_of_singleton]%elem_of_app;
      auto.
  - right. split; [done|]. exists earlier, c0, (later ++ [c]).
    split_and!; [by rewrite <- app_assoc|done|].
    intros c' [?| ->%list_elem_of_singleton]%elem_of_app; auto.
Qed.

Lemma latest_revision_last changes commits_backwards change :
  last_revision changes (reverse commits_backwards)
    (latest_revision changes commits_backwards change).1.
Proof.
  revert change.
  induction commits_backwards as [|c rc IH]; intros change; simpl.
  - left. split; [done|]. by intros c' ?%elem_of_nil.
  - rewrite reverse_cons.
    destruct (Revision (default Change_zero (changes !! c))) as [r|] eqn:Hr.
    + case_decide.
      * right. split; [done|]. exists (reverse rc), c, [].
        split_and!; [done|done|]. by intros c' ?%elem_of_nil.
      * apply last_revision_snoc; [apply IH|].
        intros (r' & Hr' & ?). unfold revision_of in Hr'. naive_solver lia.
    + apply last_revision_snoc; [apply IH|].
      intros (r' & Hr' & ?). unfold revision_of in Hr'. congruence.
Qed.

Lemma latest_revision_untagged changes commits_backwards change :
  (forall c, c ∈ commits_backwards -> revision_of changes c = None) ->
  (latest_revision changes commits_backwards change).1 = 0.
Proof.
  revert change.
  induction commits_backwards as [|c rc IH]; intros change Hnone; [done|].
  simpl. pose proof (Hnone c (list_elem_of_here _ _)) as Hc.
  unfold revision_of in Hc. rewrite Hc. apply IH.
  intros c' ?. apply Hnone. by right.
Qed.

(** The change that the loop leaves in its variable [change], when it runs
    at least once: the record of the last commit that carries a positive
    revision, the record of the first commit if none does. *)
Lemma latest_revision_record changes commits_backwards change :
  commits_backwards <> [] ->
  exists before c after,
    reverse commits_backwards = before ++ c :: after /\
    (forall c', c' ∈ after -> ~ tagged changes c') /\
    (tagged changes c \/ before = []) /\
    (latest_revision changes commits_backwards change).2 =
      default Change_zero (changes !! c).
Proof.
  revert change.
  induction commits_backwards as [|c0 rest IH]; intros change Hne; [done|].
  assert (Hrest :
    ~ tagged changes c0 ->
    exists before c after,
      reverse (c0 :: rest) = before ++ c :: after /\
      (forall c', c' ∈ after -> ~ tagged changes c') /\
      (tagged changes c \/ before = []) /\
      (latest_revision changes rest (default Change_zero (changes !! c0))).2 =
        default Change_zero (changes !! c)).
  { intros Hc0. rewrite reverse_cons. destruct rest as [|c1 rest].
    - exists [], c0, []. split_and!; [done| |by right|done].
      by intros c' ?%elem_of_nil.
    - destruct (IH (default Change_zero (changes !! c0)))
        as (before & c & after & Hrev & Hafter & Hc & Hrecord); [done|].
      exists before, c, (after ++ [c0]). split_and!; [|  |done|done].
      + by rewrite Hrev, <- app_assoc.
      + intros c' [?| ->%list_elem_of_singleton]%elem_of_app; auto. }
  simpl.
  destruct (Revision (default Change_zero (changes !! c0))) as [r|] eqn:Hr.
  - case_decide.
    + exists (reverse rest), c0, []. rewrite reverse_cons.
      split_and!; [done| | |done].
      * by intros c' ?%elem_of_nil.
      * left. by exists r.
    + apply Hrest. intros (r' & Hr' & ?). unfold revision_of in Hr'.
      naive_solver lia.
  - apply Hrest. intros (r' & Hr' & ?). unfold revision_of in Hr'.
    congruence.
Qed.

Lemma foldr_max_snoc (l : list Z) (x : Z) :
  foldr Z.max 0 (l ++ [x]) = Z.max (foldr Z.max 0 l) (Z.max x 0).
Proof. induction l as [|y l IH]; simpl; lia. Qed.

Lemma foldr_max_nonneg (l : list Z) : 0 <= foldr Z.max 0 l.
Proof. induction l; simpl; lia. Qed.

Lemma foldr_max_bound (l : list Z) (x : Z) :
  Forall (fun y => y <= x) l -> foldr Z.max 0 l <= Z.max x 0.
Proof. induction 1; simpl; lia. Qed.

(** Where the revisions grow along the commit list, the last positive one
    is the maximum. *)
Lemma latest_revision_max changes commits_backwards change :
  StronglySorted Z.le (revisions changes (reverse commits_backwards)) ->
  (latest_revision changes commits_backwards change).1 =
    spec_max_revision changes (reverse commits_backwards).
Proof.
  revert change. unfold spec_max_revision, revisions.
  induction commits_backwards as [|c rc IH]; intros change; [done|].
  rewrite reverse_cons, omap_app. simpl. unfold revision_of at 2 4.
  destruct (Revision (default Change_zero (changes !! c))) as [r|] eqn:Hr;
    simpl.
  - intros Hs. rewrite foldr_max_snoc.
    assert (Hle : foldr Z.max 0 (omap (revision_of changes) (reverse rc))
                  <= Z.max r 0).
    { apply foldr_max_bound, Forall_forall. intros y Hy.
      eapply (StronglySorted_app_1_elem_of Z.le); [exact Hs|done|].
      apply list_elem_of_singleton. done. }
    apply StronglySorted_app_1_l in Hs.
    pose proof (foldr_max_nonneg
                  (omap (revision_of changes) (reverse rc))).
    case_decide; [simpl; lia|]. rewrite IH by done. lia.
  - rewrite app_nil_r. apply IH.
Qed.

Lemma int_incr_small (n : Z) :
  - 2 ^ 63 <= n < 2 ^ 63 - 1 -> int_incr n = n + 1.
Proof.
  intros Hn. unfold int_incr.
  rewrite Z.mod_small; lia.
Qed.

(** The revision that [TagBlueprint] assigns.  For a store in which
    blueprint [name] exists and has a history whose last commit is
    [latest]: if [latest] already carries a revision, [TagBlueprint]
    returns nil and changes nothing; otherwise it stores under [latest] a
    change whose revision is one more (as a Go [int]) than the revision of
    the last commit that carries a positive one, 0 standing for none; this
    is 1 when no commit has a revision, and one more than the maximum of
    the revisions when they grow along the commit list; no other entry of
    the store changes, and tagging again right away changes nothing.
    Which change it is that gets the revision is settled further down. *)
Lemma TagBlueprint_revision e name s b changes commits latest :
  Blueprints s !! name = Some b ->
  BlueprintsChanges s !! name = Some changes ->
  BlueprintsCommits s !! name = Some commits ->
  last commits = Some latest ->
  persists e s ->
  (is_Some (revision_of changes latest) ->
     TagBlueprint e name s = Ret (s, None)) /\
  (revision_of changes latest = None ->
     exists r change,
       last_revision changes commits r /\
       Revision change = Some (int_incr r) /\
       ((forall c, c ∈ commits -> revision_of changes c = None) ->
          Revision change = Some 1) /\
       (StronglySorted Z.le (revisions changes commits) ->
          r = spec_max_revision changes commits) /\
       let s' := set_BlueprintsChanges
                   (<[name := <[latest := change]> changes]>
                      (BlueprintsChanges s)) s in
       TagBlueprint e name s = Ret (s', None) /\
       TagBlueprint e name s' = Ret (s', None)).
Proof.
  intros Hb Hchanges Hcommits Hlast Hp.
  assert (Hcs : commits_of s name = commits)
    by (unfold commits_of; by rewrite Hcommits).
  assert (Hch : changes_of s name = changes)
    by (unfold changes_of; by rewrite Hchanges).
  split.
  - intros [r Hr]. unfold TagBlueprint. apply change_Ret; [|done].
    rewrite Hb, Hcs, Hlast. unfold change_of. rewrite Hch.
    unfold revision_of in Hr. by rewrite Hr.
  - intros Hnone.
    destruct (latest_revision changes (reverse commits) Change_zero)
      as [r change] eqn:Hloop.
    exists r, (set_Revision (Some (int_incr r)) change).
    pose proof (latest_revision_last changes (reverse commits) Change_zero)
      as Hspec.
    rewrite reverse_involutive, Hloop in Hspec.
    split_and!; [done|done| | |].
    + intros Hall. simpl. f_equal.
      pose proof (latest_revision_untagged changes (reverse commits)
                    Change_zero) as H0.
      rewrite Hloop in H0. simpl in H0. rewrite H0; [done|].
      intros c Hc. apply Hall. by apply elem_of_reverse.
    + intros Hsorted.
      pose proof (latest_revision_max changes (reverse commits) Change_zero)
        as Hmax.
      rewrite reverse_involutive, Hloop in Hmax. by apply Hmax.
    + simpl. split.
      * unfold TagBlueprint. apply change_Ret; [|done].
        rewrite Hb, Hcs, Hlast. unfold change_of. rewrite Hch.
        unfold revision_of in Hnone. rewrite Hnone, Hloop, Hchanges. done.
      * unfold TagBlueprint. apply change_Ret; [|done].
        simpl. rewrite Hb.
        unfold commits_of, change_of, changes_of. simpl.
        rewrite Hcommits, lookup_insert_eq. simpl.
        rewrite Hlast, lookup_insert_eq. done.
Qed.

Lemma TagBlueprint_revision_witness :
  exists s',
    TagBlueprint scenario.env "bp"
      (scenario.store_of scenario.changes_untagged ["aa"; "bb"])
      = Ret (s', None) /\
    revision_of (changes_of s' "bp") "bb" = Some 1 /\
    TagBlueprint scenario.env "bp" s' = Ret (s', None).
Proof.
  destruct (TagBlueprint_revision scenario.env "bp"
              (scenario.store_of scenario.changes_untagged ["aa"; "bb"])
              (scenario.bp "0.0.3") scenario.changes_untagged
              ["aa"; "bb"] "bb")
    as [_ Htag]; [reflexivity|reflexivity|reflexivity|reflexivity|by left|].
  destruct Htag as (r & change & _ & _ & Hone & _ & Hs' & Hagain);
    [reflexivity|].
  eexists. split_and!; [exact Hs'| |exact Hagain].
  unfold revision_of, changes_of. simpl.
  rewrite lookup_insert_eq. simpl. rewrite lookup_insert_eq. simpl.
  apply Hone. intros c Hc.
  repeat (apply elem_of_cons in Hc as [->|Hc]; [reflexivity|]).
  by apply elem_of_nil in Hc.
Defined.

(** C2.  The change that [TagBlueprint] tags is not that of the latest
    commit.  For a store in which blueprint [name] exists, its history is
    [earlier ++ [latest]] with at least one earlier commit, every commit
    of the history is recorded under its own hash, [latest] is none of the
    earlier commits and carries no revision: [TagBlueprint] returns nil,
    and [GetBlueprintChange] for [latest] then returns the record of an
    earlier commit [c] with the new revision, where [c] is the last commit
    that carries a positive revision, or the first commit of the history
    if none does.  That record names commit [c], not [latest]; so what is
    stored under [latest] is not the change of [latest] with a revision
    attached, whatever the revision. *)
Theorem TagBlueprint_stores_earlier_record e name s b changes earlier latest :
  Blueprints s !! name = Some b ->
  BlueprintsChanges s !! name = Some changes ->
  BlueprintsCommits s !! name = Some (earlier ++ [latest]) ->
  earlier <> [] ->
  latest ∉ earlier ->
  (forall c, c ∈ earlier ++ [latest] ->
     exists record, changes !! c = Some record /\ Commit record = c) ->
  revision_of changes latest = None ->
  persists e s ->
  exists s' before c after record r,
    TagBlueprint e name s = Ret (s', None) /\
    earlier = before ++ c :: after /\
    (forall c', c' ∈ after -> ~ tagged changes c') /\
    (tagged changes c \/ before = []) /\
    changes !! c = Some record /\
    Commit record = c /\
    c <> latest /\
    last_revision changes (earlier ++ [latest]) r /\
    GetBlueprintChange s' name latest =
      (Some (set_Revision (Some (int_incr r)) record), None) /\
    (forall revision,
       change_of s' name latest <>
         set_Revision revision (change_of s name latest)).
Proof.
  intros Hb Hchanges Hcommits Hne Hfresh Hkeyed Hnone Hp.
  assert (Hcs : commits_of s name = earlier ++ [latest])
    by (unfold commits_of; by rewrite Hcommits).
  assert (Hch : changes_of s name = changes)
    by (unfold changes_of; by rewrite Hchanges).
  destruct (latest_revision changes (reverse (earlier ++ [latest]))
              Change_zero) as [r change] eqn:Hloop.
  pose proof (latest_revision_last changes (reverse (earlier ++ [latest]))
                Change_zero) as Hr.
  rewrite reverse_involutive, Hloop in Hr.
  destruct (latest_revision_record changes (reverse earlier)
              (default Change_zero (changes !! latest)))
    as (before & c & after & Hrev & Hafter & Hc & Hrecord).
  { intros Hnil. apply Hne. by rewrite <- (reverse_involutive earlier), Hnil. }
  rewrite reverse_involutive in Hrev.
  assert (Hchange : change = default Change_zero (changes !! c)).
  { rewrite <- Hrecord. rewrite reverse_app in Hloop. simpl in Hloop.
    unfold revision_of in Hnone. rewrite Hnone in Hloop.
    by rewrite Hloop. }
  assert (Hin : c ∈ earlier).
  { rewrite Hrev. apply elem_of_app. right. by left. }
  destruct (Hkeyed c) as (record & Hlookup & Hcommit).
  { apply elem_of_app. by left. }
  destruct (Hkeyed latest) as (own & Hown & Hown_commit).
  { apply elem_of_app. right. by left. }
  rewrite Hlookup in Hchange. simpl in Hchange. subst change.
  assert (Hc_latest : c <> latest) by (by intros ->).
  exists (set_BlueprintsChanges
            (<[name := <[latest := set_Revision (Some (int_incr r)) record]>
                         changes]> (BlueprintsChanges s)) s),
    before, c, after, record, r.
  split_and!; [|done|done|done|done|done|done|exact Hr| |].
  - unfold TagBlueprint. apply change_Ret; [|done].
    rewrite Hb, Hcs, last_snoc. unfold change_of. rewrite Hch.
    unfold revision_of in Hnone. rewrite Hnone, Hloop, Hchanges. done.
  - unfold GetBlueprintChange. simpl.
    by rewrite lookup_insert_eq, lookup_insert_eq.
  - intros revision. unfold change_of, changes_of. simpl.
    rewrite lookup_insert_eq. simpl. rewrite lookup_insert_eq, Hchanges.
    simpl. rewrite Hown. simpl. intros Heq.
    apply (f_equal Commit) in Heq. simpl in Heq. congruence.
Qed.

Lemma TagBlueprint_stores_earlier_record_witness :
  exists s',
    TagBlueprint scenario.env "bp"
      (scenario.store_of scenario.changes_untagged ["aa"; "bb"])
      = Ret (s', None) /\
    forall revision,
      change_of s' "bp" "bb" <>
        set_Revision revision
          (change_of
             (scenario.store_of scenario.changes_untagged ["aa"; "bb"])
             "bp" "bb").
Proof.
  destruct (TagBlueprint_stores_earlier_record scenario.env "bp"
              (scenario.store_of scenario.changes_untagged ["aa"; "bb"])
              (scenario.bp "0.0.3") scenario.changes_untagged ["aa"] "bb")
    as (s' & before & c & after & record & r & Htag & _ & _ & _ & _ & _ & _
        & _ & _ & Hrecord);
    [reflexivity|reflexivity|reflexivity|discriminate| | |reflexivity|
     by left|].
  - intros Hin. apply list_elem_of_singleton in Hin. discriminate Hin.
  - intros c Hc.
    repeat (apply elem_of_cons in Hc as [->|Hc];
            [eexists; split; reflexivity|]).
    by apply elem_of_nil in Hc.
  - exists s'. split; [exact Htag|exact Hrecord].
Defined.

(** The same from a new store: two pushes and a tag.  The history then
    lists the first commit twice, and the record of the second commit is
    gone. *)
Lemma TagBlueprint_after_two_pushes :
  exists s1 s2 s3,
    PushBlueprint (H := scenario.methods) scenario.env (inl "aa")
      "2020-05-01T10:00:00Z" (scenario.bp "0.0.1") "message aa"
      scenario.store_new = Ret (s1, None) /\
    PushBlueprint (H := scenario.methods) scenario.env (inl "bb")
      "2020-05-01T10:00:01Z" (scenario.bp "0.0.2") "message bb" s1
      = Ret (s2, None) /\
    GetBlueprintChanges s2 "bp" =
      [scenario.commit "aa" "2020-05-01T10:00:00Z" "0.0.1" None;
       scenario.commit "bb" "2020-05-01T10:00:01Z" "0.0.2" None] /\
    TagBlueprint scenario.env "bp" s2 = Ret (s3, None) /\
    GetBlueprintChanges s3 "bp" =
      [scenario.commit "aa" "2020-05-01T10:00:00Z" "0.0.1" None;
       scenario.commit "aa" "2020-05-01T10:00:00Z" "0.0.1" (Some 1)].
Proof. do 3 eexists. split_and!; reflexivity. Qed.

(** On the sample history the change stored under the latest commit is
    the record of the first commit with revision 1. *)
Lemma TagBlueprint_replaces_latest_record :
  exists s',
    TagBlueprint scenario.env "bp"
      (scenario.store_of scenario.changes_untagged ["aa"; "bb"])
      = Ret (s', None) /\
    change_of s' "bp" "bb" =
      scenario.commit "aa" "2020-05-01T10:00:00Z" "0.0.1" (Some 1).
Proof. eexists. split; reflexivity. Qed.

(** *** New *)

#[global] Instance scenario_versions_order :
  semver.SemverOrder scenario.versions.
Proof.
  split; simpl.
  - apply string_ltb_asym.
  - apply string_ltb_negtrans.
Qed.

Lemma fail_unfinished_length (builds : list ImageBuild) :
  length (fail_unfinished <$> builds) = length builds.
Proof. apply length_fmap. Qed.

Lemma fail_loaded_composes_panics visit composes id c :
  (id, c) ∈ visit -> ImageBuilds c = [] ->
  fail_loaded_composes visit composes =
    Panic "the was a compose with zero image builds, that is forbidden".
Proof.
  intros Hin Hempty. revert composes.
  induction visit as [|[id0 c0] visit IH]; intros composes;
    [by apply elem_of_nil in Hin|].
  simpl. case_decide; [done|].
  apply elem_of_cons in Hin as [[= <- <-]|Hin]; [by rewrite Hempty in *|].
  by apply IH.
Qed.

Lemma fail_loaded_composes_returns visit composes :
  (forall id c, (id, c) ∈ visit -> ImageBuilds c <> []) ->
  exists composes', fail_loaded_composes visit composes = Ret composes'.
Proof.
  revert composes.
  induction visit as [|[id0 c0] visit IH]; intros composes Hne;
    [by eexists|].
  simpl. rewrite decide_False.
  - apply IH. intros id c ?. apply (Hne id). by right.
  - specialize (Hne id0 c0 (list_elem_of_here _ _)).
    by destruct (ImageBuilds c0).
Qed.

Lemma fail_loaded_composes_nonempty visit composes composes' :
  fail_loaded_composes visit composes = Ret composes' ->
  (forall id c, composes !! id = Some c ->
     ImageBuilds c <> [] \/ exists c0, (id, c0) ∈ visit) ->
  forall id c, composes' !! id = Some c -> ImageBuilds c <> [].
Proof.
  revert composes.
  induction visit as [|[id0 c0] visit IH]; intros composes; simpl.
  - intros [= <-] Hinv id c Hc.
    destruct (Hinv id c Hc) as [?|[c1 Hin]]; [done|].
    by apply elem_of_nil in Hin.
  - case_decide as Hlen; [done|]. intros Hrun Hinv.
    apply (IH _ Hrun). intros id c Hc.
    destruct (decide (id = id0)) as [->|Hne].
    + rewrite lookup_insert_eq in Hc. injection Hc as <-. left. simpl.
      intros Hnil. apply Hlen.
      by rewrite <- (fail_unfinished_length (ImageBuilds c0)), Hnil.
    + rewrite lookup_insert_ne in Hc by done.
      destruct (Hinv id c Hc) as [?|[c1 Hin]]; [by left|right].
      apply elem_of_cons in Hin as [[= ? ?]|Hin]; [done|by eexists].
Qed.

Section with_semver.
Context {SV : semver.Semver}.

(** C9.  When the state document read by [New] holds a compose without
    image builds, [New] panics; when it holds none, [New] returns; and in
    every store that [New] returns each compose has at least one image
    build. *)
Theorem New_rejects_compose_without_builds (e : Env) :
  range_order_ok (shuffle e) ->
  (forall dir s0 id c,
     os_Mkdir_ok e = true -> db_Read e = Some s0 ->
     Composes s0 !! id = Some c -> ImageBuilds c = [] ->
     New e (Some dir) =
       Panic "the was a compose with zero image builds, that is forbidden")
  /\
  (forall dir s0,
     os_Mkdir_ok e = true -> db_Read e = Some s0 ->
     (forall id c, Composes s0 !! id = Some c -> ImageBuilds c <> []) ->
     exists st, New e (Some dir) = Ret st) /\
  (forall stateDir st,
     New e stateDir = Ret st ->
     forall id c, Composes st !! id = Some c -> ImageBuilds c <> []).
Proof.
  intros Hshuffle. split_and!.
  - intros dir s0 id c Hmk Hrd Hc Hempty. unfold New.
    rewrite Hmk, Hrd. simpl.
    rewrite (fail_loaded_composes_panics _ _ id c); [done| |done].
    rewrite (Hshuffle _ _). by apply elem_of_map_to_list.
  - intros dir s0 Hmk Hrd Hne. unfold New. rewrite Hmk, Hrd. simpl.
    destruct (fail_loaded_composes_returns
                (shuffle e _ (map_to_list (Composes s0))) (Composes s0))
      as [composes' ->].
    + intros id c Hin. rewrite (Hshuffle _ _) in Hin.
      apply elem_of_map_to_list in Hin. by eapply Hne.
    + by eexists.
  - intros stateDir st Hnew id c Hc. unfold New in Hnew.
    set (loaded := match stateDir with
                   | Some _ =>
                       if os_Mkdir_ok e then
                         match db_Read e with
                         | Some s => Ret s
                         | None => Fatal "cannot read state"
                         end
                       else Fatal "cannot create output directory"
                   | None => Ret Store_zero
                   end) in Hnew.
    destruct loaded as [ s0 | m | m | ]; simpl in Hnew; try done.
    destruct (fail_loaded_composes
                (shuffle e _ (map_to_list (Composes s0))) (Composes s0))
      as [ composes' | m | m | ] eqn:Hloop; simpl in Hnew; try done.
    injection Hnew as <-. simpl in Hc.
    eapply (fail_loaded_composes_nonempty _ _ _ Hloop); [|exact Hc].
    intros id' c' Hc'. right. exists c'.
    rewrite (Hshuffle _ _). by apply elem_of_map_to_list.
Qed.

Context {SVO : semver.SemverOrder SV}.

Lemma change_less_asym ci cj :
  change_less ci cj = true -> change_less cj ci = false.
Proof.
  unfold change_less. repeat case_decide; try congruence.
  - apply semver.LessThan_asym.
  - apply string_ltb_asym.
Qed.

Lemma string_ltb_total (a b : string) :
  a <> b -> String.ltb a b = false -> String.ltb b a = true.
Proof.
  unfold String.ltb. intros Hne.
  rewrite (String.compare_antisym b a).
  destruct (String.compare a b) eqn:E; simpl; try done.
  by apply String.compare_eq_iff in E.
Qed.

Lemma change_less_negtrans ci cj ck :
  change_less ci cj = false -> change_less cj ck = false ->
  change_less ci ck = false.
Proof.
  unfold change_less. repeat case_decide; try congruence.
  - apply semver.LessThan_negtrans.
  - intros Hij Hjk. exfalso.
    assert (Timestamp ci <> Timestamp cj) as Hne by done.
    apply (string_ltb_total _ _ Hne) in Hij. congruence.
  - intros Hij Hjk. by eapply string_ltb_negtrans.
Qed.

(** The comparison of [New] orders the changes as the specification says. *)
Lemma not_after_change_less c1 c2 :
  not_after change_less c1 c2 -> spec_not_later c1 c2.
Proof.
  unfold not_after, change_less, spec_not_later. case_decide as Hts.
  - intros Hv. right. by split.
  - intros Hlt. left. apply string_ltb_total; [done|exact Hlt].
Qed.

Lemma StronglySorted_weaken {A} (R R' : relation A) l :
  (forall x y, R x y -> R' x y) -> StronglySorted R l -> StronglySorted R' l.
Proof.
  intros HR. induction 1 as [|x l Hs IH Hx]; constructor; [done|].
  eapply Forall_impl; [exact Hx|]. intros y. apply HR.
Qed.

Lemma map_values_by_key {V} (m : gmap string V) (d : V) :
  (fun k => default d (m !! k)) <$> (map_to_list m).*1 = (map_to_list m).*2.
Proof.
  rewrite <- list_fmap_compose. apply list_fmap_ext.
  intros i [k v] Hkv. apply list_elem_of_lookup_2, elem_of_map_to_list in Hkv.
  simpl. by rewrite Hkv.
Qed.

Lemma fmap_fixed {A} (f : A -> A) (l : list A) :
  (forall x, x ∈ l -> f x = x) -> f <$> l = l.
Proof.
  induction l as [|x l IH]; intros Hf; [done|].
  rewrite fmap_cons, (Hf x) by left. f_equal. apply IH.
  intros y ?. apply Hf. by right.
Qed.

Lemma populate_commits_lookup sh visit
    (changes : gmap string (gmap string Change))
    (commits : gmap string (list string)) name :
  NoDup visit ->
  populate_commits sh visit changes commits !! name =
    if decide (name ∈ visit /\
               size (default ∅ (changes !! name)) ≠
                 length (default [] (commits !! name)))
    then Some (rebuild_commits sh (default ∅ (changes !! name)))
    else commits !! name.
Proof.
  intros Hnd. revert commits.
  induction Hnd as [|n visit Hn Hnd IH]; intros commits;
    cbn [populate_commits].
  - rewrite decide_False; [done|]. intros [?%elem_of_nil _]. done.
  - rewrite IH. destruct (decide (name = n)) as [->|Hne].
    + rewrite (decide_False (P := n ∈ visit /\ _)) by (by intros [? _]).
      destruct (decide (size (default ∅ (changes !! n)) ≠
                        length (default [] (commits !! n)))) as [Hm|Hm].
      * rewrite lookup_insert_eq. rewrite decide_True; [done|].
        split; [by left|done].
      * rewrite decide_False; [done|]. by intros [_ ?].
    + assert (Heq :
                (if decide (size (default ∅ (changes !! n)) ≠
                            length (default [] (commits !! n)))
                 then <[n := rebuild_commits sh (default ∅ (changes !! n))]>
                        commits
                 else commits) !! name = commits !! name).
      { destruct (decide (size (default ∅ (changes !! n)) ≠
                          length (default [] (commits !! n))));
          [by apply lookup_insert_ne|done]. }
      rewrite Heq.
      apply decide_ext. rewrite elem_of_cons. tauto.
Qed.

(** C6.  When [New] reads a state document in which the changes
    of blueprint [name] and its commit list differ in length (and no
    compose is without image builds, so that [New] returns), the commit
    list of [name] in the new store lists the commits of a rearrangement of
    those changes in which every change precedes only changes that are not
    earlier by timestamp, nor, at equal timestamps, smaller by semantic
    version (an unparsable version counting as 0.0.0).  Every change being
    stored under its own commit hash, as [PushBlueprint] files it,
    [GetBlueprintChanges] returns exactly that rearrangement. *)
Theorem New_rebuilds_commits (e : Env) dir s0 name
    (changes : gmap string Change) :
  os_Mkdir_ok e = true ->
  db_Read e = Some s0 ->
  range_order_ok (shuffle e) ->
  (forall id c, Composes s0 !! id = Some c -> ImageBuilds c <> []) ->
  BlueprintsChanges s0 !! name = Some changes ->
  size changes ≠ length (commits_of s0 name) ->
  exists st sorted,
    New e (Some dir) = Ret st /\
    sorted ≡ₚ (map_to_list changes).*2 /\
    StronglySorted spec_not_later sorted /\
    BlueprintsCommits st !! name = Some (Commit <$> sorted) /\
    BlueprintsChanges st !! name = Some changes /\
    ((forall k c, changes !! k = Some c -> Commit c = k) ->
       GetBlueprintChanges st name = sorted).
Proof.
  intros Hmk Hrd Hshuffle Hne Hchanges Hlen.
  destruct (fail_loaded_composes_returns
              (shuffle e _ (map_to_list (Composes s0))) (Composes s0))
    as [composes' Hloop].
  { intros id c Hin. rewrite (Hshuffle _ _) in Hin.
    apply elem_of_map_to_list in Hin. by eapply Hne. }
  set (sorted :=
         sort_Slice change_less
           ((fun commit => default Change_zero (changes !! commit))
              <$> shuffle e _ (map_to_list changes).*1)).
  assert (Hperm : sorted ≡ₚ (map_to_list changes).*2).
  { unfold sorted. rewrite sort_Slice_perm, (Hshuffle _ _).
    by rewrite map_values_by_key. }
  assert (Hcommits :
    populate_commits (shuffle e)
      (shuffle e _ (map_to_list (BlueprintsChanges s0)).*1)
      (BlueprintsChanges s0) (BlueprintsCommits s0) !! name
    = Some (Commit <$> sorted)).
  { rewrite populate_commits_lookup.
    - rewrite Hchanges. simpl. rewrite decide_True; [done|]. split.
      + rewrite (Hshuffle _ _). apply list_elem_of_fmap.
        exists (name, changes). split; [done|].
        by apply elem_of_map_to_list.
      + exact Hlen.
    - rewrite (Hshuffle _ _). apply NoDup_fst_map_to_list. }
  eexists _, sorted. split_and!.
  - unfold New. rewrite Hmk, Hrd. simpl. rewrite Hloop. simpl. reflexivity.
  - exact Hperm.
  - eapply StronglySorted_weaken; [apply not_after_change_less|].
    apply sort_Slice_sorted.
    + apply change_less_asym.
    + apply change_less_negtrans.
  - exact Hcommits.
  - exact Hchanges.
  - intros Hkeys. unfold GetBlueprintChanges, commits_of, change_of, changes_of.
    simpl. rewrite Hcommits, Hchanges. simpl.
    rewrite <- list_fmap_compose. apply fmap_fixed.
    intros c Hc. rewrite Hperm in Hc.
    apply list_elem_of_fmap in Hc as [[k c'] [-> Hkc]].
    apply elem_of_map_to_list in Hkc. simpl.
    by rewrite (Hkeys _ _ Hkc), Hkc.
Qed.

End with_semver.

Lemma New_rejects_compose_without_builds_witness :
  New (SV := scenario.versions)
      (scenario.env_reading scenario.store_empty_compose)
      (Some "/var/lib/osbuild-composer") =
    Panic "the was a compose with zero image builds, that is forbidden".
Proof.
  destruct (New_rejects_compose_without_builds (SV := scenario.versions)
              (scenario.env_reading scenario.store_empty_compose)
              range_in_order_ok) as [Hpanic _].
  apply (Hpanic _ scenario.store_empty_compose scenario.compose_id
           {| Compose_Blueprint := None; ImageBuilds := [] |});
    reflexivity.
Defined.

Lemma New_rebuilds_commits_witness :
  exists st sorted,
    New (SV := scenario.versions)
        (scenario.env_reading
           (scenario.store_of scenario.changes_same_second []))
        (Some "/var/lib/osbuild-composer") = Ret st /\
    sorted ≡ₚ (map_to_list scenario.changes_same_second).*2 /\
    StronglySorted (spec_not_later (SV := scenario.versions)) sorted /\
    BlueprintsCommits st !! "bp" = Some (Commit <$> sorted) /\
    BlueprintsChanges st !! "bp" = Some scenario.changes_same_second /\
    ((forall k c, scenario.changes_same_second !! k = Some c -> Commit c = k)
     -> GetBlueprintChanges st "bp" = sorted).
Proof.
  apply (New_rebuilds_commits (SV := scenario.versions)
           (scenario.env_reading
              (scenario.store_of scenario.changes_same_second []))
           "/var/lib/osbuild-composer"
           (scenario.store_of scenario.changes_same_second [])
           "bp" scenario.changes_same_second).
  - reflexivity.
  - reflexivity.
  - exact range_in_order_ok.
  - intros id c Hc. simpl in Hc. by rewrite lookup_empty in Hc.
  - reflexivity.
  - vm_compute. discriminate.
Defined.

(** Three commits of one second come back ordered by timestamp, then by
    version. *)
Lemma New_orders_same_second :
  exists st,
    New (SV := scenario.versions)
        (scenario.env_reading
           (scenario.store_of scenario.changes_same_second []))
        (Some "/var/lib/osbuild-composer") = Ret st /\
    Commit <$> GetBlueprintChanges st "bp" = ["cc"; "bb"; "aa"].
Proof. eexists. split; vm_compute; reflexivity. Qed.

End store_facts.

(** ** The job queue *)
Module fsjobqueue_facts.
Import jobqueue fsjobqueue.

Lemma countFinishedJobs_from_missing q ids n id err :
  id ∈ ids -> readJob q id = inr err ->
  exists err', countFinishedJobs_from q ids n = inr err'.
Proof.
  intros Hin Hread. revert n.
  induction ids as [|id0 ids IH]; intros n; [by apply elem_of_nil in Hin|].
  simpl. destruct (readJob q id0) as [j|err0] eqn:Hid0; [|by eexists].
  apply elem_of_cons in Hin as [->|Hin]; [congruence|]. by apply IH.
Qed.

(** [uniqueUUIDList] keeps the elements of its argument, each once. *)
Lemma uniqueUUIDList_elem_of shuffle ids id :
  range_order_ok shuffle ->
  id ∈ uniqueUUIDList shuffle ids <-> id ∈ ids.
Proof.
  intros Hshuffle. unfold uniqueUUIDList.
  rewrite sort_Slice_perm, (Hshuffle _ _), elem_of_elements.
  apply elem_of_list_to_set.
Qed.

Lemma uniqueUUIDList_NoDup shuffle ids :
  range_order_ok shuffle -> NoDup (uniqueUUIDList shuffle ids).
Proof.
  intros Hshuffle. unfold uniqueUUIDList.
  rewrite sort_Slice_perm, (Hshuffle _ _). apply NoDup_elements.
Qed.

(** C5.  Whenever [Enqueue] returns an error, the id it returns is
    [uuid.Nil] and the queue (the stored jobs, the pending channels, the
    dependants) is as it was; and it does return an error when the
    arguments do not marshal, when a dependency is not a stored job, and
    when the job cannot be written. *)
Theorem Enqueue_failure_changes_nothing {A} `{Marshal A}
    (e : Env) (q : fsJobQueue) (jobType : string) (args : A)
    (dependencies : list UUID) :
  (forall q' id err,
     Enqueue e q jobType args dependencies = Ret (q', (id, Some err)) ->
     id = uuid_Nil /\ q' = q) /\
  (json_Marshal args = None ->
     exists err,
       Enqueue e q jobType args dependencies = Ret (q, (uuid_Nil, Some err)))
  /\
  (forall dep,
     range_order_ok (shuffle e) ->
     is_Some (json_Marshal args) ->
     dep ∈ dependencies -> db q !! uuid_String dep = None ->
     exists err,
       Enqueue e q jobType args dependencies = Ret (q, (uuid_Nil, Some err)))
  /\
  (db_Write_ok e = false ->
     exists err,
       Enqueue e q jobType args dependencies = Ret (q, (uuid_Nil, Some err))).
Proof.
  unfold Enqueue. split_and!.
  - intros q' id err.
    destruct (json_Marshal args) as [raw|]; [|by intros [= <- <- _]].
    cbn [Dependencies set_Args].
    destruct (countFinishedJobs q _) as [finished|err0];
      [|by intros [= <- <- _]].
    destruct (db_Write_ok e); [|by intros [= <- <- _]].
    case_decide; [|done].
    cbn [Id JobType set_Args].
    destruct (send _ _ _); simpl; done.
  - intros ->. by eexists.
  - intros dep Hshuffle [raw ->] Hdep Hmissing. cbn [Dependencies set_Args].
    destruct (countFinishedJobs_from_missing q
                (uniqueUUIDList (shuffle e) dependencies) 0 dep ErrNotExist)
      as [err Herr].
    + by apply uniqueUUIDList_elem_of.
    + unfold readJob. by rewrite Hmissing.
    + unfold countFinishedJobs. rewrite Herr. by eexists.
  - intros Hw. destruct (json_Marshal args) as [raw|]; [|by eexists].
    destruct (countFinishedJobs q _) as [finished|err0]; [|by eexists].
    rewrite Hw. by eexists.
Qed.

Lemma Enqueue_failure_changes_nothing_witness :
  (exists err,
     Enqueue (H := scenario.chan_marshal)
       (scenario.queue_env scenario.job_c range_in_order)
       scenario.queue_a_b "test" scenario.make_chan [] =
       Ret (scenario.queue_a_b, (uuid_Nil, Some err))) /\
  (exists err,
     Enqueue (H := scenario.raw_marshal)
       (scenario.queue_env scenario.job_c range_in_order)
       scenario.queue_new "test" "null" [scenario.job_a] =
       Ret (scenario.queue_new, (uuid_Nil, Some err))).
Proof.
  split.
  - destruct (Enqueue_failure_changes_nothing (H := scenario.chan_marshal)
                (scenario.queue_env scenario.job_c range_in_order)
                scenario.queue_a_b "test" scenario.make_chan [])
      as (_ & Hmarshal & _ & _).
    apply Hmarshal. reflexivity.
  - destruct (Enqueue_failure_changes_nothing (H := scenario.raw_marshal)
                (scenario.queue_env scenario.job_c range_in_order)
                scenario.queue_new "test" "null" [scenario.job_a])
      as (_ & _ & Hdep & _).
    apply (Hdep scenario.job_a).
    + exact range_in_order_ok.
    + by eexists.
    + by left.
    + reflexivity.
Defined.

(** *** The dependency list *)

(** The comparison of [uniqueUUIDList] holds as soon as some byte of the
    first id is smaller than the same byte of the second: for these two
    ids it holds in both directions. *)
Lemma uuid_less_both_ways :
  uuid_less scenario.job_a scenario.job_b = true /\
  uuid_less scenario.job_b scenario.job_a = true.
Proof. split; reflexivity. Qed.

(** C3 fails on the code.  [Enqueue] with the dependencies [job_a] and
    [job_b], both stored jobs, succeeds; when [range] visits [job_b]
    before [job_a], the dependency list of the stored job is
    [[job_a; job_b]], which is not ascending: [job_b] is the smaller id. *)
Theorem Enqueue_dependencies_not_sorted :
  exists q' j,
    Enqueue (H := scenario.raw_marshal)
      (scenario.queue_env scenario.job_c range_reversed)
      scenario.queue_a_b "test" "null" [scenario.job_a; scenario.job_b]
      = Ret (q', (scenario.job_c, None)) /\
    db q' !! uuid_String scenario.job_c = Some (Doc j) /\
    Dependencies j = [scenario.job_a; scenario.job_b] /\
    spec_uuid_lt scenario.job_b scenario.job_a = true /\
    ~ spec_sorted_set (Dependencies j).
Proof.
  eexists _, _. split_and!; [vm_compute; reflexivity..|].
  intros Hs. apply Sorted_inv in Hs as [_ Hhd].
  apply HdRel_inv in Hhd. vm_compute in Hhd. discriminate.
Qed.

(** The same call, with the same dependencies, stores another list when
    [range] visits the ids in the other order: the list is not a function
    of the set of dependencies. *)
Lemma Enqueue_dependencies_follow_range_order :
  exists q' j,
    Enqueue (H := scenario.raw_marshal)
      (scenario.queue_env scenario.job_c range_in_order)
      scenario.queue_a_b "test" "null" [scenario.job_a; scenario.job_b]
      = Ret (q', (scenario.job_c, None)) /\
    db q' !! uuid_String scenario.job_c = Some (Doc j) /\
    Dependencies j = [scenario.job_b; scenario.job_a].
Proof. eexists _, _. split_and!; vm_compute; reflexivity. Qed.

(** *** Enqueue, then Dequeue *)

Lemma uniqueUUIDList_nil shuffle :
  range_order_ok shuffle -> uniqueUUIDList shuffle [] = [].
Proof.
  intros Hshuffle. unfold uniqueUUIDList. simpl. rewrite elements_empty.
  pose proof (Hshuffle UUID []) as Hnil.
  apply Permutation_nil_r in Hnil. by rewrite Hnil.
Qed.

(** C7, amended.  Let the arguments marshal to [raw], and let no job of
    type [jobType] wait in its channel.  If the writes of the job succeed,
    the context is not canceled, and [raw] unmarshals into the out-argument
    to a value that marshals to [raw] again, then [Enqueue] without
    dependencies returns a new id, the following [Dequeue] of that type
    returns the same id, and the out-argument it leaves is equal to the
    arguments under deep JSON equality. *)
Theorem Enqueue_Dequeue_roundtrip {A B}
    `{MA : Marshal A} `{UB : Unmarshal B} `{MB : Marshal B}
    (e1 e2 : Env) (q : fsJobQueue) (jobType : string) (args : A)
    (raw : RawMessage) (out0 out : B) :
  json_Marshal args = Some raw ->
  json_Unmarshal raw out0 = Some out ->
  json_Marshal out = Some raw ->
  range_order_ok (shuffle e1) ->
  db_Write_ok e1 = true -> db_Write_ok e2 = true ->
  ctx_Err e2 = None -> ctx_Done e2 = None ->
  default [] (pending q !! jobType) = [] ->
  exists q1 q2,
    Enqueue e1 q jobType args [] = Ret (q1, (uuid_New e1, None)) /\
    Dequeue e2 q1 [jobType] out0 = Ret (q2, out, (uuid_New e1, None)) /\
    json_equal out args.
Proof.
  intros Hm Hu Hm' Hshuffle Hw1 Hw2 Hctx Hdone Hempty.
  pose (j := {| Id := uuid_New e1; JobType := jobType; Args := raw;
                Dependencies := []; Result := ""; Status := JobPending;
                QueuedAt := time_Now e1; StartedAt := 0; FinishedAt := 0 |}).
  pose (q1 := {| db := <[uuid_String (uuid_New e1) := Doc j]> (db q);
                 pending := <[jobType := [uuid_New e1]]> (pending q);
                 dependants := dependants q |}).
  assert (Henq : Enqueue e1 q jobType args [] = Ret (q1, (uuid_New e1, None))).
  { unfold Enqueue. rewrite Hm, uniqueUUIDList_nil by done.
    cbn [Dependencies set_Args countFinishedJobs countFinishedJobs_from].
    rewrite Hw1. cbn [Id JobType set_Args length].
    rewrite decide_True by done. unfold send, pendingChannel. simpl.
    destruct (pending q !! jobType) as [c|] eqn:Hc; simpl in *.
    - rewrite Hc. simpl. subst c. simpl. done.
    - rewrite lookup_insert_eq. simpl. by rewrite insert_insert_eq. }
  exists q1. eexists. split_and!; [exact Henq| |by exists raw].
  unfold Dequeue. rewrite Hctx. simpl.
  assert (Hq1 : pendingChannel q1 jobType = q1).
  { unfold pendingChannel, q1. simpl. by rewrite lookup_insert_eq. }
  rewrite Hq1. unfold ready_cases. rewrite Hdone. simpl.
  rewrite lookup_insert_eq. simpl.
  unfold readJob. simpl. rewrite lookup_insert_eq. cbn [Args j].
  rewrite Hu, Hw2. reflexivity.
Qed.

Lemma Enqueue_Dequeue_roundtrip_witness :
  exists q1 q2,
    Enqueue (H := scenario.raw_marshal)
      (scenario.queue_env scenario.job_a range_in_order)
      scenario.queue_new "fish" "[7]" [] =
      Ret (q1, (scenario.job_a, None)) /\
    Dequeue (H := scenario.raw_unmarshal)
      (scenario.queue_env scenario.job_b range_in_order)
      q1 ["fish"] "" = Ret (q2, "[7]", (scenario.job_a, None)) /\
    json_equal (H := scenario.raw_marshal) (H0 := scenario.raw_marshal)
      "[7]" "[7]".
Proof.
  apply (Enqueue_Dequeue_roundtrip
           (MA := scenario.raw_marshal) (UB := scenario.raw_unmarshal)
           (MB := scenario.raw_marshal)
           (scenario.queue_env scenario.job_a range_in_order)
           (scenario.queue_env scenario.job_b range_in_order)
           scenario.queue_new "fish" "[7]" "[7]" "" "[7]");
    try reflexivity.
  exact range_in_order_ok.
Defined.

(** C7 as stated fails: with a job of the type already waiting, the
    [Dequeue] that follows the [Enqueue] returns the id and the arguments
    of the job that waited, not those of the job just enqueued. *)
Lemma Dequeue_returns_the_oldest :
  exists q1 q2 q3 out,
    Enqueue (H := scenario.raw_marshal)
      (scenario.queue_env scenario.job_a range_in_order)
      scenario.queue_new "fish" "[7]" [] =
      Ret (q1, (scenario.job_a, None)) /\
    Enqueue (H := scenario.raw_marshal)
      (scenario.queue_env scenario.job_b range_in_order)
      q1 "fish" "[42]" [] = Ret (q2, (scenario.job_b, None)) /\
    Dequeue (H := scenario.raw_unmarshal)
      (scenario.queue_env scenario.job_c range_in_order)
      q2 ["fish"] "" = Ret (q3, out, (scenario.job_a, None)) /\
    scenario.job_a <> scenario.job_b /\
    out = "[7]" /\
    ~ json_equal (H := scenario.raw_marshal) (H0 := scenario.raw_marshal)
        out "[42]".
Proof.
  eexists _, _, _, _. split_and!.
  - vm_compute; reflexivity.
  - vm_compute; reflexivity.
  - vm_compute; reflexivity.
  - discriminate.
  - reflexivity.
  - intros (raw & [= <-] & [=]).
Qed.

End fsjobqueue_facts.

(** ** The worker server *)
Module worker_facts.
Import common jobqueue worker.

(** The mapping of the queue status to the compose state, where the result
    of a finished job carries an output. *)
Lemma composeStateFromJobStatus_with_output status output :
  composeStateFromJobStatus status (Some output) =
    Ret match status with
        | JobPending => CWaiting
        | JobRunning => CRunning
        | JobFinished => if Success output then CFinished else CFailed
        end.
Proof. destruct status; simpl; [done..|]. by destruct (Success output). Qed.

Lemma composeStateFromJobStatus_unfinished status output :
  status <> JobFinished ->
  composeStateFromJobStatus status output =
    Ret (if decide (status = JobPending) then CWaiting else CRunning).
Proof. by destruct status. Qed.

(** A finished job whose result carries no output: the state is read
    through a nil pointer. *)
Lemma composeStateFromJobStatus_without_output :
  composeStateFromJobStatus JobFinished None = Panic nil_dereference.
Proof. reflexivity. Qed.

Lemma JobStatus_with_output {Q} `{JobQueue Q} `{Unmarshal OSBuildJobResult}
    (s : Server Q) (id : UUID) result report :
  queue_JobStatus (jobs s) id OSBuildJobResult_zero = (result, report, None) ->
  (status report = JobFinished -> is_Some (OSBuildOutput result)) ->
  JobStatus s id =
    Ret (match status report with
         | JobPending => CWaiting
         | JobRunning => CRunning
         | JobFinished =>
             match OSBuildOutput result with
             | Some output => if Success output then CFinished else CFailed
             | None => CFailed
             end
         end,
         queued report, started report, finished report, None).
Proof.
  intros Hq Hout. unfold JobStatus. rewrite Hq.
  destruct (status report) eqn:Hs; simpl; [done..|].
  destruct Hout as [output ->]; [done|]. simpl.
  by destruct (Success output).
Qed.

(** C8 fails on the code.  A job is enqueued, dequeued and finished with
    an [OSBuildJobResult] whose [OSBuildOutput] is nil (what the handler
    of PATCH passes on when the request body has no result).  The queue
    reports the job as finished; [Server.JobStatus] does not map it to
    Failed, it panics. *)
Theorem JobStatus_panics_without_output :
  exists q1 q2 q3 job report,
    fsjobqueue.Enqueue (H := scenario.raw_marshal)
      (scenario.queue_env scenario.job_a range_in_order)
      scenario.queue_new "osbuild" "{}" [] =
      Ret (q1, (scenario.job_a, None)) /\
    fsjobqueue.Dequeue (H := scenario.raw_unmarshal)
      (scenario.queue_env scenario.job_b range_in_order)
      q1 ["osbuild"] "" = Ret (q2, job, (scenario.job_a, None)) /\
    fsjobqueue.FinishJob (H := scenario.result_marshal)
      (scenario.queue_env scenario.job_b range_in_order)
      q2 scenario.job_a OSBuildJobResult_zero = Ret (q3, None) /\
    fsjobqueue.JobStatus (H := scenario.result_unmarshal)
      q3 scenario.job_a OSBuildJobResult_zero =
      (OSBuildJobResult_zero, report, None) /\
    status report = JobFinished /\
    JobStatus (H0 := scenario.result_unmarshal)
      {| jobs := q3 |} scenario.job_a = Panic nil_dereference.
Proof.
  eexists _, _, _, _, _. split_and!.
  - vm_compute; reflexivity.
  - vm_compute; reflexivity.
  - vm_compute; reflexivity.
  - vm_compute; reflexivity.
  - reflexivity.
  - vm_compute; reflexivity.
Qed.

End worker_facts.

(** ** The image-build state machine, continued *)
Module compose_invariants.
Import common compose.

Lemma same_target_refl t : same_target t t.
Proof. destruct t; by constructor. Qed.

Lemma same_build_refl ib : same_build ib ib.
Proof.
  unfold same_build. split_and!; try done.
  apply Forall2_same_length_lookup_2; [done|].
  intros k x y Hx Hy. simplify_eq. apply same_target_refl.
Qed.

Lemma set_targets_status_same newState ts ts' :
  set_targets_status newState ts = Ret ts' -> Forall2 same_target ts ts'.
Proof.
  revert ts'. induction ts as [|[t|] ts IH]; intros ts'; simpl.
  - intros [= <-]. constructor.
  - destruct (set_targets_status newState ts) as [rest| | |]; simpl;
      try done.
    intros [= <-]. constructor; [by constructor|by apply IH].
  - done.
Qed.

(** X1.  [UpdateState] touches nothing but the queue status of the image
    build it is asked to move and the status of that build's targets: the
    blueprint, the number of builds, every other build and every other
    field stay as they were. *)
Theorem UpdateState_changes_only_status (c c' : Compose) (i : Z)
    (newState : ImageBuildState) (err : option error) :
  UpdateState c i newState = Ret (c', err) ->
  Compose_Blueprint c' = Compose_Blueprint c /\
  length (ImageBuilds c') = length (ImageBuilds c) /\
  forall (k : nat) (ib : ImageBuild),
    ImageBuilds c !! k = Some ib ->
    exists ib',
      ImageBuilds c' !! k = Some ib' /\ same_build ib ib' /\
      (k <> Z.to_nat i -> ib' = ib).
Proof.
  assert (Hsame : Ret (c, err) = Ret (c', err) ->
    Compose_Blueprint c' = Compose_Blueprint c /\
    length (ImageBuilds c') = length (ImageBuilds c) /\
    forall (k : nat) (ib : ImageBuild),
      ImageBuilds c !! k = Some ib ->
      exists ib', ImageBuilds c' !! k = Some ib' /\ same_build ib ib' /\
                  (k <> Z.to_nat i -> ib' = ib)).
  { intros [= <-]. split_and!; try done. intros k ib Hk. exists ib.
    split_and!; try done. apply same_build_refl. }
  assert (Hset : forall ib ib0,
    ImageBuilds c !! Z.to_nat i = Some ib0 -> same_build ib0 ib ->
    Compose_Blueprint (set_ImageBuild c i ib) = Compose_Blueprint c /\
    length (ImageBuilds (set_ImageBuild c i ib)) = length (ImageBuilds c) /\
    forall (k : nat) (ib1 : ImageBuild),
      ImageBuilds c !! k = Some ib1 ->
      exists ib', ImageBuilds (set_ImageBuild c i ib) !! k = Some ib' /\
                  same_build ib1 ib' /\ (k <> Z.to_nat i -> ib' = ib1)).
  { intros ib ib0 Hib0 Hsb. simpl. split_and!; try done.
    - by rewrite length_insert.
    - intros k ib1 Hk. destruct (decide (k = Z.to_nat i)) as [->|Hne].
      + exists ib. rewrite list_lookup_insert_eq by by eapply lookup_lt_Some.
        simplify_eq. done.
      + exists ib1. rewrite list_lookup_insert_ne by done.
        split_and!; try done. apply same_build_refl. }
  unfold UpdateState.
  case_decide; [intros [= <- <-]; by apply Hsame|].
  case_decide.
  { destruct (index (ImageBuilds c) i) as [ib| | |] eqn:Hidx; simpl;
      try done.
    apply index_Ret in Hidx as [_ Hib].
    case_decide; [|intros [= <- <-]; by apply Hsame].
    intros [= <- <-]. apply (Hset _ ib); [done|].
    unfold same_build. simpl. split_and!; try done.
    apply same_build_refl. }
  case_decide; [|intros [= <- <-]; by apply Hsame].
  destruct (index (ImageBuilds c) i) as [ib| | |] eqn:Hidx; simpl; try done.
  apply index_Ret in Hidx as [_ Hib].
  case_decide; [|intros [= <- <-]; by apply Hsame].
  destruct (set_targets_status newState (Targets ib)) as [ts| | |] eqn:Hts;
    simpl; try done.
  intros [= <- <-]. apply (Hset _ ib); [done|].
  unfold same_build. simpl. split_and!; try done.
  by eapply set_targets_status_same.
Qed.

Lemma set_targets_status_outcome newState (ts : list (option target.Target)) :
  (Forall is_Some ts /\
   set_targets_status newState ts = Ret (with_status newState ts)) \/
  (None ∈ ts /\ set_targets_status newState ts = Panic nil_dereference).
Proof.
  induction ts as [|[t|] ts IH]; simpl.
  - left. by split.
  - destruct IH as [[Hall ->]|[Hnil ->]]; simpl.
    + left. split; [|done]. constructor; [by eexists|done].
    + right. split; [by right|done].
  - right. split; [by left|done].
Qed.

Lemma index_in_range {A} (s : list A) (i : Z) :
  in_range s i -> exists x, index s i = Ret x /\ s !! Z.to_nat i = Some x.
Proof.
  intros [Hi Hlen]. destruct (lookup_lt_is_Some_2 s (Z.to_nat i)) as [x Hx];
    [lia|].
  exists x. split; [|done]. by apply index_lookup.
Qed.

(** X2.  When [UpdateState] panics.  A request for Running, Finished or
    Failed indexes the image builds, so an index out of range panics; a
    request for Waiting or for an unknown state is refused before any
    indexing.  Moving a running build to Finished or Failed writes through
    every target pointer, so a nil target panics.  There is no other
    panic. *)
Theorem UpdateState_panics_iff (c : Compose) (i : Z)
    (newState : ImageBuildState) (msg : string) :
  UpdateState c i newState = Panic msg <->
  (msg = index_out_of_range /\
   (newState = IBRunning \/ terminal newState) /\
   ~ in_range (ImageBuilds c) i) \/
  (msg = nil_dereference /\ terminal newState /\
   exists ib, in_range (ImageBuilds c) i /\
     ImageBuilds c !! Z.to_nat i = Some ib /\
     QueueStatus ib = IBRunning /\ None ∈ Targets ib).
Proof.
  unfold UpdateState, terminal.
  destruct (decide (in_range (ImageBuilds c) i)) as [Hin|Hout].
  - destruct (index_in_range _ _ Hin) as (ib & Hidx & Hib). rewrite Hidx.
    simpl.
    destruct (set_targets_status_outcome newState (Targets ib))
      as [[Hall Hts]|[Hnil Hts]]; rewrite Hts; simpl.
    + split.
      * repeat case_decide; done.
      * intros [(_ & _ & Hno)|(_ & _ & ib' & _ & Hib' & _ & Hnil)];
          [done|]. simplify_eq. rewrite Forall_forall in Hall.
        by destruct (Hall _ Hnil).
    + split.
      * repeat case_decide; try done. intros [= <-]. right.
        split_and!; try done. by exists ib.
      * intros [(_ & _ & Hno)|(-> & Hterm & ib' & _ & Hib' & Hrun & _)];
          [done|]. simplify_eq.
        assert (newState <> IBWaiting /\ newState <> IBRunning) as [? ?]
          by (destruct Hterm as [-> | ->]; done).
        rewrite !decide_False by done. by rewrite !decide_True by done.
  - rewrite (index_out_of_range_panics _ _ Hout). simpl. split.
    + repeat case_decide; try done; intros [= <-]; left;
        (split_and!; [done|tauto|done]).
    + intros [(-> & Hst & _)|(_ & _ & ib & Hin & _)]; [|done].
      destruct Hst as [->|Hterm].
      * by rewrite decide_False, decide_True by done.
      * assert (newState <> IBWaiting /\ newState <> IBRunning) as [? ?]
          by (destruct Hterm as [-> | ->]; done).
        rewrite !decide_False by done. by rewrite decide_True by done.
Qed.

Lemma first_local_options_app before t after filename :
  Forall not_local before ->
  target.Options t = target.LocalTargetOptions filename ->
  first_local_options (before ++ Some t :: after) = Ret (Some filename).
Proof.
  intros Hb Ht. induction Hb as [|x before (t' & kind & -> & Hk) _ IH];
    simpl.
  - by rewrite Ht.
  - by rewrite Hk.
Qed.

(** X3.  [GetLocalTargetOptions] returns the options of the first local
    target of the image build, nil if no target is local, and panics if it
    meets a nil target before a local one. *)
Theorem GetLocalTargetOptions_first_local (ib : ImageBuild) :
  (forall filename,
     GetLocalTargetOptions ib = Ret (Some filename) <->
     exists before t after,
       Targets ib = before ++ Some t :: after /\
       Forall not_local before /\
       target.Options t = target.LocalTargetOptions filename) /\
  (GetLocalTargetOptions ib = Ret None <-> Forall not_local (Targets ib)) /\
  (forall msg,
     GetLocalTargetOptions ib = Panic msg <->
     msg = nil_dereference /\
     exists before after,
       Targets ib = before ++ None :: after /\ Forall not_local before).
Proof.
  unfold GetLocalTargetOptions. generalize (Targets ib) as ts.
  induction ts as [|[t|] ts (IHsome & IHnone & IHpanic)]; simpl.
  - split_and!.
    + intros filename. split; [done|].
      intros (before & t & after & Heq & _). by destruct before.
    + done.
    + intros msg. split; [done|].
      intros (_ & before & after & Heq & _). by destruct before.
  - destruct (target.Options t) as [f|kind] eqn:Hopt.
    + split_and!.
      * intros filename. split.
        -- intros [= ->]. by exists [], t, ts.
        -- intros (before & t' & after & Heq & Hb & Ht').
           destruct before as [|x before]; simplify_eq/=; [congruence|].
           apply Forall_cons in Hb as [(t0 & k & ? & Hk) _]. simplify_eq.
           congruence.
      * split; [done|].
        intros [(t0 & k & ? & Hk) _]%Forall_cons. simplify_eq. congruence.
      * intros msg. split; [done|].
        intros (_ & before & after & Heq & Hb).
        destruct before as [|x before]; simplify_eq/=.
        apply Forall_cons in Hb as [(t0 & k & ? & Hk) _]. simplify_eq.
           congruence.
    + assert (Hnl : not_local (Some t)) by by exists t, kind.
      split_and!.
      * intros filename. rewrite IHsome. split.
        -- intros (before & t' & after & -> & Hb & Ht').
           exists (Some t :: before), t', after.
           split_and!; try done. by constructor.
        -- intros (before & t' & after & Heq & Hb & Ht').
           destruct before as [|x before]; simplify_eq/=; [congruence|].
           apply Forall_cons in Hb as [_ Hb]. by exists before, t', after.
      * rewrite IHnone. split; [by constructor|].
        by intros [_ ?]%Forall_cons.
      * intros msg. rewrite IHpanic. split.
        -- intros (-> & before & after & -> & Hb). split; [done|].
           exists (Some t :: before), after. split; [done|by constructor].
        -- intros (-> & before & after & Heq & Hb). split; [done|].
           destruct before as [|x before]; simplify_eq/=.
           apply Forall_cons in Hb as [_ Hb]. by exists before, after.
  - split_and!.
    + intros filename. split; [done|].
      intros (before & t' & after & Heq & Hb & _).
      destruct before as [|x before]; simplify_eq/=.
      apply Forall_cons in Hb as [(t0 & k & ? & _) _]. done.
    + split; [done|]. intros [(t0 & k & ? & _) _]%Forall_cons. done.
    + intros msg. split.
      * intros [= <-]. split; [done|]. by exists [], ts.
      * by intros (-> & _).
Qed.

Lemma UpdateState_changes_only_status_witness :
  Compose_Blueprint (scenario.compose_of IBRunning) =
    Compose_Blueprint (scenario.compose_of IBWaiting) /\
  length (ImageBuilds (scenario.compose_of IBRunning)) =
    length (ImageBuilds (scenario.compose_of IBWaiting)) /\
  forall (k : nat) (ib : ImageBuild),
    ImageBuilds (scenario.compose_of IBWaiting) !! k = Some ib ->
    exists ib',
      ImageBuilds (scenario.compose_of IBRunning) !! k = Some ib' /\
      same_build ib ib' /\ (k <> Z.to_nat 0 -> ib' = ib).
Proof.
  apply (UpdateState_changes_only_status (scenario.compose_of IBWaiting)
           (scenario.compose_of IBRunning) 0 IBRunning None).
  reflexivity.
Defined.

End compose_invariants.

(** ** The compose store, continued *)
Module store_operations.
Import common blueprint compose store store_facts.

Lemma UpdateState_settled (c : Compose) (i : Z) (ib : ImageBuild)
    (newState : ImageBuildState) :
  0 <= i -> ImageBuilds c !! Z.to_nat i = Some ib ->
  QueueStatus ib <> IBWaiting -> QueueStatus ib <> IBRunning ->
  exists message,
    UpdateState c i newState = Ret (c, Some (StateTransitionError message)).
Proof.
  intros Hi Hib Hw Hr. unfold UpdateState.
  rewrite (index_lookup _ _ ib) by done. simpl.
  repeat case_decide; try (exfalso; tauto); by eexists.
Qed.

Lemma with_result_file_Composes e composeID i result s :
  Composes (with_result_file e composeID i result s) = Composes s.
Proof. unfold with_result_file. by destruct (stateDir s), result. Qed.

Lemma UpdateImageBuildInCompose_settled
    (e : Env) (composeID : UUID) (i : Z) (status : ImageBuildState)
    (result : option ComposeResult) (s : Store) (c : Compose)
    (ib : ImageBuild) :
  Composes s !! composeID = Some c ->
  0 <= i -> ImageBuilds c !! Z.to_nat i = Some ib ->
  QueueStatus ib <> IBWaiting -> QueueStatus ib <> IBRunning ->
  persists e s -> result_file_ok e result s ->
  exists message,
    UpdateImageBuildInCompose e composeID i status result s =
      Ret (with_result_file e composeID i result s,
           Some (InvalidRequestError message)).
Proof.
  intros Hc Hi Hib Hw Hr Hp Hfile.
  destruct (UpdateState_settled c i ib status Hi Hib Hw Hr) as [m Hupd].
  rewrite (UpdateImageBuildInCompose_popped e composeID i status result s
             c ib) by done.
  rewrite Hupd. by eexists.
Qed.

(** X5.  An image build that is neither waiting nor running stays as it
    is: whatever state [UpdateImageBuildInCompose] is asked for, the
    request is refused as an invalid state transition and no compose
    changes.  The result handed in has been written to [result.json] all
    the same. *)
Theorem UpdateImageBuildInCompose_settled_build_is_frozen
    (e : Env) (composeID : UUID) (i : Z) (status : ImageBuildState)
    (result : option ComposeResult) (s : Store) (c : Compose)
    (ib : ImageBuild) :
  Composes s !! composeID = Some c ->
  0 <= i -> ImageBuilds c !! Z.to_nat i = Some ib ->
  QueueStatus ib <> IBWaiting -> QueueStatus ib <> IBRunning ->
  persists e s -> result_file_ok e result s ->
  exists s' message,
    UpdateImageBuildInCompose e composeID i status result s =
      Ret (s', Some (InvalidRequestError message)) /\
    Composes s' = Composes s /\
    s' = with_result_file e composeID i result s.
Proof.
  intros Hc Hi Hib Hw Hr Hp Hfile.
  destruct (UpdateImageBuildInCompose_settled e composeID i status result
              s c ib) as [m Hupd]; try done.
  eexists _, _. split; [exact Hupd|].
  split; [apply with_result_file_Composes|done].
Qed.

Lemma change_inv e f s s' result :
  change e f s = Ret (s', result) -> f s = Ret (s', result).
Proof.
  unfold change. destruct (f s) as [[s1 r1]| | |]; simpl; try done.
  destruct (stateDir s1); [|done]. by destruct (db_Write_ok e).
Qed.

(** X6.  A result that [UpdateImageBuildInCompose] accepted is the one
    that [GetImageBuildResult] hands out afterwards; a store without state
    directory keeps no result and hands out the empty object. *)
Theorem GetImageBuildResult_after_update (e : Env) (composeID : UUID)
    (i : Z) (status : ImageBuildState) (result : ComposeResult)
    (s s' : Store) :
  UpdateImageBuildInCompose e composeID i status (Some result) s =
    Ret (s', None) ->
  GetImageBuildResult true s' composeID i =
    (Some match stateDir s with
          | Some _ => ResultFile result
          | None => EmptyObject
          end, None).
Proof.
  unfold UpdateImageBuildInCompose. intros Hupd%change_inv. revert Hupd.
  destruct (Composes s !! composeID) as [c|]; [|done].
  destruct (index (ImageBuilds c) i) as [ib| | |]; simpl; try done.
  case_decide; [done|].
  unfold GetImageBuildResult.
  destruct (stateDir s) as [dir|] eqn:Hdir.
  - destruct (os_Create_ok e); [|done].
    destruct (UpdateState c i status) as [[c' [err|]]| | |]; simpl;
      try done.
    destruct (decide (status = IBFinished \/ status = IBFailed)); simpl.
    + destruct (index (ImageBuilds c') i); simpl; try done.
      intros [= <-]. simpl. rewrite Hdir. by rewrite lookup_insert_eq.
    + intros [= <-]. simpl. rewrite Hdir. by rewrite lookup_insert_eq.
  - destruct (UpdateState c i status) as [[c' [err|]]| | |]; simpl;
      try done.
    destruct (decide (status = IBFinished \/ status = IBFailed)); simpl.
    + destruct (index (ImageBuilds c') i); simpl; try done.
      intros [= <-]. simpl. by rewrite Hdir.
    + intros [= <-]. simpl. by rewrite Hdir.
Qed.

(** X7.  [PushCompose] refuses an id that is taken by panicking.  A new
    compose is stored with one image build, in state Waiting; and since
    [UpdateImageBuildInCompose] answers a waiting build with
    [NotPendingError], no later call of it changes that build. *)
Theorem PushCompose_stores_a_waiting_build (e : Env) (composeID : UUID)
    (manifest : option string) (imageTypeCommon : Z)
    (bp : option Blueprint) (size : Z)
    (targets : list (option target.Target)) (jobId : UUID) (s : Store) :
  persists e s ->
  (is_Some (Composes s !! composeID) ->
     PushCompose e composeID manifest (Some imageTypeCommon) bp size
       targets jobId s = Panic "a compose with this id already exists") /\
  (Composes s !! composeID = None ->
   stateDir s = None \/ os_Mkdir_ok e = true ->
   exists s',
     PushCompose e composeID manifest (Some imageTypeCommon) bp size
       targets jobId s = Ret (s', None) /\
     s' = set_Composes
            (<[composeID :=
                 {| Compose_Blueprint := bp;
                    ImageBuilds :=
                      [pushed_build manifest imageTypeCommon targets
                         (time_Now e) size jobId] |}]> (Composes s)) s /\
     forall e' status result,
       persists e' s' ->
       UpdateImageBuildInCompose e' composeID 0 status result s' =
         Ret (s', Some (NotPendingError "compose has not been popped"))).
Proof.
  intros Hp. unfold PushCompose, GetCompose. split.
  - by intros [c ->].
  - intros -> Hdir. rewrite decide_False.
    2:{ intros [[dir Hd] Hmk]. destruct Hdir; congruence. }
    erewrite change_Ret; [|done|done]. simpl.
    eexists. split; [done|]. split; [done|].
    intros e' status result Hp'.
    eapply UpdateImageBuildInCompose_waiting; try done.
    + simpl. by rewrite lookup_insert_eq.
    + done.
    + done.
Qed.

(** X8.  [PushTestCompose] leaves a compose with one image build that is
    Finished or Failed, as [testSuccess] says: the status of every target
    is that state, [JobFinished] is set, and with a state directory
    [result.json] holds a result with that success flag. *)
Theorem PushTestCompose_stores_a_final_build (e : Env) (started : Time)
    (e' : Env) (composeID : UUID) (manifest : option string)
    (imageTypeCommon : Z) (bp : option Blueprint) (size : Z)
    (targets : list (option target.Target)) (testSuccess : bool)
    (s : Store) :
  persists e s -> persists e' s ->
  stateDir s = None \/ (os_Mkdir_ok e = true /\ os_Create_ok e' = true) ->
  Forall is_Some targets ->
  let status := if testSuccess then IBFinished else IBFailed in
  let result := {| Success := testSuccess; Output := "" |} in
  exists s',
    PushTestCompose e started e' composeID manifest (Some imageTypeCommon)
      bp size targets testSuccess s = Ret (s', None) /\
    Composes s' =
      <[composeID :=
          {| Compose_Blueprint := bp;
             ImageBuilds :=
               [ {| Id := 0; ImageType := imageTypeCommon;
                    Manifest := manifest;
                    Targets := with_status status targets;
                    JobCreated := time_Now e; JobStarted := started;
                    JobFinished := time_Now e'; Size := size;
                    JobId := uuid_Nil; QueueStatus := status |} ] |}]>
        (Composes s) /\
    GetImageBuildResult true s' composeID 0 =
      (Some match stateDir s with
            | Some _ => ResultFile result
            | None => EmptyObject
            end, None).
Proof.
  intros Hp Hp' Hdir Htargets status result. unfold PushTestCompose.
  rewrite decide_False.
  2:{ intros [[dir Hd] Hmk]. destruct Hdir as [?|[? ?]]; congruence. }
  erewrite change_Ret; [|done|done]. simpl.
  set (ib := {| Id := 0; ImageType := imageTypeCommon; Manifest := manifest;
                Targets := targets; JobCreated := time_Now e;
                JobStarted := started; JobFinished := 0; Size := size;
                JobId := uuid_Nil; QueueStatus := IBRunning |}).
  set (c := {| Compose_Blueprint := bp; ImageBuilds := [ib] |}).
  set (s1 := set_Composes (<[composeID := c]> (Composes s)) s).
  assert (Hupd : UpdateState c 0 status =
            Ret (set_ImageBuild c 0
                   (set_Targets (with_status status targets)
                      (set_QueueStatus status ib)), None)).
  { assert (status <> IBWaiting /\ status <> IBRunning /\
            (status = IBFinished \/ status = IBFailed)) as (? & ? & ?).
    { unfold status. destruct testSuccess; split_and!; try done;
        [by left|by right]. }
    unfold UpdateState.
    rewrite !decide_False by done. rewrite decide_True by done.
    rewrite (index_lookup _ _ ib) by done.
    cbn [go_bind]. rewrite decide_True by done.
    replace (Targets ib) with targets by done.
    by rewrite compose_facts.set_targets_status_allocated. }
  pose proof (UpdateImageBuildInCompose_popped e' composeID 0 status
                (Some result) s1 c ib) as Hcall.
  rewrite Hupd in Hcall.
  eexists. split; [apply Hcall|]; clear Hcall.
  - unfold s1. simpl. by rewrite lookup_insert_eq.
  - done.
  - done.
  - done.
  - done.
  - unfold result_file_ok, s1. simpl.
    destruct Hdir as [?|[? ?]]; [by left|by right; right].
  - split.
    + simpl. rewrite insert_insert_eq. f_equal.
      unfold stamp_finished. rewrite decide_True.
      2:{ unfold status. destruct testSuccess; [by left|by right]. }
      done.
    + unfold GetImageBuildResult, with_result_file, s1. simpl.
      destruct (stateDir s) as [dir|] eqn:Hd; simpl; rewrite Hd; [|done].
      by rewrite lookup_insert_eq.
Qed.

(** X9.  [DeleteCompose] answers an unknown id with [NotFoundError] and
    changes nothing.  A known compose is taken out of the store, and it
    stays out even when removing its directory fails and that error is
    returned; no other compose is touched. *)
Theorem DeleteCompose_removes_the_compose (e : Env)
    (os_RemoveAll : string -> gmap string ComposeResult ->
                    gmap string ComposeResult * option error)
    (id : UUID) (s : Store) :
  persists e s ->
  (Composes s !! id = None ->
     DeleteCompose e os_RemoveAll id s = Ret (s, Some (NotFoundError ""))) /\
  (is_Some (Composes s !! id) ->
     exists s',
       DeleteCompose e os_RemoveAll id s =
         Ret (s', match stateDir s with
                  | Some dir =>
                      (os_RemoveAll (getComposeDirectory dir id) (files s)).2
                  | None => None
                  end) /\
       Composes s' = delete id (Composes s) /\
       GetCompose s' id = None /\
       (forall id', id' <> id -> GetCompose s' id' = GetCompose s id') /\
       Blueprints s' = Blueprints s /\ Workspace s' = Workspace s /\
       Sources s' = Sources s /\
       BlueprintsChanges s' = BlueprintsChanges s /\
       BlueprintsCommits s' = BlueprintsCommits s).
Proof.
  intros Hp. unfold DeleteCompose. split.
  - intros Hc. apply change_Ret; [|done]. by rewrite Hc.
  - intros [c Hc]. destruct (stateDir s) as [dir|] eqn:Hdir.
    + eexists. split.
      * apply change_Ret.
        -- rewrite Hc. simpl. rewrite Hdir. done.
        -- destruct Hp as [Hp|Hp]; [congruence|by right].
      * unfold GetCompose. simpl. split_and!; try done.
        -- apply lookup_delete_eq.
        -- intros id' Hne. by rewrite lookup_delete_ne.
    + eexists. split.
      * apply change_Ret.
        -- rewrite Hc. simpl. rewrite Hdir. done.
        -- by left.
      * unfold GetCompose. simpl. split_and!; try done.
        -- apply lookup_delete_eq.
        -- intros id' Hne. by rewrite lookup_delete_ne.
Qed.

(** X10.  A successful [PushBlueprint] appends one commit to the history
    of the blueprint: the change recorded under the new commit holds the
    blueprint as initialized, before any version bump, while the committed
    blueprint is the bumped one when the pushed version is empty or the
    committed one.  The workspace copy is gone, and no other blueprint is
    touched. *)
Theorem PushBlueprint_appends_a_commit `{Methods} (e : Env)
    (commit timestamp commitMsg : string) (bp bp1 : Blueprint) (s : Store) :
  Initialize bp = inl bp1 ->
  (forall b v, Name (BumpVersion b v) = Name b) ->
  persists e s ->
  let change :=
    {| Commit := commit; Message := commitMsg; Timestamp := timestamp;
       Change_Blueprint := bp1; Revision := None |} in
  let committed :=
    match Blueprints s !! Name bp1 with
    | Some old =>
        if decide (Version bp1 = "" \/ Version bp1 = Version old)
        then BumpVersion bp1 (Version old) else bp1
    | None => bp1
    end in
  exists s',
    PushBlueprint e (inl commit) timestamp bp commitMsg s = Ret (s', None) /\
    GetBlueprint s' (Name bp1) = (Some committed, false) /\
    GetBlueprintChange s' (Name bp1) commit = (Some change, None) /\
    commits_of s' (Name bp1) = commits_of s (Name bp1) ++ [commit] /\
    (commit ∉ commits_of s (Name bp1) ->
       GetBlueprintChanges s' (Name bp1) =
         GetBlueprintChanges s (Name bp1) ++ [change]) /\
    (forall name, name <> Name bp1 ->
       GetBlueprint s' name = GetBlueprint s name /\
       GetBlueprintChanges s' name = GetBlueprintChanges s name) /\
    Composes s' = Composes s /\ Sources s' = Sources s.
Proof.
  intros Hinit Hname Hp change0 committed.
  assert (Hcn : Name committed = Name bp1).
  { unfold committed. destruct (Blueprints s !! Name bp1); [|done].
    case_decide; [apply Hname|done]. }
  eexists. split.
  { unfold PushBlueprint. apply change_Ret; [by rewrite Hinit|exact Hp]. }
  cbn [set_Blueprints set_BlueprintsCommits set_BlueprintsChanges
       set_Workspace Blueprints Workspace BlueprintsChanges
       BlueprintsCommits Composes Sources].
  fold change0. fold committed. rewrite Hcn.
  split_and!; try done.
  - unfold GetBlueprint. simpl. by rewrite lookup_delete_eq, lookup_insert_eq.
  - unfold GetBlueprintChange. simpl. by rewrite !lookup_insert_eq.
  - unfold commits_of. simpl. by rewrite lookup_insert_eq.
  - intros Hfresh. unfold GetBlueprintChanges, commits_of, change_of,
      changes_of. simpl. rewrite !lookup_insert_eq. simpl.
    rewrite fmap_app. simpl. rewrite lookup_insert_eq. simpl. f_equal.
    apply list_fmap_ext. intros i c Hc.
    rewrite lookup_insert_ne; [done|].
    intros <-. apply Hfresh. unfold commits_of.
    by eapply list_elem_of_lookup_2.
  - intros name Hne. unfold GetBlueprint, GetBlueprintChanges, commits_of,
      change_of, changes_of. simpl.
    by rewrite lookup_delete_ne, !lookup_insert_ne by done.
Qed.

(** X11.  The workspace copy of a blueprint shadows the committed one:
    after [PushBlueprintToWorkspace], [GetBlueprint] returns the pushed
    blueprint and says that it changed, while the committed blueprint is
    as before; [DeleteBlueprintFromWorkspace] brings the committed one
    back, and fails when called a second time. *)
Theorem workspace_copy_shadows_committed `{Methods} (e e' e'' : Env)
    (bp bp1 : Blueprint) (s : Store) :
  Initialize bp = inl bp1 ->
  persists e s -> persists e' s -> persists e'' s ->
  exists s1 s2,
    PushBlueprintToWorkspace e bp s = Ret (s1, None) /\
    GetBlueprint s1 (Name bp1) = (Some bp1, true) /\
    GetBlueprintCommitted s1 (Name bp1) = GetBlueprintCommitted s (Name bp1) /\
    DeleteBlueprintFromWorkspace e' (Name bp1) s1 = Ret (s2, None) /\
    GetBlueprint s2 (Name bp1) = (GetBlueprintCommitted s (Name bp1), false) /\
    DeleteBlueprintFromWorkspace e'' (Name bp1) s2 =
      Ret (s2, Some (errorString ("Unknown blueprint: " +:+ Name bp1))).
Proof.
  intros Hinit Hp Hp' Hp''.
  set (s1 := set_Workspace (<[Name bp1 := bp1]> (Workspace s)) s).
  exists s1, (set_Workspace (delete (Name bp1) (Workspace s1)) s1).
  split_and!.
  - unfold PushBlueprintToWorkspace. apply change_Ret; [by rewrite Hinit|].
    exact Hp.
  - unfold GetBlueprint. simpl. by rewrite lookup_insert_eq.
  - done.
  - unfold DeleteBlueprintFromWorkspace. apply change_Ret; [|exact Hp'].
    simpl. by rewrite lookup_insert_eq.
  - unfold GetBlueprint, GetBlueprintCommitted. simpl.
    rewrite lookup_delete_eq. by destruct (Blueprints s !! Name bp1).
  - unfold DeleteBlueprintFromWorkspace. apply change_Ret; [|exact Hp''].
    simpl. by rewrite lookup_delete_eq.
Qed.

(** X12.  [DeleteBlueprint] on a name that has no committed blueprint
    returns an error, and yet the workspace copy of that name is deleted:
    a blueprint that lived in the workspace only is lost. *)
Theorem DeleteBlueprint_unknown_drops_workspace_copy (e : Env)
    (name : string) (s : Store) :
  Blueprints s !! name = None ->
  persists e s ->
  exists s',
    DeleteBlueprint e name s =
      Ret (s', Some (errorString ("Unknown blueprint: " +:+ name))) /\
    Workspace s' = delete name (Workspace s) /\
    GetBlueprint s' name = (None, false) /\
    Blueprints s' = Blueprints s /\
    BlueprintsChanges s' = BlueprintsChanges s /\
    BlueprintsCommits s' = BlueprintsCommits s.
Proof.
  intros Hb Hp. eexists. split.
  - unfold DeleteBlueprint. apply change_Ret; [simpl; by rewrite Hb|].
    exact Hp.
  - unfold GetBlueprint. simpl. rewrite lookup_delete_eq, Hb. done.
Qed.

(** *** New, continued *)

Lemma fail_loaded_composes_fold visit composes composes' :
  fail_loaded_composes visit composes = Ret composes' ->
  composes' =
    foldl (fun acc '(id, c) => <[id := failed_on_load c]> acc) composes visit.
Proof.
  revert composes. induction visit as [|[id c] visit IH]; intros composes;
    simpl.
  - by intros [= <-].
  - case_decide; [done|]. apply IH.
Qed.

Lemma foldl_insert_lookup {V W} (f : V -> W) (visit : list (UUID * V))
    (m : gmap UUID W) (id : UUID) :
  NoDup visit.*1 ->
  foldl (fun acc '(k, v) => <[k := f v]> acc) m visit !! id =
    match (list_to_map visit : gmap UUID V) !! id with
    | Some v => Some (f v)
    | None => m !! id
    end.
Proof.
  revert m. induction visit as [|[k v] visit IH]; intros m Hnd.
  - simpl. by rewrite lookup_empty.
  - rewrite fmap_cons in Hnd. apply NoDup_cons in Hnd as [Hk Hnd].
    cbn [foldl]. rewrite IH by done. rewrite list_to_map_cons.
    destruct (decide (id = k)) as [->|Hne].
    + rewrite !lookup_insert_eq.
      by rewrite (not_elem_of_list_to_map_1 visit k) by done.
    + by rewrite !lookup_insert_ne by done.
Qed.

Lemma fail_loaded_composes_fmap (sh : RangeOrder)
    (composes composes' : gmap UUID Compose) :
  range_order_ok sh ->
  fail_loaded_composes (sh _ (map_to_list composes)) composes
    = Ret composes' ->
  composes' = failed_on_load <$> composes.
Proof.
  intros Hsh ->%fail_loaded_composes_fold. apply map_eq. intros id.
  assert (Hperm : sh _ (map_to_list composes) ≡ₚ map_to_list composes)
    by apply Hsh.
  rewrite foldl_insert_lookup.
  2:{ rewrite Hperm. apply NoDup_fst_map_to_list. }
  rewrite lookup_fmap.
  assert (Hmap : (list_to_map (sh _ (map_to_list composes))
                  : gmap UUID Compose) = composes).
  { rewrite <- (list_to_map_to_list composes) at 2.
    apply list_to_map_proper; [|done].
    rewrite Hperm. apply NoDup_fst_map_to_list. }
  rewrite Hmap. by destruct (composes !! id).
Qed.

Lemma fail_unfinished_settled ib :
  QueueStatus (fail_unfinished ib) <> IBWaiting /\
  QueueStatus (fail_unfinished ib) <> IBRunning.
Proof.
  unfold fail_unfinished. case_decide as Hs; simpl; [done|]. tauto.
Qed.

Section New_facts.
Context {SV : semver.Semver}.

(** X13.  [New] fails what was under way when the state was written: in
    the store it returns, every compose is the loaded compose with its
    waiting and running image builds set to Failed and all else as loaded,
    so that no image build is waiting or running, and
    [UpdateImageBuildInCompose] refuses every request on them. *)
Theorem New_fails_unfinished_builds (e : Env) (dir : string)
    (s0 st : Store) :
  range_order_ok (shuffle e) ->
  db_Read e = Some s0 ->
  New e (Some dir) = Ret st ->
  Composes st = failed_on_load <$> Composes s0 /\
  (forall id c ib,
     Composes st !! id = Some c -> ib ∈ ImageBuilds c ->
     QueueStatus ib <> IBWaiting /\ QueueStatus ib <> IBRunning) /\
  (forall e' id c i ib status result,
     Composes st !! id = Some c ->
     0 <= i -> ImageBuilds c !! Z.to_nat i = Some ib ->
     persists e' st -> result_file_ok e' result st ->
     exists message,
       UpdateImageBuildInCompose e' id i status result st =
         Ret (with_result_file e' id i result st,
              Some (InvalidRequestError message))).
Proof.
  intros Hsh Hread. unfold New. rewrite Hread.
  destruct (os_Mkdir_ok e); [|done]. simpl.
  destruct (fail_loaded_composes _ _) as [composes'| | |] eqn:Hloop;
    simpl; try done.
  apply fail_loaded_composes_fmap in Hloop as ->; [|done].
  intros [= <-]. simpl.
  assert (Hsettled : forall id c ib,
    (failed_on_load <$> Composes s0) !! id = Some c -> ib ∈ ImageBuilds c ->
    QueueStatus ib <> IBWaiting /\ QueueStatus ib <> IBRunning).
  { intros id c ib Hc Hib. rewrite lookup_fmap in Hc.
    destruct (Composes s0 !! id) as [c0|]; [|done].
    injection Hc as <-. simpl in Hib.
    apply list_elem_of_fmap in Hib as (ib0 & -> & _).
    apply fail_unfinished_settled. }
  split_and!; try done.
  intros e' id c i ib status result Hc Hi Hib Hp Hfile.
  destruct (Hsettled id c ib Hc) as [Hw Hr].
  { by eapply list_elem_of_lookup_2. }
  by eapply UpdateImageBuildInCompose_settled.
Qed.

End New_facts.

(** *** Listings *)

#[local] Instance string_lt_antisymm : AntiSymm (=) string_lt.
Proof.
  intros a b Hab Hba. unfold string_lt in *.
  apply string_ltb_asym in Hab. congruence.
Qed.

Lemma StronglySorted_strict (l : list string) :
  NoDup l -> StronglySorted (not_after String.ltb) l ->
  StronglySorted string_lt l.
Proof.
  intros Hnd Hs. induction Hs as [|x l Hs IH Hx]; [constructor|].
  apply NoDup_cons in Hnd as [Hnotin Hnd]. constructor; [by apply IH|].
  apply Forall_forall. intros y Hy. rewrite Forall_forall in Hx.
  apply string_ltb_total; [|by apply Hx].
  intros ->. done.
Qed.

Lemma sorted_keys {V} (sh sh' : RangeOrder) (m : gmap string V) :
  range_order_ok sh -> range_order_ok sh' ->
  (forall name,
     name ∈ sort_Strings (sh _ (map_to_list m).*1) <-> is_Some (m !! name)) /\
  StronglySorted string_lt (sort_Strings (sh _ (map_to_list m).*1)) /\
  sort_Strings (sh' _ (map_to_list m).*1) =
    sort_Strings (sh _ (map_to_list m).*1).
Proof.
  intros Hsh Hsh'.
  assert (Hperm : forall sh0 : RangeOrder, range_order_ok sh0 ->
            sort_Strings (sh0 _ (map_to_list m).*1) ≡ₚ (map_to_list m).*1).
  { intros sh0 Hsh0. unfold sort_Strings.
    rewrite sort_Slice_perm. apply Hsh0. }
  assert (Hsorted : forall sh0 : RangeOrder, range_order_ok sh0 ->
            StronglySorted string_lt (sort_Strings (sh0 _ (map_to_list m).*1))).
  { intros sh0 Hsh0. apply StronglySorted_strict.
    - rewrite (Hperm sh0 Hsh0). apply NoDup_fst_map_to_list.
    - apply sort_Slice_sorted.
      + apply string_ltb_asym.
      + apply string_ltb_negtrans. }
  split_and!.
  - intros name. rewrite (Hperm sh Hsh), list_elem_of_fmap. split.
    + intros ([k v] & -> & Hin). apply elem_of_map_to_list in Hin.
      by eexists.
    + intros [v Hv]. exists (name, v). split; [done|].
      by apply elem_of_map_to_list.
  - by apply Hsorted.
  - apply (StronglySorted_unique string_lt); [by apply Hsorted..|].
    by rewrite (Hperm sh Hsh), (Hperm sh' Hsh').
Qed.

(** X14.  [ListBlueprints] and [ListSources] return the names that are in
    the store, each once and in ascending order; the order in which the
    map is visited does not show in the result. *)
Theorem listings_are_sorted (sh sh' : RangeOrder) (s : Store) :
  range_order_ok sh -> range_order_ok sh' ->
  ((forall name,
      name ∈ ListBlueprints sh s <-> is_Some (GetBlueprintCommitted s name)) /\
   StronglySorted string_lt (ListBlueprints sh s) /\
   ListBlueprints sh' s = ListBlueprints sh s) /\
  ((forall name, name ∈ ListSources sh s <-> is_Some (GetSource s name)) /\
   StronglySorted string_lt (ListSources sh s) /\
   ListSources sh' s = ListSources sh s).
Proof.
  intros Hsh Hsh'. split.
  - apply (sorted_keys sh sh' (Blueprints s) Hsh Hsh').
  - apply (sorted_keys sh sh' (Sources s) Hsh Hsh').
Qed.

(** X15.  A source that was pushed is the one [GetSource] returns under
    its name and is listed, until [DeleteSource] removes it; the other
    sources are not touched by either call. *)
Theorem PushSource_GetSource_DeleteSource (e e' : Env) (sh : RangeOrder)
    (source : SourceConfig) (s : Store) :
  persists e s -> persists e' s -> range_order_ok sh ->
  exists s1 s2,
    PushSource e source s = Ret s1 /\
    GetSource s1 (SourceName source) = Some source /\
    (SourceName source ∈ ListSources sh s1) /\
    DeleteSource e' (SourceName source) s1 = Ret s2 /\
    GetSource s2 (SourceName source) = None /\
    (SourceName source ∉ ListSources sh s2) /\
    (forall name, name <> SourceName source ->
       GetSource s1 name = GetSource s name /\
       GetSource s2 name = GetSource s name).
Proof.
  intros Hp Hp' Hsh.
  set (s1 := set_Sources (<[SourceName source := source]> (Sources s)) s).
  set (s2 := set_Sources (delete (SourceName source) (Sources s1)) s1).
  assert (Hget1 : GetSource s1 (SourceName source) = Some source).
  { unfold GetSource. simpl. by rewrite lookup_insert_eq. }
  assert (Hget2 : GetSource s2 (SourceName source) = None).
  { unfold GetSource. simpl. by rewrite lookup_delete_eq. }
  exists s1, s2. split_and!; try done.
  - unfold PushSource. erewrite change_Ret; [done|done|exact Hp].
  - apply (sorted_keys sh sh (Sources s1) Hsh Hsh).
    unfold GetSource in Hget1. by rewrite Hget1.
  - unfold DeleteSource. erewrite change_Ret; [done|done|exact Hp'].
  - intros Hin. apply (sorted_keys sh sh (Sources s2) Hsh Hsh) in Hin.
    unfold GetSource in Hget2. rewrite Hget2 in Hin. by destruct Hin.
  - intros name Hne. unfold GetSource. simpl.
    by rewrite lookup_delete_ne, lookup_insert_ne by done.
Qed.

(** X16.  The two conversions between a repository and a source.  A
    repository comes back from a source made of it when at most one of its
    three URLs is set, and only then (its id and its SSL flag always do);
    a source comes back from the repository made of it when it checks GPG
    and either has one of the three yum types and a URL, or neither a type
    nor a URL, and only then. *)
Theorem SourceConfig_RepoConfig_roundtrip :
  (forall (repo : RepoConfig) (system : bool),
     RepoId (SourceConfig_RepoConfig (NewSourceConfig repo system))
       = RepoId repo /\
     IgnoreSSL (SourceConfig_RepoConfig (NewSourceConfig repo system))
       = IgnoreSSL repo /\
     (SourceConfig_RepoConfig (NewSourceConfig repo system) = repo <->
      (BaseURL repo = "" \/ (Metalink repo = "" /\ MirrorList repo = "")) /\
      (Metalink repo = "" \/ MirrorList repo = ""))) /\
  (forall (sc : SourceConfig),
     NewSourceConfig (SourceConfig_RepoConfig sc) (System sc) = sc <->
     CheckGPG sc = true /\
     ((URL sc <> "" /\
       (SourceType sc = "yum-baseurl" \/ SourceType sc = "yum-metalink" \/
        SourceType sc = "yum-mirrorlist")) \/
      (URL sc = "" /\ SourceType sc = ""))).
Proof.
  split.
  - intros [id base meta mirror ssl] system.
    unfold NewSourceConfig, SourceConfig_RepoConfig. simpl.
    repeat case_decide; simpl; rewrite ?negb_involutive;
      (split_and!; [done|done|]); repeat case_decide; try done;
      (split; [intros [=]; subst; naive_solver|]);
      intros [[?|[? ?]] [?|?]]; by subst.
  - intros [name type url gpg ssl system].
    unfold NewSourceConfig, SourceConfig_RepoConfig. simpl.
    repeat case_decide; simpl in *; subst; try done;
      repeat case_decide; simpl in *; rewrite ?negb_involutive;
      (split; [intros [=]; subst; naive_solver|]);
      intros [-> [[? Ht]|[? Ht]]]; subst; try done;
      try (destruct Ht as [?|[?|?]]; done).
Qed.

Lemma UpdateImageBuildInCompose_settled_build_is_frozen_witness :
  exists s' message,
    UpdateImageBuildInCompose scenario.env scenario.compose_id 0 IBRunning
      (Some scenario.success) (scenario.store_in_dir IBFinished ∅) =
      Ret (s', Some (InvalidRequestError message)) /\
    Composes s' = Composes (scenario.store_in_dir IBFinished ∅) /\
    s' = with_result_file scenario.env scenario.compose_id 0
           (Some scenario.success) (scenario.store_in_dir IBFinished ∅).
Proof.
  apply (UpdateImageBuildInCompose_settled_build_is_frozen scenario.env
           scenario.compose_id 0 IBRunning (Some scenario.success)
           (scenario.store_in_dir IBFinished ∅) (scenario.compose_of IBFinished)
           (scenario.build IBFinished)).
  - reflexivity.
  - lia.
  - reflexivity.
  - discriminate.
  - discriminate.
  - by right.
  - by right; right.
Defined.

Lemma GetImageBuildResult_after_update_witness :
  GetImageBuildResult true scenario.store_finished scenario.compose_id 0 =
    (Some (ResultFile scenario.success), None).
Proof.
  apply (GetImageBuildResult_after_update scenario.env scenario.compose_id
           0 IBFinished scenario.success (scenario.store_in_dir IBRunning ∅)
           scenario.store_finished).
  vm_compute. reflexivity.
Defined.

Lemma PushCompose_stores_a_waiting_build_witness :
  exists s',
    PushCompose scenario.env scenario.job_a (Some "{}") (Some 0) None 0
      [Some scenario.local_target] scenario.job_b
      (scenario.store_with IBRunning) = Ret (s', None) /\
    forall e' status result,
      persists e' s' ->
      UpdateImageBuildInCompose e' scenario.job_a 0 status result s' =
        Ret (s', Some (NotPendingError "compose has not been popped")).
Proof.
  destruct (PushCompose_stores_a_waiting_build scenario.env scenario.job_a
              (Some "{}") 0 None 0 [Some scenario.local_target]
              scenario.job_b (scenario.store_with IBRunning))
    as [_ Hnew]; [by left|].
  destruct Hnew as (s' & Hpush & _ & Hupd); [reflexivity|by left|].
  exists s'. split; [exact Hpush|exact Hupd].
Defined.

Lemma PushTestCompose_stores_a_final_build_witness :
  exists s',
    PushTestCompose scenario.env 1600000000 scenario.env scenario.job_a
      (Some "{}") (Some 0) None 0 [Some scenario.local_target] false
      (scenario.store_in_dir IBRunning ∅) = Ret (s', None) /\
    Composes s' =
      <[scenario.job_a :=
          {| Compose_Blueprint := None;
             ImageBuilds :=
               [ {| Id := 0; ImageType := 0; Manifest := Some "{}";
                    Targets :=
                      with_status IBFailed [Some scenario.local_target];
                    JobCreated := 1600000000; JobStarted := 1600000000;
                    JobFinished := 1600000000; Size := 0;
                    JobId := uuid_Nil; QueueStatus := IBFailed |} ] |}]>
        (Composes (scenario.store_in_dir IBRunning ∅)) /\
    GetImageBuildResult true s' scenario.job_a 0 =
      (Some (ResultFile {| Success := false; Output := "" |}), None).
Proof.
  apply (PushTestCompose_stores_a_final_build scenario.env 1600000000
           scenario.env scenario.job_a (Some "{}") 0 None 0
           [Some scenario.local_target] false (scenario.store_in_dir IBRunning ∅)).
  - by right.
  - by right.
  - right. by split.
  - repeat constructor. by eexists.
Defined.

Lemma DeleteCompose_removes_the_compose_witness :
  DeleteCompose scenario.env scenario.remove_all scenario.job_a
    scenario.store_finished = Ret (scenario.store_finished, Some (NotFoundError "")) /\
  exists s',
    DeleteCompose scenario.env scenario.remove_all scenario.compose_id
      scenario.store_finished = Ret (s', None) /\
    GetCompose s' scenario.compose_id = None /\
    files s' = ∅.
Proof.
  destruct (DeleteCompose_removes_the_compose scenario.env scenario.remove_all
              scenario.job_a scenario.store_finished)
    as [Hunknown _]; [by right|].
  destruct (DeleteCompose_removes_the_compose scenario.env scenario.remove_all
              scenario.compose_id scenario.store_finished)
    as [_ Hknown]; [by right|].
  split; [apply Hunknown; reflexivity|].
  destruct Hknown as (s' & Hdel & Hc & Hget & _); [by eexists|].
  exists s'. split_and!; [exact Hdel|exact Hget|].
  unfold DeleteCompose in Hdel. apply change_inv in Hdel.
  by injection Hdel as <-.
Defined.

Lemma PushBlueprint_appends_a_commit_witness :
  exists s',
    PushBlueprint (H := scenario.methods) scenario.env (inl "dd")
      "2020-05-01T10:00:03Z" (scenario.bp "0.0.3") "message dd"
      (scenario.store_of scenario.changes_5_2 ["aa"; "bb"; "cc"]) =
      Ret (s', None) /\
    GetBlueprint s' "bp" =
      (Some {| Name := "bp"; Version := "0.0.3.1";
               Body := "packages = []" |}, false) /\
    GetBlueprintChange s' "bp" "dd" =
      (Some (scenario.commit "dd" "2020-05-01T10:00:03Z" "0.0.3" None),
       None) /\
    Commit <$> GetBlueprintChanges s' "bp" = ["aa"; "bb"; "cc"; "dd"].
Proof.
  destruct (PushBlueprint_appends_a_commit (H := scenario.methods) scenario.env
              "dd" "2020-05-01T10:00:03Z" "message dd" (scenario.bp "0.0.3")
              (scenario.bp "0.0.3")
              (scenario.store_of scenario.changes_5_2 ["aa"; "bb"; "cc"]))
    as (s' & Hpush & Hget & Hchange & _ & Hall & _).
  - reflexivity.
  - reflexivity.
  - by left.
  - exists s'. split_and!; [exact Hpush|exact Hget|exact Hchange|].
    change "bp" with (Name (scenario.bp "0.0.3")).
    rewrite Hall; [reflexivity|].
    intros Hin. vm_compute in Hin.
    repeat (apply elem_of_cons in Hin as [Hin|Hin]; [discriminate Hin|]).
    by apply elem_of_nil in Hin.
Defined.

Lemma workspace_copy_shadows_committed_witness :
  exists s1 s2,
    PushBlueprintToWorkspace (H := scenario.methods) scenario.env
      (scenario.bp "0.1.0")
      (scenario.store_of scenario.changes_5_2 ["aa"; "bb"; "cc"]) =
      Ret (s1, None) /\
    GetBlueprint s1 "bp" = (Some (scenario.bp "0.1.0"), true) /\
    GetBlueprintCommitted s1 "bp" = Some (scenario.bp "0.0.3") /\
    DeleteBlueprintFromWorkspace scenario.env "bp" s1 = Ret (s2, None) /\
    GetBlueprint s2 "bp" = (Some (scenario.bp "0.0.3"), false) /\
    DeleteBlueprintFromWorkspace scenario.env "bp" s2 =
      Ret (s2, Some (errorString "Unknown blueprint: bp")).
Proof.
  apply (workspace_copy_shadows_committed (H := scenario.methods) scenario.env
           scenario.env scenario.env (scenario.bp "0.1.0")
           (scenario.bp "0.1.0")
           (scenario.store_of scenario.changes_5_2 ["aa"; "bb"; "cc"]));
    [reflexivity|by left..].
Defined.

Lemma DeleteBlueprint_unknown_drops_workspace_copy_witness :
  exists s',
    DeleteBlueprint scenario.env "draft"
      (set_Workspace {[ "draft" := scenario.bp "0.0.1" ]}
         (scenario.store_of scenario.changes_5_2 ["aa"; "bb"; "cc"])) =
      Ret (s', Some (errorString "Unknown blueprint: draft")) /\
    GetBlueprint s' "draft" = (None, false).
Proof.
  destruct (DeleteBlueprint_unknown_drops_workspace_copy scenario.env
              "draft"
              (set_Workspace {[ "draft" := scenario.bp "0.0.1" ]}
                 (scenario.store_of scenario.changes_5_2
                    ["aa"; "bb"; "cc"])))
    as (s' & Hdel & _ & Hget & _); [reflexivity|by left|].
  exists s'. split; [exact Hdel|exact Hget].
Defined.

Lemma New_fails_unfinished_builds_witness :
  Composes (scenario.store_in_dir IBFailed ∅) =
    failed_on_load <$> Composes (scenario.store_in_dir IBRunning ∅) /\
  (forall id c ib,
     Composes (scenario.store_in_dir IBFailed ∅) !! id = Some c ->
     ib ∈ ImageBuilds c ->
     QueueStatus ib <> IBWaiting /\ QueueStatus ib <> IBRunning) /\
  (forall e' id c i ib status result,
     Composes (scenario.store_in_dir IBFailed ∅) !! id = Some c ->
     0 <= i -> ImageBuilds c !! Z.to_nat i = Some ib ->
     persists e' (scenario.store_in_dir IBFailed ∅) ->
     result_file_ok e' result (scenario.store_in_dir IBFailed ∅) ->
     exists message,
       UpdateImageBuildInCompose e' id i status result
         (scenario.store_in_dir IBFailed ∅) =
         Ret (with_result_file e' id i result (scenario.store_in_dir IBFailed ∅),
              Some (InvalidRequestError message))).
Proof.
  apply (New_fails_unfinished_builds (SV := scenario.versions)
           (scenario.env_reading (scenario.store_in_dir IBRunning ∅))
           scenario.state_dir (scenario.store_in_dir IBRunning ∅)
           (scenario.store_in_dir IBFailed ∅)).
  - exact range_in_order_ok.
  - reflexivity.
  - vm_compute. reflexivity.
Defined.

Lemma listings_are_sorted_witness :
  ((forall name,
      name ∈ ListBlueprints range_in_order
               (scenario.store_of scenario.changes_5_2 []) <->
      is_Some (GetBlueprintCommitted
                 (scenario.store_of scenario.changes_5_2 []) name)) /\
   StronglySorted string_lt
     (ListBlueprints range_in_order
        (scenario.store_of scenario.changes_5_2 [])) /\
   ListBlueprints range_reversed (scenario.store_of scenario.changes_5_2 [])
     = ListBlueprints range_in_order
         (scenario.store_of scenario.changes_5_2 [])) /\
  ((forall name,
      name ∈ ListSources range_in_order
               (scenario.store_of scenario.changes_5_2 []) <->
      is_Some (GetSource (scenario.store_of scenario.changes_5_2 []) name)) /\
   StronglySorted string_lt
     (ListSources range_in_order
        (scenario.store_of scenario.changes_5_2 [])) /\
   ListSources range_reversed (scenario.store_of scenario.changes_5_2 [])
     = ListSources range_in_order
         (scenario.store_of scenario.changes_5_2 [])).
Proof.
  apply (listings_are_sorted range_in_order range_reversed
           (scenario.store_of scenario.changes_5_2 [])).
  - exact range_in_order_ok.
  - exact range_reversed_ok.
Defined.

Lemma PushSource_GetSource_DeleteSource_witness :
  exists s1 s2,
    PushSource scenario.env scenario.source (scenario.store_with IBRunning)
      = Ret s1 /\
    GetSource s1 "fedora" = Some scenario.source /\
    ("fedora" ∈ ListSources range_in_order s1) /\
    DeleteSource scenario.env "fedora" s1 = Ret s2 /\
    GetSource s2 "fedora" = None /\
    ("fedora" ∉ ListSources range_in_order s2) /\
    (forall name, name <> "fedora" ->
       GetSource s1 name = GetSource (scenario.store_with IBRunning) name /\
       GetSource s2 name = GetSource (scenario.store_with IBRunning) name).
Proof.
  apply (PushSource_GetSource_DeleteSource scenario.env scenario.env
           range_in_order scenario.source (scenario.store_with IBRunning));
    [by left|by left|exact range_in_order_ok].
Defined.

End store_operations.

(** ** The job queue, continued *)
Module fsjobqueue_scheduling.
Import jobqueue fsjobqueue.

Lemma countFinishedJobs_from_spec q ids k n :
  countFinishedJobs_from q ids k = inl n ->
  (k <= n <= k + length ids)%nat /\
  (n = (k + length ids)%nat <-> Forall (has_finished q) ids).
Proof.
  revert k. induction ids as [|id ids IH]; intros k; simpl.
  - intros [= <-]. split; [lia|]. split; [constructor|lia].
  - destruct (readJob q id) as [j|err] eqn:Hj; [|done].
    intros Hn. apply IH in Hn as [Hle Hiff]. case_decide as Hs.
    + split; [lia|]. rewrite Forall_cons. split.
      * intros ->. split; [by exists j|]. apply Hiff. lia.
      * intros [_ Hf]. apply Hiff in Hf. lia.
    + split; [lia|]. rewrite Forall_cons. split; [lia|].
      intros [(j' & Hj' & Hfin) _]. congruence.
Qed.

Lemma countFinishedJobs_stored q ids k :
  Forall (stored q) ids -> exists n, countFinishedJobs_from q ids k = inl n.
Proof.
  intros Hs. revert k. induction Hs as [|id ids [j Hj] _ IH]; intros k; simpl.
  - by eexists.
  - rewrite Hj. apply IH.
Qed.

Lemma foldl_add_dependant (x : UUID) (m : gmap UUID (list UUID))
    (l : list UUID) (dep : UUID) :
  NoDup l ->
  foldl (add_dependant x) m l !! dep =
    if decide (dep ∈ l) then Some (default [] (m !! dep) ++ [x]) else m !! dep.
Proof.
  intros Hnd. revert m.
  induction Hnd as [|y l Hy Hnd IH]; intros m; cbn [foldl].
  - rewrite decide_False; [done|]. by intros ?%elem_of_nil.
  - rewrite IH. unfold add_dependant at 1 2.
    destruct (decide (dep = y)) as [->|Hne].
    + rewrite decide_False by done. rewrite lookup_insert_eq.
      rewrite decide_True; [done|by left].
    + rewrite lookup_insert_ne by done.
      apply decide_ext. rewrite elem_of_cons. tauto.
Qed.

Lemma send_Ret q jobType id :
  (length (waiting q jobType) < channel_capacity)%nat ->
  send q jobType id =
    Ret (set_pending (<[jobType := waiting q jobType ++ [id]]> (pending q)) q).
Proof.
  unfold send, pendingChannel, waiting. intros Hlen.
  destruct (pending q !! jobType) as [c|] eqn:Hc.
  - rewrite Hc. cbn [default] in *. by rewrite decide_True.
  - cbn [pending set_pending]. rewrite lookup_insert_eq. cbn [default].
    rewrite decide_True by done. by rewrite insert_insert_eq.
Qed.

Lemma send_full q jobType id :
  (channel_capacity <= length (waiting q jobType))%nat ->
  send q jobType id = Blocked.
Proof.
  unfold send, pendingChannel, waiting. intros Hlen.
  destruct (pending q !! jobType) as [c|] eqn:Hc.
  - rewrite Hc. cbn [default] in *. rewrite decide_False; [done|lia].
  - cbn [default length] in Hlen. unfold channel_capacity in Hlen. lia.
Qed.

Lemma finished_set_db_irrelevant q m ids :
  db q = m -> forall q', db q' = m ->
  Forall (has_finished q) ids -> Forall (has_finished q') ids.
Proof.
  intros Hq q' Hq' Hf. eapply Forall_impl; [exact Hf|].
  intros id (j & Hj & Hs).
  exists j. split; [|done]. unfold readJob in *. by rewrite Hq', <- Hq.
Qed.

Lemma uniqueUUIDList_Forall shuffle (P : UUID -> Prop) ids :
  range_order_ok shuffle ->
  Forall P (uniqueUUIDList shuffle ids) <-> Forall P ids.
Proof.
  intros Hs. rewrite !Forall_forall.
  split; intros HP id Hid; apply HP;
    by apply (fsjobqueue_facts.uniqueUUIDList_elem_of shuffle ids id Hs).
Qed.

(** X17.  How [Enqueue] schedules the job it stores. *)
Theorem Enqueue_schedules {A} `{Marshal A} (e : Env) (q : fsJobQueue)
    (jobType : string) (args : A) (raw : RawMessage)
    (dependencies : list UUID) :
  json_Marshal args = Some raw ->
  db_Write_ok e = true ->
  range_order_ok (shuffle e) ->
  Forall (stored q) dependencies ->
  (length (waiting q jobType) < channel_capacity)%nat ->
  exists q',
    Enqueue e q jobType args dependencies = Ret (q', (uuid_New e, None)) /\
    db q' = <[uuid_String (uuid_New e) :=
                Doc (new_job e jobType raw dependencies)]> (db q) /\
    (Forall (has_finished q) dependencies ->
       pending q' = <[jobType := waiting q jobType ++ [uuid_New e]]> (pending q)
       /\ dependants q' = dependants q) /\
    (~ Forall (has_finished q) dependencies ->
       pending q' = pending q /\
       forall dep,
         dependants q' !! dep =
           if decide (dep ∈ dependencies)
           then Some (default [] (dependants q !! dep) ++ [uuid_New e])
           else dependants q !! dep).
Proof.
  intros Hm Hw Hshuffle Hstored Hlen. unfold Enqueue. rewrite Hm.
  cbn [Dependencies set_Args Id JobType].
  set (deps := uniqueUUIDList (shuffle e) dependencies).
  assert (Hstored' : Forall (stored q) deps)
    by (by apply uniqueUUIDList_Forall).
  destruct (countFinishedJobs_stored q deps 0 Hstored') as [n Hn].
  unfold countFinishedJobs. rewrite Hn, Hw.
  apply countFinishedJobs_from_spec in Hn as [_ Hall]. simpl in Hall.
  subst deps.
  rewrite (uniqueUUIDList_Forall _ _ _ Hshuffle) in Hall.
  case_decide as Hcount.
  - rewrite send_Ret by done. simpl. eexists. split_and!; [done|done| |].
    + intros _. done.
    + intros Hnot. by apply Hall in Hcount.
  - eexists. split_and!; [done|done| |].
    + intros Hfin. by apply Hall in Hfin.
    + intros _. split; [done|]. intros dep. simpl.
      rewrite foldl_add_dependant
        by (by apply fsjobqueue_facts.uniqueUUIDList_NoDup).
      apply decide_ext.
      by apply fsjobqueue_facts.uniqueUUIDList_elem_of.
Qed.

Lemma pendingChannel_frame q jt :
  db (pendingChannel q jt) = db q /\
  dependants (pendingChannel q jt) = dependants q /\
  forall t, waiting (pendingChannel q jt) t = waiting q t.
Proof.
  unfold pendingChannel, waiting.
  destruct (pending q !! jt) as [c|] eqn:Hc; [done|].
  split_and!; [done|done|]. intros t. simpl.
  destruct (decide (jt = t)) as [<-|Hne].
  - by rewrite lookup_insert_eq, Hc.
  - by rewrite lookup_insert_ne.
Qed.

Lemma pendingChannels_frame jobTypes q :
  db (foldl pendingChannel q jobTypes) = db q /\
  dependants (foldl pendingChannel q jobTypes) = dependants q /\
  forall t, waiting (foldl pendingChannel q jobTypes) t = waiting q t.
Proof.
  revert q. induction jobTypes as [|jt jts IH]; intros q; [done|].
  simpl. destruct (IH (pendingChannel q jt)) as (-> & -> & Hw).
  destruct (pendingChannel_frame q jt) as (-> & -> & Hw').
  split_and!; [done|done|]. intros t. by rewrite Hw, Hw'.
Qed.

Lemma ready_cases_elem e q jobTypes n jt id :
  (n, Some (jt, id)) ∈ ready_cases e q jobTypes ->
  jt ∈ jobTypes /\ exists w, waiting q jt = id :: w.
Proof.
  unfold ready_cases. intros [Hin|Hin]%elem_of_app.
  - destruct (ctx_Done e); [|by apply elem_of_nil in Hin].
    apply list_elem_of_singleton in Hin. done.
  - apply list_elem_of_omap in Hin as ([i jt'] & Hin & Hsome).
    apply elem_of_lookup_imap in Hin as (i' & jt'' & [= -> ->] & Hjt).
    simpl in Hsome. fold (waiting q jt'') in Hsome.
    destruct (waiting q jt'') as [|id' w] eqn:Hw; [done|].
    simplify_eq. split; [|by eexists].
    by eapply list_elem_of_lookup_2.
Qed.

Lemma ready_cases_empty e q jobTypes :
  ctx_Done e = None ->
  (forall jt, jt ∈ jobTypes -> waiting q jt = []) ->
  ready_cases e q jobTypes = [].
Proof.
  intros Hdone Hempty.
  destruct (ready_cases e q jobTypes) as [|[n [[jt id]|]] rest] eqn:Hr;
    [done| |].
  - assert (Hin : (n, Some (jt, id)) ∈ ready_cases e q jobTypes)
      by (rewrite Hr; left).
    apply ready_cases_elem in Hin as [Hjt [w Hw]].
    by rewrite (Hempty _ Hjt) in Hw.
  - assert (Hin : (n, None) ∈ ready_cases e q jobTypes)
      by (rewrite Hr; left).
    unfold ready_cases in Hin. rewrite Hdone in Hin. simpl in Hin.
    apply list_elem_of_omap in Hin as ([i jt'] & _ & Hsome).
    simpl in Hsome. by destruct (default [] (pending q !! jt')).
Qed.

(** X18.  What a successful [Dequeue] has done. *)
Theorem Dequeue_takes_head {B} `{Unmarshal B} (e : Env) (q q' : fsJobQueue)
    (jobTypes : list string) (args out : B) (id : UUID) :
  Dequeue e q jobTypes args = Ret (q', out, (id, None)) ->
  exists jt id0 w j,
    jt ∈ jobTypes /\
    waiting q jt = id0 :: w /\
    readJob q id0 = inl j /\
    id = Id j /\
    json_Unmarshal (Args j) args = Some out /\
    db q' = <[uuid_String id0 := Doc (start (time_Now e) j)]> (db q) /\
    waiting q' jt = w /\
    (forall t, t <> jt -> waiting q' t = waiting q t) /\
    dependants q' = dependants q.
Proof.
  unfold Dequeue. destruct (ctx_Err e); [done|].
  destruct (pendingChannels_frame jobTypes q) as (Hdb & Hdeps & Hw).
  set (qc := foldl pendingChannel q jobTypes) in *.
  destruct (ready_cases e qc jobTypes !! _) as [[n [[jt id0]|]]|] eqn:Hready;
    [|done|done].
  apply list_elem_of_lookup_2, ready_cases_elem in Hready as [Hjt [w Hhead]].
  fold (waiting qc jt). rewrite Hhead. cbn [tail].
  unfold readJob at 1. cbn [db set_pending]. rewrite Hdb.
  fold (readJob q id0).
  destruct (readJob q id0) as [j|err] eqn:Hread; [|done].
  destruct (json_Unmarshal (Args j) args) as [out'|] eqn:Hout; [|done].
  destruct (db_Write_ok e); [|done].
  intros [= <- <- <-]. exists jt, id0, w, j.
  rewrite Hw in Hhead. split_and!; try done.
  - unfold waiting. cbn [pending set_db set_pending].
    by rewrite lookup_insert_eq.
  - intros t Hne. unfold waiting. cbn [pending set_db set_pending].
    rewrite lookup_insert_ne by done. apply Hw.
Qed.

(** A [Dequeue] that returns an error has written no job document. *)
Lemma Dequeue_error_keeps_documents {B} `{Unmarshal B} (e : Env)
    (q q' : fsJobQueue) (jobTypes : list string) (args out : B)
    (id : UUID) (err : error) :
  Dequeue e q jobTypes args = Ret (q', out, (id, Some err)) ->
  id = uuid_Nil /\ db q' = db q /\ dependants q' = dependants q /\
  (is_Some (ctx_Err e) -> q' = q /\ out = args).
Proof.
  unfold Dequeue. destruct (ctx_Err e) as [err0|].
  { intros [= <- <- <- <-]. by split_and!. }
  destruct (pendingChannels_frame jobTypes q) as (Hdb & Hdeps & Hw).
  set (qc := foldl pendingChannel q jobTypes) in *.
  destruct (ready_cases e qc jobTypes !! _) as [[n [[jt id0]|]]|];
    [| |done].
  - destruct (readJob _ id0) as [j|err1].
    + destruct (json_Unmarshal (Args j) args) as [out'|].
      * destruct (db_Write_ok e); [done|].
        intros [= <- <- <- <-]. split_and!; try done; by intros [? [=]].
      * intros [= <- <- <- <-]. split_and!; try done; by intros [? [=]].
    + intros [= <- <- <- <-]. split_and!; try done; by intros [? [=]].
  - intros [= <- <- <- <-]. split_and!; try done; by intros [? [=]].
Qed.

(** X19.  [Dequeue] waits as long as no job of the requested types is
    ready and the context is not canceled. *)
Theorem Dequeue_blocks_on_empty_channels {B} `{Unmarshal B} (e : Env)
    (q : fsJobQueue) (jobTypes : list string) (args : B) :
  ctx_Err e = None -> ctx_Done e = None ->
  (forall jt, jt ∈ jobTypes -> waiting q jt = []) ->
  Dequeue e q jobTypes args = Blocked.
Proof.
  intros Hctx Hdone Hempty. unfold Dequeue. rewrite Hctx.
  destruct (pendingChannels_frame jobTypes q) as (_ & _ & Hw).
  rewrite ready_cases_empty; [done|done|].
  intros jt Hjt. rewrite Hw. by apply Hempty.
Qed.

Lemma readJob_insert q key id j :
  uuid_String id = key ->
  readJob (set_db (<[key := Doc j]> (db q)) q) id = inl j.
Proof. intros <-. unfold readJob. simpl. by rewrite lookup_insert_eq. Qed.

Lemma Enqueue_no_dependencies {A} `{Marshal A} (e : Env) (q : fsJobQueue)
    (jobType : string) (args : A) (raw : RawMessage) :
  json_Marshal args = Some raw ->
  db_Write_ok e = true ->
  range_order_ok (shuffle e) ->
  (length (waiting q jobType) < channel_capacity)%nat ->
  Enqueue e q jobType args [] =
    Ret ({| db := <[uuid_String (uuid_New e) :=
                      Doc (new_job e jobType raw [])]> (db q);
            pending := <[jobType := waiting q jobType ++ [uuid_New e]]>
                         (pending q);
            dependants := dependants q |}, (uuid_New e, None)).
Proof.
  intros Hm Hw Hshuffle Hlen. unfold Enqueue, new_job. rewrite Hm.
  rewrite fsjobqueue_facts.uniqueUUIDList_nil by done.
  cbn [Dependencies set_Args countFinishedJobs countFinishedJobs_from].
  rewrite Hw. cbn [Id JobType set_Args length].
  rewrite decide_True by done. by rewrite send_Ret.
Qed.

Lemma Dequeue_head {B} `{Unmarshal B} (e : Env) (q : fsJobQueue)
    (jobType : string) (args out : B) (id : UUID) (w : list UUID) (j : job) :
  ctx_Err e = None -> ctx_Done e = None -> db_Write_ok e = true ->
  pending q !! jobType = Some (id :: w) ->
  readJob q id = inl j ->
  json_Unmarshal (Args j) args = Some out ->
  Dequeue e q [jobType] args =
    Ret ({| db := <[uuid_String id := Doc (start (time_Now e) j)]> (db q);
            pending := <[jobType := w]> (pending q);
            dependants := dependants q |}, out, (Id j, None)).
Proof.
  intros Hctx Hdone Hw Hc Hj Hout. unfold Dequeue. rewrite Hctx.
  assert (Hq : foldl pendingChannel q [jobType] = q).
  { cbn [foldl]. unfold pendingChannel. by rewrite Hc. }
  rewrite Hq. unfold ready_cases. rewrite Hdone.
  simpl. rewrite Hc. simpl. rewrite Hc. simpl.
  replace (readJob (set_pending (<[jobType:=w]> (pending q)) q) id)
    with (readJob q id) by done.
  rewrite Hj, Hout, Hw. by destruct q.
Qed.

Lemma notify_dependants_frame q depids q' err :
  notify_dependants q depids = Ret (q', err) ->
  db q' = db q /\ dependants q' = dependants q.
Proof.
  revert q. induction depids as [|d depids IH]; intros q; simpl.
  { by intros [= <- <-]. }
  destruct (readJob q d) as [dep|e1]; [|by intros [= <- <-]].
  destruct (countFinishedJobs q (Dependencies dep)) as [n|e1];
    [|by intros [= <- <-]].
  case_decide; [|apply IH].
  unfold send.
  destruct (pendingChannel_frame q (JobType dep)) as (Hdb & Hdeps & _).
  case_decide; [|done]. simpl. intros [-> ->]%IH. simpl. done.
Qed.

(** X21.  [FinishJob] writes at most the document of the job it finishes,
    and only to turn a running job into a finished one. *)
Theorem FinishJob_writes_one_document {R} `{Marshal R} (e : Env)
    (q q' : fsJobQueue) (id : UUID) (result : R) (err : option error) :
  FinishJob e q id result = Ret (q', err) ->
  db q' = db q \/
  exists j raw,
    readJob q id = inl j /\ Status j = JobRunning /\
    json_Marshal result = Some raw /\
    db q' = <[uuid_String id := Doc (finish (time_Now e) raw j)]> (db q).
Proof.
  unfold FinishJob. destruct (readJob q id) as [j|e1] eqn:Hj;
    [|intros [= <- <-]; by left].
  case_decide as Hs; [intros [= <- <-]; by left|].
  destruct (json_Marshal result) as [raw|] eqn:Hm;
    [|intros [= <- <-]; by left].
  destruct (db_Write_ok e); [|intros [= <- <-]; by left].
  destruct (notify_dependants _ _) as [[q1 err1]| | |] eqn:Hn; simpl;
    try done.
  apply notify_dependants_frame in Hn as [Hdb _].
  intros Hret. right. exists j, raw. split_and!; try done.
  destruct err1; injection Hret as <- <-; simpl; by rewrite Hdb.
Qed.

Lemma FinishJob_running {R} `{Marshal R} (e : Env) (q : fsJobQueue)
    (id : UUID) (result : R) (raw : RawMessage) (j : job) :
  readJob q id = inl j -> Status j = JobRunning ->
  json_Marshal result = Some raw -> db_Write_ok e = true ->
  dependants q !! id = None ->
  FinishJob e q id result =
    Ret ({| db := <[uuid_String id := Doc (finish (time_Now e) raw j)]> (db q);
            pending := pending q;
            dependants := delete id (dependants q) |}, None).
Proof.
  intros Hj Hs Hm Hw Hd. unfold FinishJob. rewrite Hj.
  rewrite decide_False by (intros Hne; by apply Hne).
  rewrite Hm, Hw. cbn [dependants set_db]. rewrite Hd. done.
Qed.

(** X24.  The life of a job without dependencies, as [JobStatus] reports
    it: pending with its queueing time once enqueued, running with its
    start time once dequeued, finished with its result once [FinishJob]
    returned; a second [FinishJob] is refused with [ErrNotRunning], and
    the job is not handed out again. *)
Theorem job_life_cycle {A B R R'} `{Marshal A} `{Unmarshal B} `{Marshal R}
    `{Unmarshal R'} (e1 e2 e3 e4 : Env) (q : fsJobQueue) (jobType : string)
    (args : A) (raw : RawMessage) (out0 out : B)
    (result : R) (rraw : RawMessage) (r0 r1 : R') :
  json_Marshal args = Some raw ->
  json_Unmarshal raw out0 = Some out ->
  json_Marshal result = Some rraw ->
  json_Unmarshal rraw r0 = Some r1 ->
  range_order_ok (shuffle e1) ->
  db_Write_ok e1 = true -> db_Write_ok e2 = true -> db_Write_ok e3 = true ->
  ctx_Err e2 = None -> ctx_Done e2 = None ->
  waiting q jobType = [] ->
  dependants q !! uuid_New e1 = None ->
  exists q1 q2 q3,
    Enqueue e1 q jobType args [] = Ret (q1, (uuid_New e1, None)) /\
    JobStatus q1 (uuid_New e1) r0 =
      (r0, {| status := JobPending; queued := time_Now e1;
              started := 0; finished := 0 |}, None) /\
    Dequeue e2 q1 [jobType] out0 = Ret (q2, out, (uuid_New e1, None)) /\
    JobStatus q2 (uuid_New e1) r0 =
      (r0, {| status := JobRunning; queued := time_Now e1;
              started := time_Now e2; finished := 0 |}, None) /\
    FinishJob e3 q2 (uuid_New e1) result = Ret (q3, None) /\
    JobStatus q3 (uuid_New e1) r0 =
      (r1, {| status := JobFinished; queued := time_Now e1;
              started := time_Now e2; finished := time_Now e3 |}, None) /\
    FinishJob e4 q3 (uuid_New e1) result = Ret (q3, Some ErrNotRunning) /\
    waiting q3 jobType = [].
Proof.
  intros Hraw Hout Hrraw Hr1 Hshuffle Hw1 Hw2 Hw3 Hctx Hdone Hempty Hdeps.
  eexists _, _, _. split_and!.
  - apply Enqueue_no_dependencies; try done.
    rewrite Hempty. unfold channel_capacity. simpl. lia.
  - unfold JobStatus, readJob. simpl. by rewrite lookup_insert_eq.
  - rewrite Hempty. simpl.
    rewrite (Dequeue_head e2 _ jobType out0 out (uuid_New e1) []
               (new_job e1 jobType raw [])); try done.
    + simpl. by rewrite lookup_insert_eq.
    + unfold readJob. simpl. by rewrite lookup_insert_eq.
  - unfold JobStatus, readJob. simpl. by rewrite lookup_insert_eq.
  - rewrite (FinishJob_running e3 _ _ result rraw
               (start (time_Now e2) (new_job e1 jobType raw []))); try done.
    unfold readJob. simpl. by rewrite lookup_insert_eq.
  - unfold JobStatus, readJob. simpl. rewrite lookup_insert_eq. simpl.
    by rewrite Hr1.
  - unfold FinishJob, readJob. simpl. by rewrite lookup_insert_eq.
  - unfold waiting. simpl. by rewrite lookup_insert_eq.
Qed.

Lemma send_inv q jobType id q1 :
  send q jobType id = Ret q1 ->
  db q1 = db q /\ dependants q1 = dependants q /\
  waiting q1 jobType = waiting q jobType ++ [id] /\
  forall t, t <> jobType -> waiting q1 t = waiting q t.
Proof.
  destruct (decide (length (waiting q jobType) < channel_capacity)%nat)
    as [Hlen|Hlen].
  - rewrite send_Ret by done. intros [= <-]. unfold waiting. simpl.
    rewrite lookup_insert_eq. split_and!; try done.
    intros t Ht. by rewrite lookup_insert_ne.
  - rewrite send_full by lia. done.
Qed.

Lemma readJob_db q q' id : db q' = db q -> readJob q' id = readJob q id.
Proof. unfold readJob. by intros ->. Qed.

Lemma has_finished_db q q' id :
  db q' = db q -> has_finished q id -> has_finished q' id.
Proof.
  intros Hdb (j & Hj & Hs). exists j. by rewrite (readJob_db q q').
Qed.

Lemma notify_dependants_sound q depids q' err :
  notify_dependants q depids = Ret (q', err) ->
  forall jobType, exists added,
    waiting q' jobType = waiting q jobType ++ added /\
    Forall (fun x => exists d dep,
              d ∈ depids /\ readJob q d = inl dep /\ Id dep = x /\
              JobType dep = jobType /\
              Forall (has_finished q) (Dependencies dep)) added.
Proof.
  revert q. induction depids as [|d depids IH]; intros q; simpl.
  { intros [= <- <-] jt. exists []. by rewrite app_nil_r. }
  destruct (readJob q d) as [dep|e1] eqn:Hd.
  2:{ intros [= <- <-] jt. exists []. by rewrite app_nil_r. }
  destruct (countFinishedJobs q (Dependencies dep)) as [n|e1] eqn:Hn.
  2:{ intros [= <- <-] jt. exists []. by rewrite app_nil_r. }
  apply countFinishedJobs_from_spec in Hn as [_ Hn]. simpl in Hn.
  case_decide as Hall.
  - destruct (send q (JobType dep) (Id dep)) as [q1| | |] eqn:Hsend;
      simpl; try done.
    apply send_inv in Hsend as (Hdb & _ & Hjt & Hother).
    intros Hrest jt. destruct (IH _ Hrest jt) as (added & Hw & Hadded).
    assert (Hadded' : Forall (fun x => exists d0 dep0,
              d0 ∈ d :: depids /\ readJob q d0 = inl dep0 /\ Id dep0 = x /\
              JobType dep0 = jt /\
              Forall (has_finished q) (Dependencies dep0)) added).
    { eapply Forall_impl; [exact Hadded|].
      intros x (d0 & dep0 & Hin & Hr & Hid & Hty & Hf).
      exists d0, dep0. split_and!; try done.
      - by right.
      - by rewrite <- (readJob_db q q1).
      - eapply Forall_impl; [exact Hf|]. intros y.
        by apply has_finished_db. }
    destruct (decide (jt = JobType dep)) as [->|Hne].
    + exists (Id dep :: added). rewrite Hw, Hjt, <- app_assoc.
      split; [done|]. constructor; [|done].
      exists d, dep. split_and!; try done; [by left|by apply Hn].
    + exists added. rewrite Hw, Hother by done. done.
  - intros Hrest jt. destruct (IH _ Hrest jt) as (added & Hw & Hadded).
    exists added. split; [done|].
    eapply Forall_impl; [exact Hadded|].
    intros x (d0 & dep0 & Hin & Hr). exists d0, dep0.
    split; [by right|done].
Qed.

(** X22.  [FinishJob] makes a job ready only when it is one that waited
    for the finished job and every job it depends on has finished:
    whatever the call appended to a channel is such a job, of the
    channel's type, and nothing is taken out of a channel. *)
Theorem FinishJob_releases_only_ready_jobs {R} `{Marshal R} (e : Env)
    (q q' : fsJobQueue) (id : UUID) (result : R) (err : option error)
    (jobType : string) :
  FinishJob e q id result = Ret (q', err) ->
  exists added,
    waiting q' jobType = waiting q jobType ++ added /\
    Forall (fun x => exists d dep,
              d ∈ default [] (dependants q !! id) /\
              readJob q' d = inl dep /\ Id dep = x /\
              JobType dep = jobType /\
              Forall (has_finished q') (Dependencies dep)) added.
Proof.
  unfold FinishJob.
  assert (Hnone : forall q0 err0, Ret (q0, err0) = Ret (q', err) ->
            q0 = q -> exists added : list UUID,
              waiting q' jobType = waiting q jobType ++ added /\
              Forall (fun x => exists d dep,
                d ∈ default [] (dependants q !! id) /\
                readJob q' d = inl dep /\ Id dep = x /\
                JobType dep = jobType /\
                Forall (has_finished q') (Dependencies dep)) added).
  { intros q0 err0 [= <- <-] ->. exists []. by rewrite app_nil_r. }
  destruct (readJob q id) as [j|e1] eqn:Hj; [|by eauto].
  case_decide as Hs; [by eauto|].
  destruct (json_Marshal result) as [raw|] eqn:Hm; [|by eauto].
  destruct (db_Write_ok e); [|by eauto].
  destruct (notify_dependants _ _) as [[q1 err1]| | |] eqn:Hn; simpl;
    try done.
  pose proof (notify_dependants_frame _ _ _ _ Hn) as [Hdb _].
  destruct (notify_dependants_sound _ _ _ _ Hn jobType)
    as (added & Hw & Hadded).
  intros Hret.
  assert (Hq' : db q' = db q1 /\ waiting q' jobType = waiting q1 jobType).
  { destruct err1; by injection Hret as <- <-. }
  destruct Hq' as [Hdb' Hw']. exists added. rewrite Hw'. split; [done|].
  eapply Forall_impl; [exact Hadded|].
  intros x (d & dep & Hin & Hr & Hid & Hty & Hf).
  exists d, dep. split_and!; try done.
  - rewrite <- Hr. apply readJob_db. by rewrite Hdb', Hdb.
  - eapply Forall_impl; [exact Hf|]. intros y. apply has_finished_db.
    by rewrite Hdb', Hdb.
Qed.

(** X23.  Finishing the last unfinished dependency of a pending job hands
    that job to the channel of its type, behind the jobs that wait there. *)
Theorem FinishJob_releases_dependant {R} `{Marshal R} (e : Env)
    (q : fsJobQueue) (id d : UUID) (result : R) (raw : RawMessage)
    (j dep : job) :
  readJob q id = inl j -> Status j = JobRunning ->
  json_Marshal result = Some raw -> db_Write_ok e = true ->
  dependants q !! id = Some [d] ->
  readJob q d = inl dep -> Status dep = JobPending ->
  Forall (fun x => x = id \/ has_finished q x) (Dependencies dep) ->
  (length (waiting q (JobType dep)) < channel_capacity)%nat ->
  exists q',
    FinishJob e q id result = Ret (q', None) /\
    db q' = <[uuid_String id := Doc (finish (time_Now e) raw j)]> (db q) /\
    waiting q' (JobType dep) = waiting q (JobType dep) ++ [Id dep] /\
    (forall t, t <> JobType dep -> waiting q' t = waiting q t) /\
    dependants q' = delete id (dependants q).
Proof.
  intros Hj Hs Hm Hw Hds Hd Hp Hall Hlen. unfold FinishJob.
  rewrite Hj. rewrite decide_False by (intros Hne; by apply Hne).
  rewrite Hm, Hw.
  set (q1 := set_db (<[uuid_String id:=Doc (finish (time_Now e) raw j)]>
                       (db q)) q).
  replace (dependants q1) with (dependants q) by done.
  rewrite Hds. change (default [] (Some [d])) with [d].
  assert (Hkey : uuid_String d <> uuid_String id).
  { intros Hk. unfold readJob in Hj, Hd. rewrite Hk in Hd.
    destruct (db q !! uuid_String id) as [[j'|]|]; simplify_eq.
    congruence. }
  assert (Hd1 : readJob q1 d = inl dep).
  { unfold readJob, q1. simpl. by rewrite lookup_insert_ne. }
  assert (Hfin : Forall (has_finished q1) (Dependencies dep)).
  { eapply Forall_impl; [exact Hall|]. intros x Hx.
    unfold has_finished, readJob, q1. simpl.
    destruct (decide (uuid_String x = uuid_String id)) as [Hk|Hk].
    - rewrite Hk, lookup_insert_eq. by eexists.
    - rewrite lookup_insert_ne by done.
      destruct Hx as [->|Hx]; [done|]. exact Hx. }
  cbn [notify_dependants]. rewrite Hd1.
  destruct (countFinishedJobs q1 (Dependencies dep)) as [n|err] eqn:Hn.
  2:{ exfalso. unfold countFinishedJobs in Hn.
      destruct (countFinishedJobs_stored q1 (Dependencies dep) 0%nat)
        as [n Hn']; [|congruence].
      eapply Forall_impl; [exact Hfin|]. intros x (j' & Hj' & _).
      by exists j'. }
  apply countFinishedJobs_from_spec in Hn as [_ Hn]. simpl in Hn.
  rewrite decide_True by by apply Hn.
  rewrite send_Ret by done. simpl.
  eexists. split; [done|]. unfold waiting. simpl.
  rewrite lookup_insert_eq. split_and!; try done.
  intros t Ht. by rewrite lookup_insert_ne.
Qed.

Lemma New_loop_locked `{UUIDParse} (q q' : fsJobQueue) (ids : list string) :
  New_loop q true ids = Ret (inl q') ->
  listed_pending (db q) ids = [] /\ q' = q.
Proof.
  induction ids as [|name ids IH]; simpl.
  { by intros [= <-]. }
  destruct (uuid_Parse name) as [uuid|]; [|done].
  unfold readJob. destruct (db q !! uuid_String uuid) as [[j|]|]; try done.
  case_decide as Hs.
  - rewrite decide_False by done. exact IH.
  - done.
Qed.

Lemma New_loop_unlocked `{UUIDParse} (q0 q : fsJobQueue) (ids : list string) :
  pending q0 = ∅ -> dependants q0 = ∅ ->
  New_loop q0 false ids = Ret (inl q) ->
  db q = db q0 /\
  match listed_pending (db q0) ids with
  | [] => pending q = ∅ /\ dependants q = ∅
  | [j] =>
      dependants q = foldl (add_dependant (Id j)) ∅ (Dependencies j) /\
      (Forall (has_finished q) (Dependencies j) ->
         pending q = {[JobType j := [Id j]]}) /\
      (~ Forall (has_finished q) (Dependencies j) -> pending q = ∅)
  | _ => False
  end.
Proof.
  intros Hp Hd.
  induction ids as [|name ids IH]; simpl.
  { by intros [= <-]. }
  destruct (uuid_Parse name) as [uuid|]; [|done].
  unfold readJob. destruct (db q0 !! uuid_String uuid) as [[j|]|]; try done.
  case_decide as Hs.
  { rewrite decide_False by done. exact IH. }
  rewrite (decide_True (P := Status j = JobPending)) by done.
  rewrite Hd.
  destruct (countFinishedJobs _ _) as [n|err] eqn:Hn; [|done].
  apply countFinishedJobs_from_spec in Hn as [_ Hn]. simpl in Hn.
  case_decide as Hall.
  - rewrite send_Ret.
    2:{ unfold waiting. simpl. rewrite Hp, lookup_empty. simpl.
        unfold channel_capacity. lia. }
    simpl. intros [Hnil ->]%New_loop_locked. simpl in Hnil. rewrite Hnil.
    simpl. split_and!; try done.
    + intros _. unfold waiting. simpl. by rewrite Hp, lookup_empty.
    + intros Hnot. destruct Hnot. apply Hn in Hall.
      eapply Forall_impl; [exact Hall|]. intros y. by apply has_finished_db.
  - intros [Hnil ->]%New_loop_locked. simpl in Hnil. rewrite Hnil.
    simpl. split_and!; try done.
    intros Hf. destruct Hall. apply Hn.
    eapply Forall_impl; [exact Hf|]. intros y. by apply has_finished_db.
Qed.

(** X25.  When [New] returns a queue, the directory listed at most one
    pending job: the queue holds the directory's documents and either
    nothing else, or that job, filed under each of its dependencies and
    put in the channel of its type if all of them have finished.  With a
    second pending job the call does not return: it locks
    [dependantsMutex] again while the first lock is held until the
    function ends. *)
Theorem New_returns_with_at_most_one_pending_job `{UUIDParse}
    (ids : list string) (dir : gmap string document) (q : fsJobQueue) :
  New (Some ids) dir = Ret (inl q) ->
  db q = dir /\
  match listed_pending dir ids with
  | [] => pending q = ∅ /\ dependants q = ∅
  | [j] =>
      dependants q = foldl (add_dependant (Id j)) ∅ (Dependencies j) /\
      (Forall (has_finished q) (Dependencies j) ->
         pending q = {[JobType j := [Id j]]}) /\
      (~ Forall (has_finished q) (Dependencies j) -> pending q = ∅)
  | _ => False
  end.
Proof.
  unfold New. intros Hret.
  by apply (New_loop_unlocked {| db := dir; pending := ∅; dependants := ∅ |})
    in Hret.
Qed.

Lemma listed_pending_cons `{UUIDParse} (q : fsJobQueue) name ids uuid j :
  uuid_Parse name = Some uuid -> readJob q uuid = inl j ->
  listed_pending (db q) (name :: ids) =
    if decide (Status j = JobPending)
    then j :: listed_pending (db q) ids else listed_pending (db q) ids.
Proof.
  intros Hu Hj. unfold listed_pending. simpl. rewrite Hu.
  unfold readJob in Hj.
  destruct (db q !! uuid_String uuid) as [[j'|]|]; simplify_eq.
  by case_decide.
Qed.

Lemma New_loop_locked_total `{UUIDParse} (q : fsJobQueue) (ids : list string) :
  Forall (readable q) ids ->
  New_loop q true ids =
    match listed_pending (db q) ids with [] => Ret (inl q) | _ => Blocked end.
Proof.
  induction 1 as [|name ids (uuid & j & Hu & Hj & _) _ IH]; [done|].
  rewrite (listed_pending_cons q name ids uuid j) by done.
  simpl. rewrite Hu, Hj.
  destruct (decide (Status j = JobPending)) as [Hs|Hs].
  - by rewrite decide_False by (intros Hne; by apply Hne).
  - by rewrite decide_True.
Qed.

Lemma New_loop_unlocked_total `{UUIDParse} (q0 : fsJobQueue)
    (ids : list string) :
  pending q0 = ∅ ->
  Forall (readable q0) ids ->
  ((length (listed_pending (db q0) ids) <= 1)%nat ->
     exists q, New_loop q0 false ids = Ret (inl q)) /\
  ((2 <= length (listed_pending (db q0) ids))%nat ->
     New_loop q0 false ids = Blocked).
Proof.
  intros Hp.
  induction 1 as [|name ids (uuid & j & Hu & Hj & Hdeps) Hrest IH].
  { simpl. split; [by eexists|intros; lia]. }
  rewrite (listed_pending_cons q0 name ids uuid j) by done.
  simpl. rewrite Hu, Hj.
  destruct (decide (Status j = JobPending)) as [Hs|Hs].
  2:{ by rewrite decide_True. }
  rewrite decide_False by (intros Hne; by apply Hne).
  set (q1 := set_dependants _ q0).
  destruct (countFinishedJobs_stored q1 (Dependencies j) 0%nat) as [n Hn].
  { eapply Forall_impl; [exact (Hdeps Hs)|]. intros x [j' Hj'].
    by exists j'. }
  unfold countFinishedJobs. rewrite Hn.
  assert (Hlocked : forall q2, db q2 = db q0 ->
            New_loop q2 true ids =
              match listed_pending (db q0) ids with
              | [] => Ret (inl q2) | _ => Blocked
              end).
  { intros q2 Hdb. rewrite <- Hdb. apply New_loop_locked_total.
    eapply Forall_impl; [exact Hrest|].
    intros x (u & j' & Hx & Hr & Hd). exists u, j'.
    rewrite (readJob_db q0 q2) by done. split_and!; try done.
    intros Hpj. eapply Forall_impl; [exact (Hd Hpj)|].
    intros y [jy Hy]. exists jy. by rewrite (readJob_db q0 q2). }
  case_decide.
  - rewrite send_Ret.
    2:{ unfold waiting, q1, channel_capacity. simpl.
        rewrite Hp, lookup_empty. simpl. lia. }
    simpl. rewrite Hlocked by done.
    destruct (listed_pending (db q0) ids) as [|? ?]; simpl.
    + split; [by eexists|intros Hl; simpl in Hl; lia].
    + split; [intros Hl; simpl in Hl; lia|done].
  - rewrite Hlocked by done.
    destruct (listed_pending (db q0) ids) as [|? ?]; simpl.
    + split; [by eexists|intros Hl; simpl in Hl; lia].
    + split; [intros Hl; simpl in Hl; lia|done].
Qed.

(** X26.  [New] returns a queue when at most one of the listed jobs is
    pending and never returns when two are: the second pending job makes
    it lock [dependantsMutex] while the lock taken for the first is still
    held. *)
Theorem New_blocks_on_second_pending_job `{UUIDParse} (ids : list string)
    (dir : gmap string document) :
  Forall (readable {| db := dir; pending := ∅; dependants := ∅ |}) ids ->
  ((length (listed_pending dir ids) <= 1)%nat ->
     exists q, New (Some ids) dir = Ret (inl q)) /\
  ((2 <= length (listed_pending dir ids))%nat ->
     New (Some ids) dir = Blocked).
Proof.
  intros Hr. unfold New.
  by apply (New_loop_unlocked_total
              {| db := dir; pending := ∅; dependants := ∅ |}).
Qed.

(** X20.  A job whose arguments do not unmarshal is taken out of its
    channel and not started: [Dequeue] returns the error, the document
    stays pending, and no channel holds the job any more. *)
Theorem Dequeue_unmarshal_error_loses_job {B} `{Unmarshal B} (e : Env)
    (q : fsJobQueue) (jobType : string) (args : B) (id : UUID)
    (w : list UUID) (j : job) :
  ctx_Err e = None -> ctx_Done e = None ->
  waiting q jobType = id :: w ->
  readJob q id = inl j ->
  json_Unmarshal (Args j) args = None ->
  exists q' err,
    Dequeue e q [jobType] args = Ret (q', args, (uuid_Nil, Some err)) /\
    readJob q' id = inl j /\
    waiting q' jobType = w /\
    (forall t, t <> jobType -> waiting q' t = waiting q t).
Proof.
  intros Hctx Hdone Hw Hj Hargs. unfold waiting in Hw.
  destruct (pending q !! jobType) as [c|] eqn:Hc; [|done].
  simpl in Hw. subst c.
  unfold Dequeue. rewrite Hctx.
  assert (Hq : foldl pendingChannel q [jobType] = q).
  { cbn [foldl]. unfold pendingChannel. by rewrite Hc. }
  rewrite Hq. unfold ready_cases. rewrite Hdone.
  simpl. rewrite Hc. simpl. rewrite Hc. simpl.
  replace (readJob (set_pending (<[jobType:=w]> (pending q)) q) id)
    with (readJob q id) by done.
  rewrite Hj, Hargs. eexists _, _. split; [done|].
  unfold waiting. simpl. rewrite lookup_insert_eq. split_and!; try done.
  intros t Ht. by rewrite lookup_insert_ne.
Qed.

(** X27.  [uniqueUUIDList] returns the ids of its argument, each of them
    once, whatever the order in which the map is visited. *)
Theorem uniqueUUIDList_is_a_set (shuffle : RangeOrder) (ids : list UUID) :
  range_order_ok shuffle ->
  NoDup (uniqueUUIDList shuffle ids) /\
  (forall id, id ∈ uniqueUUIDList shuffle ids <-> id ∈ ids) /\
  (length (uniqueUUIDList shuffle ids) <= length ids)%nat /\
  (NoDup ids -> uniqueUUIDList shuffle ids ≡ₚ ids).
Proof.
  intros Hshuffle.
  pose proof (fsjobqueue_facts.uniqueUUIDList_NoDup shuffle ids Hshuffle)
    as Hnd.
  assert (Hel : forall id, id ∈ uniqueUUIDList shuffle ids <-> id ∈ ids).
  { intros id. by apply fsjobqueue_facts.uniqueUUIDList_elem_of. }
  split_and!; try done.
  - apply submseteq_length, NoDup_submseteq; [done|].
    intros x. apply Hel.
  - intros Hids. by apply NoDup_Permutation.
Qed.

Lemma Enqueue_schedules_witness :
  exists q',
    Enqueue (H := scenario.raw_marshal)
      (scenario.queue_env scenario.job_c range_in_order)
      scenario.queue_a_b "test" "null" [scenario.job_a] =
      Ret (q', (scenario.job_c, None)) /\
    pending q' = pending scenario.queue_a_b /\
    dependants q' !! scenario.job_a = Some [scenario.job_c].
Proof.
  destruct (Enqueue_schedules (H := scenario.raw_marshal)
              (scenario.queue_env scenario.job_c range_in_order)
              scenario.queue_a_b "test" "null" "null" [scenario.job_a])
    as (q' & Henq & _ & _ & Hwaits).
  - reflexivity.
  - reflexivity.
  - exact range_in_order_ok.
  - repeat constructor. eexists. reflexivity.
  - vm_compute. lia.
  - exists q'. split; [exact Henq|].
    destruct Hwaits as [Hp Hd].
    + intros Hf. apply Forall_inv in Hf as (j & Hj & Hs).
      vm_compute in Hj. injection Hj as <-. discriminate Hs.
    + split; [exact Hp|]. rewrite Hd. reflexivity.
Defined.

Lemma Dequeue_takes_head_witness :
  exists jt id0 w j,
    jt ∈ ["test"] /\ waiting scenario.queue_a_b jt = id0 :: w /\
    readJob scenario.queue_a_b id0 = inl j /\ scenario.job_a = Id j /\
    json_Unmarshal (Unmarshal := scenario.raw_unmarshal) (Args j) ""
      = Some "null" /\
    db scenario.queue_a_taken =
      <[uuid_String id0 := Doc (start 1600000000 j)]>
        (db scenario.queue_a_b) /\
    waiting scenario.queue_a_taken jt = w /\
    (forall t, t <> jt ->
       waiting scenario.queue_a_taken t = waiting scenario.queue_a_b t) /\
    dependants scenario.queue_a_taken = dependants scenario.queue_a_b.
Proof.
  apply (Dequeue_takes_head (H := scenario.raw_unmarshal)
           (scenario.queue_env scenario.job_c range_in_order)
           scenario.queue_a_b _ ["test"] "" "null" scenario.job_a).
  vm_compute. reflexivity.
Defined.


Lemma Dequeue_blocks_on_empty_channels_witness :
  Dequeue (H := scenario.raw_unmarshal)
    (scenario.queue_env scenario.job_c range_in_order)
    scenario.queue_a_b ["fish"] "" = Blocked.
Proof.
  apply (Dequeue_blocks_on_empty_channels (H := scenario.raw_unmarshal)
           (scenario.queue_env scenario.job_c range_in_order)
           scenario.queue_a_b ["fish"] "").
  - reflexivity.
  - reflexivity.
  - intros jt ->%list_elem_of_singleton. reflexivity.
Defined.

Lemma FinishJob_writes_one_document_witness :
  db (scenario.queue_b_released "true") = db scenario.queue_b_after_a \/
  exists j raw,
    readJob scenario.queue_b_after_a scenario.job_a = inl j /\
    Status j = JobRunning /\
    json_Marshal (Marshal := scenario.raw_marshal) "true" = Some raw /\
    db (scenario.queue_b_released "true") =
      <[uuid_String scenario.job_a := Doc (finish 1600000000 raw j)]>
        (db scenario.queue_b_after_a).
Proof.
  apply (FinishJob_writes_one_document (H := scenario.raw_marshal)
           (scenario.queue_env scenario.job_c range_in_order)
           scenario.queue_b_after_a (scenario.queue_b_released "true")
           scenario.job_a "true" None).
  vm_compute. reflexivity.
Defined.

Lemma job_life_cycle_witness :
  exists q1 q2 q3,
    Enqueue (H := scenario.raw_marshal)
      (scenario.queue_env scenario.job_a range_in_order)
      scenario.queue_new "fish" "[7]" [] =
      Ret (q1, (scenario.job_a, None)) /\
    JobStatus (H := scenario.raw_unmarshal) q1 scenario.job_a "" =
      ("", {| status := JobPending; queued := 1600000000;
              started := 0; finished := 0 |}, None) /\
    Dequeue (H := scenario.raw_unmarshal)
      (scenario.queue_env scenario.job_b range_in_order)
      q1 ["fish"] "" = Ret (q2, "[7]", (scenario.job_a, None)) /\
    JobStatus (H := scenario.raw_unmarshal) q2 scenario.job_a "" =
      ("", {| status := JobRunning; queued := 1600000000;
              started := 1600000000; finished := 0 |}, None) /\
    FinishJob (H := scenario.raw_marshal)
      (scenario.queue_env scenario.job_c range_in_order)
      q2 scenario.job_a "true" = Ret (q3, None) /\
    JobStatus (H := scenario.raw_unmarshal) q3 scenario.job_a "" =
      ("true", {| status := JobFinished; queued := 1600000000;
                  started := 1600000000; finished := 1600000000 |}, None) /\
    FinishJob (H := scenario.raw_marshal)
      (scenario.queue_env scenario.job_c range_in_order)
      q3 scenario.job_a "true" = Ret (q3, Some ErrNotRunning) /\
    waiting q3 "fish" = [].
Proof.
  apply (job_life_cycle (H := scenario.raw_marshal)
           (H0 := scenario.raw_unmarshal) (H1 := scenario.raw_marshal)
           (H2 := scenario.raw_unmarshal)
           (scenario.queue_env scenario.job_a range_in_order)
           (scenario.queue_env scenario.job_b range_in_order)
           (scenario.queue_env scenario.job_c range_in_order)
           (scenario.queue_env scenario.job_c range_in_order)
           scenario.queue_new "fish" "[7]" "[7]" "" "[7]" "true" "true"
           "" "true"); try reflexivity.
  exact range_in_order_ok.
Defined.

Lemma FinishJob_releases_only_ready_jobs_witness :
  exists added,
    waiting (scenario.queue_b_released "true") "test" =
      waiting scenario.queue_b_after_a "test" ++ added /\
    Forall (fun x => exists d dep,
              d ∈ default [] (dependants scenario.queue_b_after_a
                                !! scenario.job_a) /\
              readJob (scenario.queue_b_released "true") d = inl dep /\
              Id dep = x /\ JobType dep = "test" /\
              Forall (has_finished (scenario.queue_b_released "true"))
                (Dependencies dep)) added.
Proof.
  apply (FinishJob_releases_only_ready_jobs (H := scenario.raw_marshal)
           (scenario.queue_env scenario.job_c range_in_order)
           scenario.queue_b_after_a (scenario.queue_b_released "true")
           scenario.job_a "true" None "test").
  vm_compute. reflexivity.
Defined.

Lemma FinishJob_releases_dependant_witness :
  exists q',
    FinishJob (H := scenario.raw_marshal)
      (scenario.queue_env scenario.job_c range_in_order)
      scenario.queue_b_after_a scenario.job_a "true" = Ret (q', None) /\
    db q' = <[uuid_String scenario.job_a :=
                Doc (finish 1600000000 "true"
                       (scenario.running_job scenario.job_a))]>
              (db scenario.queue_b_after_a) /\
    waiting q' "test" = waiting scenario.queue_b_after_a "test" ++ [scenario.job_b] /\
    (forall t, t <> "test" -> waiting q' t = waiting scenario.queue_b_after_a t) /\
    dependants q' = delete scenario.job_a (dependants scenario.queue_b_after_a).
Proof.
  apply (FinishJob_releases_dependant (H := scenario.raw_marshal)
           (scenario.queue_env scenario.job_c range_in_order)
           scenario.queue_b_after_a scenario.job_a scenario.job_b "true" "true"
           (scenario.running_job scenario.job_a)
           (scenario.dependent_job scenario.job_b [scenario.job_a]));
    try reflexivity.
  - repeat constructor.
  - vm_compute. lia.
Defined.

Lemma New_returns_with_at_most_one_pending_job_witness :
  db scenario.queue_b_after_a = db scenario.queue_b_after_a /\
  match listed_pending (H := scenario.parse) (db scenario.queue_b_after_a)
          [uuid_String scenario.job_a; uuid_String scenario.job_b] with
  | [] => pending scenario.queue_b_after_a = ∅ /\ dependants scenario.queue_b_after_a = ∅
  | [j] =>
      dependants scenario.queue_b_after_a =
        foldl (add_dependant (Id j)) ∅ (Dependencies j) /\
      (Forall (has_finished scenario.queue_b_after_a) (Dependencies j) ->
         pending scenario.queue_b_after_a = {[JobType j := [Id j]]}) /\
      (~ Forall (has_finished scenario.queue_b_after_a) (Dependencies j) ->
         pending scenario.queue_b_after_a = ∅)
  | _ => False
  end.
Proof.
  apply (New_returns_with_at_most_one_pending_job (H := scenario.parse)
           [uuid_String scenario.job_a; uuid_String scenario.job_b]
           (db scenario.queue_b_after_a) scenario.queue_b_after_a).
  vm_compute. reflexivity.
Defined.

Lemma New_blocks_on_second_pending_job_witness :
  New (H := scenario.parse)
    (Some [uuid_String scenario.job_a; uuid_String scenario.job_b])
    (db scenario.queue_a_b) = Blocked.
Proof.
  apply (New_blocks_on_second_pending_job (H := scenario.parse)
           [uuid_String scenario.job_a; uuid_String scenario.job_b]
           (db scenario.queue_a_b)).
  - repeat constructor.
    + exists scenario.job_a, (scenario.stored_job scenario.job_a).
      split_and!; [reflexivity..|]. intros _. constructor.
    + exists scenario.job_b, (scenario.stored_job scenario.job_b).
      split_and!; [reflexivity..|]. intros _. constructor.
  - vm_compute. lia.
Defined.

Lemma uniqueUUIDList_is_a_set_witness :
  NoDup (uniqueUUIDList range_in_order
           [scenario.job_a; scenario.job_b; scenario.job_a]) /\
  (forall id,
     id ∈ uniqueUUIDList range_in_order
            [scenario.job_a; scenario.job_b; scenario.job_a] <->
     id ∈ [scenario.job_a; scenario.job_b; scenario.job_a]) /\
  (length (uniqueUUIDList range_in_order
             [scenario.job_a; scenario.job_b; scenario.job_a]) <=
   length [scenario.job_a; scenario.job_b; scenario.job_a])%nat /\
  (NoDup [scenario.job_a; scenario.job_b; scenario.job_a] ->
   uniqueUUIDList range_in_order
     [scenario.job_a; scenario.job_b; scenario.job_a] ≡ₚ
   [scenario.job_a; scenario.job_b; scenario.job_a]).
Proof.
  apply (uniqueUUIDList_is_a_set range_in_order
           [scenario.job_a; scenario.job_b; scenario.job_a]).
  exact range_in_order_ok.
Defined.

Lemma Dequeue_unmarshal_error_loses_job_witness :
  exists q' err,
    Dequeue (H := scenario.no_unmarshal)
      (scenario.queue_env scenario.job_c range_in_order)
      scenario.queue_a_b ["test"] "" =
      Ret (q', "", (uuid_Nil, Some err)) /\
    readJob q' scenario.job_a = inl (scenario.stored_job scenario.job_a) /\
    waiting q' "test" = [scenario.job_b] /\
    (forall t, t <> "test" -> waiting q' t = waiting scenario.queue_a_b t).
Proof.
  apply (Dequeue_unmarshal_error_loses_job (H := scenario.no_unmarshal)
           (scenario.queue_env scenario.job_c range_in_order)
           scenario.queue_a_b "test" "" scenario.job_a [scenario.job_b]
           (scenario.stored_job scenario.job_a)); reflexivity.
Defined.

End fsjobqueue_scheduling.

(** ** The worker server, continued *)
Module worker_protocol.
Import common jobqueue worker.

(** X28.  One job through the worker API, on a queue that holds no job of
    type ["osbuild"]: [Enqueue] files it and [JobStatus] reports Waiting;
    the worker that asks for a job gets this one with its manifest and
    targets (201) and the job is Running; the worker's update with a
    result is accepted (200), after which the job is Finished if the
    result says success and Failed if not, whichever of the two states the
    update named, and [JobResult] returns the result; a second update is
    refused (400). *)
Theorem worker_job_round_trip `{UUIDParse}
    {MJ : Marshal OSBuildJob} {UJ : Unmarshal OSBuildJob}
    {MR : Marshal OSBuildJobResult} {UR : Unmarshal OSBuildJobResult}
    (e1 e2 e3 e4 : fsjobqueue.Env) (q : fsjobqueue.fsJobQueue) (manifest : option string)
    (targets : list (option target.Target)) (raw rraw : RawMessage)
    (job_id : string) (update : updateJobRequest) (output : ComposeResult) :
  json_Marshal {| Manifest := manifest; Targets := targets |} = Some raw ->
  json_Unmarshal raw {| Manifest := None; Targets := [] |} =
    Some {| Manifest := manifest; Targets := targets |} ->
  json_Marshal {| OSBuildOutput := Some output |} = Some rraw ->
  json_Unmarshal rraw OSBuildJobResult_zero =
    Some {| OSBuildOutput := Some output |} ->
  range_order_ok (fsjobqueue.shuffle e1) ->
  fsjobqueue.db_Write_ok e1 = true -> fsjobqueue.db_Write_ok e2 = true -> fsjobqueue.db_Write_ok e3 = true ->
  fsjobqueue.ctx_Err e2 = None -> fsjobqueue.ctx_Done e2 = None ->
  fsjobqueue.waiting q "osbuild" = [] ->
  fsjobqueue.dependants q !! fsjobqueue.uuid_New e1 = None ->
  uuid_Parse job_id = Some (fsjobqueue.uuid_New e1) ->
  worker.Result update = Some output ->
  worker.Status update = IBFinished \/ worker.Status update = IBFailed ->
  let id := fsjobqueue.uuid_New e1 in
  let state := if Success output then CFinished else CFailed in
  let json := ["application/json"] in
  exists s1 s2 s3,
    Enqueue e1 {| jobs := q |} manifest targets = Ret (s1, (id, None)) /\
    JobStatus s1 id = Ret (CWaiting, fsjobqueue.time_Now e1, 0, 0, None) /\
    addJobHandler e2 s1 json true =
      Ret (s2, {| code := 201;
                  body := addJobResponse id manifest targets |}) /\
    JobStatus s2 id = Ret (CRunning, fsjobqueue.time_Now e1, fsjobqueue.time_Now e2, 0, None) /\
    updateJobHandler e3 s2 json job_id (Some update) =
      Ret (s3, {| code := 200; body := updateJobResponse |}) /\
    JobStatus s3 id =
      Ret (state, fsjobqueue.time_Now e1, fsjobqueue.time_Now e2, fsjobqueue.time_Now e3, None) /\
    JobResult s3 id = Ret (state, Some output, None) /\
    updateJobHandler e4 s3 json job_id (Some update) =
      Ret (s3, jsonErrorf 400 ("job is not running: " +:+ uuid_String id)).
Proof.
  intros Hraw Hjob Hrraw Hres Hsh Hw1 Hw2 Hw3 Hctx Hdone Hempty Hdeps
    Hparse Hresult Hstatus id state json.
  assert (Hfinal : ~ (worker.Status update <> IBFinished /\ worker.Status update <> IBFailed))
    by tauto.
  assert (Hjson : ~ not_json json) by (intros Hn; by apply Hn).
  eexists _, _, _. split_and!.
  - unfold Enqueue. simpl.
    rewrite (fsjobqueue_scheduling.Enqueue_no_dependencies e1 q "osbuild" _ raw); try done.
    rewrite Hempty. unfold fsjobqueue.channel_capacity. simpl. lia.
  - unfold JobStatus. simpl. unfold fsjobqueue.JobStatus, fsjobqueue.readJob. simpl.
    by rewrite lookup_insert_eq.
  - unfold addJobHandler. rewrite decide_False by done. simpl.
    rewrite Hempty. simpl.
    rewrite (fsjobqueue_scheduling.Dequeue_head e2 _ "osbuild" _
               {| Manifest := manifest; Targets := targets |}
               (fsjobqueue.uuid_New e1) [] (fsjobqueue.new_job e1 "osbuild" raw [])); try done.
    + simpl. by rewrite lookup_insert_eq.
    + unfold fsjobqueue.readJob. simpl. by rewrite lookup_insert_eq.
  - unfold JobStatus. simpl. unfold fsjobqueue.JobStatus, fsjobqueue.readJob. simpl.
    by rewrite lookup_insert_eq.
  - unfold updateJobHandler. rewrite decide_False by done.
    rewrite Hparse. rewrite decide_False by done. simpl.
    rewrite (fsjobqueue_scheduling.FinishJob_running e3 _ _ _ rraw
               (fsjobqueue.start (fsjobqueue.time_Now e2) (fsjobqueue.new_job e1 "osbuild" raw [])));
      try done.
    + unfold fsjobqueue.readJob. simpl. by rewrite lookup_insert_eq.
    + by rewrite Hresult.
  - unfold JobStatus. simpl. unfold fsjobqueue.JobStatus, fsjobqueue.readJob. simpl.
    rewrite lookup_insert_eq. simpl. rewrite Hres. simpl.
    unfold state. by destruct (Success output).
  - unfold JobResult. simpl. unfold fsjobqueue.JobStatus, fsjobqueue.readJob. simpl.
    rewrite lookup_insert_eq. simpl. rewrite Hres. simpl.
    unfold state. by destruct (Success output).
  - unfold updateJobHandler. rewrite decide_False by done.
    rewrite Hparse. rewrite decide_False by done. simpl.
    unfold fsjobqueue.FinishJob, fsjobqueue.readJob. simpl. by rewrite lookup_insert_eq.
Qed.

(** X29.  An update that carries no result is accepted all the same (200)
    and finishes the job, and from then on [JobStatus] panics on that job:
    it reads the success flag through the nil output. *)
Theorem updateJobHandler_accepts_missing_result `{UUIDParse}
    {MR : Marshal OSBuildJobResult} {UR : Unmarshal OSBuildJobResult}
    (e : fsjobqueue.Env) (q : fsjobqueue.fsJobQueue) (id : UUID) (j : fsjobqueue.job) (rraw : RawMessage)
    (job_id : string) (update : updateJobRequest) :
  fsjobqueue.readJob q id = inl j -> fsjobqueue.Status j = JobRunning ->
  fsjobqueue.dependants q !! id = None ->
  fsjobqueue.db_Write_ok e = true ->
  uuid_Parse job_id = Some id ->
  json_Marshal OSBuildJobResult_zero = Some rraw ->
  json_Unmarshal rraw OSBuildJobResult_zero = Some OSBuildJobResult_zero ->
  worker.Result update = None ->
  worker.Status update = IBFinished \/ worker.Status update = IBFailed ->
  exists s',
    updateJobHandler e {| jobs := q |} ["application/json"] job_id
      (Some update) = Ret (s', {| code := 200; body := updateJobResponse |}) /\
    JobStatus s' id = Panic nil_dereference /\
    JobResult s' id = Panic nil_dereference.
Proof.
  intros Hj Hrun Hdeps Hw Hparse Hrraw Hres Hresult Hstatus.
  assert (Hfinal : ~ (worker.Status update <> IBFinished /\ worker.Status update <> IBFailed))
    by tauto.
  eexists. split_and!.
  - unfold updateJobHandler.
    rewrite decide_False by (intros Hn; by apply Hn).
    rewrite Hparse. rewrite decide_False by done. simpl.
    rewrite (fsjobqueue_scheduling.FinishJob_running e q id _ rraw j); try done.
    by rewrite Hresult.
  - unfold JobStatus. simpl. unfold fsjobqueue.JobStatus, fsjobqueue.readJob. simpl.
    rewrite lookup_insert_eq. simpl. by rewrite Hres.
  - unfold JobResult. simpl. unfold fsjobqueue.JobStatus, fsjobqueue.readJob. simpl.
    rewrite lookup_insert_eq. simpl. by rewrite Hres.
Qed.

(** X30.  [updateJobHandler] answers 200 only when the request named
    Finished or Failed and [FinishJob] returned without an error; every
    other answer is an error message with 400, 404, 415 or 500, and unless
    [FinishJob] was called the queue is as it was. *)
Theorem updateJobHandler_answers {Q E} `{JobQueueOps Q E} `{UUIDParse}
    `{Marshal OSBuildJobResult} (env : E) (s s' : Server Q)
    (contentType : list string) (job_id : string)
    (decoded : option updateJobRequest) (r : response) :
  updateJobHandler env s contentType job_id decoded = Ret (s', r) ->
  (code r = 200 /\ body r = updateJobResponse /\
   exists id update,
     contentType = ["application/json"] /\
     uuid_Parse job_id = Some id /\ decoded = Some update /\
     (worker.Status update = IBFinished \/ worker.Status update = IBFailed) /\
     queue_FinishJob env (jobs s) id {| OSBuildOutput := worker.Result update |} =
       Ret (jobs s', None)) \/
  ((exists message, body r = errorResponse message) /\
   ((s' = s /\ (code r = 415 \/ code r = 400)) \/
    exists id update err,
      uuid_Parse job_id = Some id /\ decoded = Some update /\
      queue_FinishJob env (jobs s) id {| OSBuildOutput := worker.Result update |} =
        Ret (jobs s', Some err) /\
      code r = match err with
               | ErrNotExist => 404
               | ErrNotRunning => 400
               | _ => 500
               end)).
Proof.
  unfold updateJobHandler.
  case_decide as Hct.
  { intros [= <- <-]. right. split; [by eexists|]. left. by split; [|left]. }
  destruct (uuid_Parse job_id) as [id|] eqn:Hid.
  2:{ intros [= <- <-]. right. split; [by eexists|]. left.
      by split; [|right]. }
  destruct decoded as [update|].
  2:{ intros [= <- <-]. right. split; [by eexists|]. left.
      by split; [|right]. }
  case_decide as Hst.
  { intros [= <- <-]. right. split; [by eexists|]. left.
    by split; [|right]. }
  destruct (queue_FinishJob _ _ _ _) as [[q' [err|]]| | |] eqn:Hfin; simpl;
    try done.
  - intros Hret. right.
    assert (Hr : s' = {| jobs := q' |} /\
                 (exists message, body r = errorResponse message) /\
                 code r = match err with
                          | ErrNotExist => 404
                          | ErrNotRunning => 400
                          | _ => 500
                          end).
    { destruct err; injection Hret as <- <-; (split; [done|]);
        (split; [by eexists|done]). }
    destruct Hr as (-> & Hbody & Hcode). split; [done|]. right.
    by exists id, update, err.
  - intros [= <- <-]. left. split_and!; try done.
    exists id, update. split_and!; try done.
    + unfold not_json in Hct. by apply dec_stable.
    + destruct (decide (worker.Status update = IBFinished)); [by left|].
      destruct (decide (worker.Status update = IBFailed)); [by right|].
      by destruct Hst.
Qed.

Lemma worker_job_round_trip_witness :
  exists s1 s2 s3,
    Enqueue (H0 := scenario.job_marshal)
      (scenario.queue_env scenario.job_a range_in_order)
      {| jobs := scenario.queue_new |} None [] =
      Ret (s1, (scenario.job_a, None)) /\
    JobStatus (H0 := scenario.result_unmarshal) s1 scenario.job_a =
      Ret (CWaiting, 1600000000, 0, 0, None) /\
    addJobHandler (H0 := scenario.job_unmarshal)
      (scenario.queue_env scenario.job_b range_in_order) s1
      ["application/json"] true =
      Ret (s2, {| code := 201;
                  body := addJobResponse scenario.job_a None [] |}) /\
    JobStatus (H0 := scenario.result_unmarshal) s2 scenario.job_a =
      Ret (CRunning, 1600000000, 1600000000, 0, None) /\
    updateJobHandler (H0 := scenario.parse) (H1 := scenario.result_marshal)
      (scenario.queue_env scenario.job_c range_in_order) s2
      ["application/json"] (uuid_String scenario.job_a)
      (Some scenario.update_with_result) =
      Ret (s3, {| code := 200; body := updateJobResponse |}) /\
    JobStatus (H0 := scenario.result_unmarshal) s3 scenario.job_a =
      Ret (CFinished, 1600000000, 1600000000, 1600000000, None) /\
    JobResult (H0 := scenario.result_unmarshal) s3 scenario.job_a =
      Ret (CFinished, Some {| Success := true; Output := "" |}, None) /\
    updateJobHandler (H0 := scenario.parse) (H1 := scenario.result_marshal)
      (scenario.queue_env scenario.job_c range_in_order) s3
      ["application/json"] (uuid_String scenario.job_a)
      (Some scenario.update_with_result) =
      Ret (s3, jsonErrorf 400
                 ("job is not running: " +:+ uuid_String scenario.job_a)).
Proof.
  apply (worker_job_round_trip (H := scenario.parse)
           (MJ := scenario.job_marshal) (UJ := scenario.job_unmarshal)
           (MR := scenario.result_marshal) (UR := scenario.result_unmarshal)
           (scenario.queue_env scenario.job_a range_in_order)
           (scenario.queue_env scenario.job_b range_in_order)
           (scenario.queue_env scenario.job_c range_in_order)
           (scenario.queue_env scenario.job_c range_in_order)
           scenario.queue_new None [] scenario.job_document
           (scenario.result_document true) (uuid_String scenario.job_a)
           scenario.update_with_result {| Success := true; Output := "" |});
    try reflexivity.
  - exact range_in_order_ok.
  - by right.
Defined.

Lemma updateJobHandler_accepts_missing_result_witness :
  exists s',
    updateJobHandler (H0 := scenario.parse) (H1 := scenario.result_marshal)
      (scenario.queue_env scenario.job_c range_in_order)
      {| jobs := scenario.queue_a_taken |} ["application/json"]
      (uuid_String scenario.job_a) (Some scenario.update_without_result) =
      Ret (s', {| code := 200; body := updateJobResponse |}) /\
    JobStatus (H0 := scenario.result_unmarshal) s' scenario.job_a =
      Panic nil_dereference /\
    JobResult (H0 := scenario.result_unmarshal) s' scenario.job_a =
      Panic nil_dereference.
Proof.
  apply (updateJobHandler_accepts_missing_result (H := scenario.parse)
           (MR := scenario.result_marshal) (UR := scenario.result_unmarshal)
           (scenario.queue_env scenario.job_c range_in_order)
           scenario.queue_a_taken scenario.job_a
           (fsjobqueue.start 1600000000 (scenario.stored_job scenario.job_a))
           "{}" (uuid_String scenario.job_a) scenario.update_without_result);
    try reflexivity.
  by left.
Defined.

Lemma updateJobHandler_answers_witness :
  (code scenario.not_found = 200 /\ body scenario.not_found = updateJobResponse /\
   exists id update,
     ["application/json"] = ["application/json"] /\
     uuid_Parse (UUIDParse := scenario.parse) (uuid_String scenario.job_a)
       = Some id /\
     Some scenario.update_without_result = Some update /\
     (worker.Status update = IBFinished \/ worker.Status update = IBFailed) /\
     queue_FinishJob (H := scenario.result_marshal)
       (scenario.queue_env scenario.job_c range_in_order)
       scenario.queue_new id {| OSBuildOutput := worker.Result update |} =
       Ret (scenario.queue_new, None)) \/
  ((exists message, body scenario.not_found = errorResponse message) /\
   ((scenario.server_new = scenario.server_new /\
     (code scenario.not_found = 415 \/ code scenario.not_found = 400)) \/
    exists id update err,
      uuid_Parse (UUIDParse := scenario.parse) (uuid_String scenario.job_a)
        = Some id /\
      Some scenario.update_without_result = Some update /\
      queue_FinishJob (H := scenario.result_marshal)
        (scenario.queue_env scenario.job_c range_in_order)
        scenario.queue_new id {| OSBuildOutput := worker.Result update |} =
        Ret (scenario.queue_new, Some err) /\
      code scenario.not_found = match err with
                           | ErrNotExist => 404
                           | ErrNotRunning => 400
                           | _ => 500
                           end)).
Proof.
  apply (updateJobHandler_answers (H0 := scenario.parse)
           (H1 := scenario.result_marshal)
           (scenario.queue_env scenario.job_c range_in_order)
           scenario.server_new scenario.server_new
           ["application/json"] (uuid_String scenario.job_a)
           (Some scenario.update_without_result)).
  vm_compute. reflexivity.
Defined.

End worker_protocol.

(** ** The JSON form of the states *)
Module states_facts.
Import common states.

(** X4.  The states as JSON.  The four states are written as their names
    and read back as themselves; any other value of the integer type makes
    [MarshalJSON] and [ToString] panic.  What [UnmarshalJSON] accepts is
    the name of one of the four states, so a state read from a document is
    always one of them; on an error the receiver is left as it was. *)
Theorem state_json_round_trip `{JSONString} :
  (forall name, json_unquote (json_quote name) = Some name) ->
  (forall s, known s ->
     exists name,
       ToString s = Ret name /\ MarshalJSON s = Ret (json_quote name) /\
       forall old, UnmarshalJSON old (json_quote name) = (s, None)) /\
  (forall s, ~ known s ->
     ToString s = Panic index_out_of_range /\
     MarshalJSON s = Panic index_out_of_range) /\
  (forall old data s,
     UnmarshalJSON old data = (s, None) ->
     known s /\ exists name,
       json_unquote data = Some name /\ ToString s = Ret name) /\
  (forall old data s err,
     UnmarshalJSON old data = (s, Some err) -> s = old).
Proof.
  intros Hquote. split_and!.
  - intros s [Hlo Hhi]. unfold ToString, MarshalJSON, UnmarshalJSON,
      unmarshalStateHelper.
    assert (Hs : s = 0 \/ s = 1 \/ s = 2 \/ s = 3) by lia.
    destruct Hs as [ -> | [ -> | [ -> | -> ] ] ]; eexists; (split; [reflexivity|]);
      (split; [reflexivity|]); intros old; by rewrite Hquote.
  - intros s Hs. unfold MarshalJSON, ToString.
    rewrite index_out_of_range_panics; [done|].
    unfold in_range, known in *. simpl. lia.
  - intros old data s. unfold UnmarshalJSON, unmarshalStateHelper.
    destruct (json_unquote data) as [name|]; [|done].
    unfold getStateMapping. simpl.
    repeat case_decide; try done; intros [= <-]; subst;
      (split; [unfold known; lia|by eexists]).
  - intros old data s err. unfold UnmarshalJSON, unmarshalStateHelper.
    destruct (json_unquote data) as [name|]; [|by intros [= <-]].
    destruct (find_state name getStateMapping 0); [done|].
    by intros [= <-].
Qed.

Lemma strip_quote_app (s : string) :
  scenario.strip_quote (s +:+ String (Ascii.ascii_of_nat 34) "") = Some s.
Proof.
  induction s as [|c s IH]; [done|].
  change (String c s +:+ String (Ascii.ascii_of_nat 34) "")
    with (String c (s +:+ String (Ascii.ascii_of_nat 34) "")).
  cbn [scenario.strip_quote].
  destruct (s +:+ String (Ascii.ascii_of_nat 34) "") eqn:Hs.
  - by destruct s.
  - by rewrite IH.
Qed.

Lemma unquote_quoted (s : string) : scenario.unquote (scenario.quoted s) = Some s.
Proof.
  unfold scenario.quoted, scenario.unquote. rewrite decide_True by done.
  apply strip_quote_app.
Qed.

Lemma state_json_round_trip_witness :
  (forall s, known s ->
     exists name,
       ToString s = Ret name /\
       MarshalJSON (H := scenario.json_string) s = Ret (scenario.quoted name) /\
       forall old,
         UnmarshalJSON (H := scenario.json_string) old (scenario.quoted name)
           = (s, None)) /\
  (forall s, ~ known s ->
     ToString s = Panic index_out_of_range /\
     MarshalJSON (H := scenario.json_string) s = Panic index_out_of_range) /\
  (forall old data s,
     UnmarshalJSON (H := scenario.json_string) old data = (s, None) ->
     known s /\ exists name,
       scenario.unquote data = Some name /\ ToString s = Ret name) /\
  (forall old data s err,
     UnmarshalJSON (H := scenario.json_string) old data = (s, Some err) ->
     s = old).
Proof.
  apply (state_json_round_trip (H := scenario.json_string)).
  exact unquote_quoted.
Defined.

End states_facts.
